(** * WordleSolver: constraint engine and candidate ranker

    A shallow embedding of the solver class of
    [Old/V3 (Practically Perfect)/solver.py], with its loader and what
    the New Game button of its page does, of the parts of
    [Expiramental/solver (see aistudio chat).py] that differ from it, and
    of [suggest_guess] and [filter_words] of
    [Old/Terminal-Based/solver-term.py].

    Data model.
    - A Python [str] is a [string]; a letter and a feedback symbol are
      [ascii] characters (['G'], ['Y'], ['X'] in the source).
    - A [set[str]] is a [gset string], a set of letters a [gset ascii].
    - A [Counter] is a [gmultiset ascii]: [c[x]] is [multiplicity x c],
      [c[x] += 1] is [{[+ x +]} ⊎ c], a missing key reads as 0.
    - A [dict] keyed by letters is a [gmap ascii nat].
    - The five-slot lists [_known_letters] and [_misplaced_letters] are
      lists, read with [!!] and written with [<[i:=x]>] / [alter].  Python
      raises [IndexError] past the fifth slot, and on [word[i]] past the
      end of a word, where these do nothing or read [None]: model and
      code agree on five-letter words with five-symbol feedback, which is
      all the loader and the page let through.  A statement without that
      hypothesis holds of the model for all strings, five-letter ones
      among them.
    - A Python [float] is an IEEE-754 double, modelled by the rational
      it holds: [fadd], [fsub] and [fmul] return the exact result rounded
      to the nearest double, ties to the even mantissa ([float_round]),
      and a literal such as [1.2] is the double nearest to it.  Doubles
      are compared by their values.  The scores of the game stay far
      inside the range of the doubles, so overflow, infinities and NaN
      are not modelled, except for the [-float('inf')] the code writes.
      [x ** n] goes to the [pow] of the C library, whose rounding no
      standard fixes: it is a parameter of the experimental variant.
    - A method that mutates [self] returns the new solver next to its
      result. *)

From Stdlib Require Import QArith Ascii String.
From stdpp Require Import gmap gmultiset strings list sets sorting.

Local Open Scope string_scope.
Local Open Scope list_scope.
Local Open Scope nat_scope.

(** ** Python idioms shared by the three variants *)

Module Py.

(** The characters of a string, as iterating over a [str] yields them. *)
Definition letters (w : string) : list ascii := list_ascii_of_string w.

(** [w[i]]. *)
Definition word_at (w : string) (i : nat) : option ascii := letters w !! i.

(** [enumerate(l)]. *)
Definition enumerate {A} (l : list A) : list (nat * A) := imap (λ i x, (i, x)) l.

(** [enumerate(zip(guess, feedback))]. *)
Definition enum_zip (guess feedback : string) : list (nat * (ascii * ascii)) :=
  enumerate (zip (letters guess) (letters feedback)).

(** [Counter(w)]. *)
Definition Counter (w : string) : gmultiset ascii := list_to_set_disj (letters w).

(** [Counter(w).items()]: every distinct letter of [w] once, with its
    count.  The loops over it touch one key per letter, so the order in
    which the letters come is immaterial. *)
Definition items (w : string) : list (ascii * nat) :=
  (λ c, (c, multiplicity c (Counter w))) <$> remove_dups (letters w).

(** [set(w)]. *)
Definition letter_set (w : string) : gset ascii := list_to_set (letters w).

(** [''.join(words)]. *)
Definition join (words : list string) : string := String.concat "" words.

(** Python floats: the value of a double, and [-float('inf')]. *)
Inductive float := neg_inf | fin (q : Q).

(** The exponent of the leading bit of [n / d]: the floor of its binary
    logarithm. *)
Definition ilog2 (n d : positive) : Z :=
  let k := (Z.log2 (Zpos n) - Z.log2 (Zpos d))%Z in
  if (0 <=? k)%Z
  then (if (Zpos d * 2 ^ k <=? Zpos n)%Z then k else k - 1)%Z
  else (if (Zpos d <=? Zpos n * 2 ^ (- k))%Z then k else k - 1)%Z.

(** [a / b] rounded to the nearest integer, a tie to the even one. *)
Definition div_half_even (a b : Z) : Z :=
  let q := (a / b)%Z in
  match (2 * (a mod b) ?= b)%Z with
  | Lt => q
  | Gt => (q + 1)%Z
  | Eq => if Z.even q then q else (q + 1)%Z
  end.

(** The double nearest to [n / d]: a mantissa of 53 bits over the
    exponent of its last bit, which is at least -1074. *)
Definition round_pos (n d : positive) : Q :=
  let e := Z.max (ilog2 n d - 52) (-1074) in
  if (0 <=? e)%Z
  then inject_Z (div_half_even (Zpos n) (Zpos d * 2 ^ e) * 2 ^ e)
  else Qmake (div_half_even (Zpos n * 2 ^ (- e)) (Zpos d)) (Z.to_pos (2 ^ (- e))).

Definition float_round (q : Q) : Q :=
  match Qnum q with
  | Z0 => 0%Q
  | Zpos n => round_pos n (Qden q)
  | Zneg n => Qopp (round_pos n (Qden q))
  end.

(** [x + y], [x - y] and [x * y] on floats, and [float(n)] of a count. *)
Definition fadd (x y : Q) : Q := float_round (x + y).
Definition fsub (x y : Q) : Q := float_round (x - y).
Definition fmul (x y : Q) : Q := float_round (x * y).
Definition of_int (n : nat) : Q := float_round (inject_Z (Z.of_nat n)).

(** [a > b]. *)
Definition float_gtb (a b : float) : bool :=
  match a, b with
  | fin x, fin y => negb (Qle_bool x y)
  | fin _, neg_inf => true
  | neg_inf, _ => false
  end.

(** [a == b]. *)
Definition float_eqb (a b : float) : bool :=
  match a, b with
  | fin x, fin y => Qeq_bool x y
  | neg_inf, neg_inf => true
  | _, _ => false
  end.

(** [(a, b, c) < (a', b', c')] on the heap items of the experimental
    variant: a float, a bool, a word. *)
Definition item_ltb (x y : float * bool * string) : bool :=
  let '(a, b, c) := x in
  let '(a', b', c') := y in
  if float_eqb a a' then
    if Bool.eqb b b' then String.ltb c c' else negb b && b'
  else float_gtb a' a.

(** Text methods, for ASCII text (the word files and the typed input of
    the game are ASCII; Python's methods also know the letters and the
    spaces of the rest of Unicode, which a [string] does not hold). *)

(** [c.isspace()]: tab to carriage return, the four separators, space. *)
Definition isspace (c : ascii) : bool :=
  let n := nat_of_ascii c in
  ((9 <=? n) && (n <=? 13)) || ((28 <=? n) && (n <=? 32)).

Definition isupper (c : ascii) : bool :=
  let n := nat_of_ascii c in (65 <=? n) && (n <=? 90).

Definition islower (c : ascii) : bool :=
  let n := nat_of_ascii c in (97 <=? n) && (n <=? 122).

Definition lower_char (c : ascii) : ascii :=
  if isupper c then ascii_of_nat (nat_of_ascii c + 32) else c.

(** [w.lstrip()] on the characters of [w]. *)
Fixpoint lstrip (l : list ascii) : list ascii :=
  match l with
  | c :: l' => if isspace c then lstrip l' else l
  | [] => []
  end.

(** [w.strip()]. *)
Definition strip (w : string) : string :=
  string_of_list_ascii (reverse (lstrip (reverse (lstrip (letters w))))).

(** [w.lower()]. *)
Definition lower (w : string) : string :=
  string_of_list_ascii (lower_char <$> letters w).

(** [w.isalpha()]: at least one character, and letters only. *)
Definition isalpha (w : string) : bool :=
  bool_decide (letters w ≠ []) && forallb (λ c, isupper c || islower c) (letters w).

(** [w.isascii()]. *)
Definition isascii (w : string) : Prop :=
  Forall (λ c, nat_of_ascii c < 128) (letters w).

(** A text file: [None] when [open] raises, otherwise its lines. *)
Definition file := option (list string).

End Py.

Import Py.

(** ** The standard Wordle comparison

    The source never computes feedback: the player types it in.  The
    specification speaks of replaying the standard comparison of a word
    against a guess, which is this function: exact matches are CORRECT;
    the answer's letters left unmatched are then handed out, left to
    right, to the remaining guess letters as PRESENT; the rest is ABSENT. *)

Module Wordle.

(** The answer's letters at the positions the guess does not match. *)
Fixpoint unmatched (answer guess : list ascii) : gmultiset ascii :=
  match answer, guess with
  | a :: answer', c :: guess' =>
      if decide (a = c) then unmatched answer' guess'
      else {[+ a +]} ⊎ unmatched answer' guess'
  | _, _ => ∅
  end.

Fixpoint mark (remaining : gmultiset ascii) (answer guess : list ascii) : list ascii :=
  match answer, guess with
  | a :: answer', c :: guess' =>
      if decide (a = c) then "G"%char :: mark remaining answer' guess'
      else if decide (c ∈ remaining)
           then "Y"%char :: mark (remaining ∖ {[+ c +]}) answer' guess'
           else "X"%char :: mark remaining answer' guess'
  | _, _ => []
  end.

Definition compare (answer guess : string) : string :=
  string_of_list_ascii (mark (unmatched (letters answer) (letters guess)) (letters answer) (letters guess)).

(** Replaying one history entry against a word reproduces its feedback. *)
Definition reproduces (w : string) (entry : string * string) : Prop :=
  compare w entry.1 = entry.2.

(** A history of five-letter guesses with five-symbol feedback. *)
Definition wf_history (history : list (string * string)) : Prop :=
  Forall (λ e, String.length e.1 = 5 ∧ String.length e.2 = 5) history.

(** A pool of five-letter words. *)
Definition wf_pool (pool : gset string) : Prop :=
  set_Forall (λ w, String.length w = 5) pool.

End Wordle.

(** ** Old/V3 (Practically Perfect)/solver.py *)

Module V3.

Record WordleSolver := mkSolver {
  all_words : gset string;
  possible_answers : gset string;
  guesses_made : nat;
  feedback_history : list (string * string);
  _known_letters : list (option ascii);      (* '' is None *)
  _misplaced_letters : list (gset ascii);
  _present_letters : gset ascii;
  _excluded_letters : gset ascii
}.

(** The solver as [__init__] leaves it, from the two loaded word sets
    ([answers] already intersected with [words], or [words] itself). *)
Definition init (words answers : gset string) : WordleSolver :=
  mkSolver words answers 0 [] (replicate 5 None) (replicate 5 ∅) ∅ ∅.

Definition reset_solver_state (s : WordleSolver) : WordleSolver :=
  mkSolver (all_words s) (possible_answers s) (guesses_made s) (feedback_history s)
    (replicate 5 None) (replicate 5 ∅) ∅ ∅.

(** Field updates. *)
Definition set_known (i : nat) (c : ascii) (s : WordleSolver) : WordleSolver :=
  mkSolver (all_words s) (possible_answers s) (guesses_made s) (feedback_history s)
    (<[i := Some c]> (_known_letters s)) (_misplaced_letters s)
    (_present_letters s) (_excluded_letters s).

Definition add_misplaced (i : nat) (c : ascii) (s : WordleSolver) : WordleSolver :=
  mkSolver (all_words s) (possible_answers s) (guesses_made s) (feedback_history s)
    (_known_letters s) (alter (λ m, {[c]} ∪ m) i (_misplaced_letters s))
    (_present_letters s) (_excluded_letters s).

Definition add_present (c : ascii) (s : WordleSolver) : WordleSolver :=
  mkSolver (all_words s) (possible_answers s) (guesses_made s) (feedback_history s)
    (_known_letters s) (_misplaced_letters s)
    ({[c]} ∪ _present_letters s) (_excluded_letters s).

Definition add_excluded (c : ascii) (s : WordleSolver) : WordleSolver :=
  mkSolver (all_words s) (possible_answers s) (guesses_made s) (feedback_history s)
    (_known_letters s) (_misplaced_letters s)
    (_present_letters s) ({[c]} ∪ _excluded_letters s).

Definition set_possible_answers (p : gset string) (s : WordleSolver) : WordleSolver :=
  mkSolver (all_words s) p (guesses_made s) (feedback_history s)
    (_known_letters s) (_misplaced_letters s)
    (_present_letters s) (_excluded_letters s).

(** [solver.feedback_history.append((guess, feedback))], as the page does
    on submit. *)
Definition append_feedback (guess feedback : string) (s : WordleSolver) : WordleSolver :=
  mkSolver (all_words s) (possible_answers s) (S (guesses_made s))
    (feedback_history s ++ [(guess, feedback)])
    (_known_letters s) (_misplaced_letters s)
    (_present_letters s) (_excluded_letters s).

(** The loop state of one guess: the solver and
    [confirmed_non_gray_counts]. *)
Definition green_step (acc : WordleSolver * gmultiset ascii)
    (x : nat * (ascii * ascii)) : WordleSolver * gmultiset ascii :=
  let '(s, confirmed) := acc in
  let '(i, (letter, status)) := x in
  if decide (status = "G"%char)
  then (add_present letter (set_known i letter s), {[+ letter +]} ⊎ confirmed)
  else acc.

Definition yellow_gray_step (current_guess_letter_counts : gmultiset ascii)
    (acc : WordleSolver * gmultiset ascii)
    (x : nat * (ascii * ascii)) : WordleSolver * gmultiset ascii :=
  let '(s, confirmed) := acc in
  let '(i, (letter, status)) := x in
  if decide (status = "Y"%char)
  then (add_present letter (add_misplaced i letter s), {[+ letter +]} ⊎ confirmed)
  else if decide (status = "X"%char) then
    if decide (multiplicity letter confirmed
               < multiplicity letter current_guess_letter_counts) then
      if decide ((letter ∉ _present_letters s) ∧ (Some letter ∉ _known_letters s))
      then (add_excluded letter s, confirmed)
      else acc
    else acc
  else acc.

(** The body of the loop over [feedback_history]. *)
Definition update_guess (s : WordleSolver) (entry : string * string) : WordleSolver :=
  let '(guess, feedback) := entry in
  let current_guess_letter_counts := Counter guess in
  let acc := foldl green_step (s, ∅) (enum_zip guess feedback) in
  (foldl (yellow_gray_step current_guess_letter_counts) acc (enum_zip guess feedback)).1.

Definition _update_internal_state_from_history (s : WordleSolver) : WordleSolver :=
  foldl update_guess (reset_solver_state s) (feedback_history s).

(** [positional_frequencies[i][letter] += 1] for every letter of a word. *)
Definition count_word (pf : list (gmultiset ascii)) (word : string) : list (gmultiset ascii) :=
  foldl (λ pf '(i, letter), alter (λ c, {[+ letter +]} ⊎ c) i pf) pf (enumerate (letters word)).

Definition calculate_positional_frequencies (words : gset string) : list (gmultiset ascii) :=
  set_fold (λ word pf, count_word pf word) (replicate 5 ∅) words.

Definition calculate_letter_frequencies (words : gset string) : gmultiset ascii :=
  Counter (join (elements words)).

(** One round of the loop of [score_word]; the state is [score] and
    [used_letters]. *)
Definition score_step (s : WordleSolver) (positional_frequencies : list (gmultiset ascii))
    (letter_frequencies : gmultiset ascii) (elimination_mode : bool)
    (acc : Q * gset ascii) (x : nat * ascii) : Q * gset ascii :=
  let '(score, used_letters) := acc in
  let '(i, letter) := x in
  if decide (letter ∈ _excluded_letters s) then (fsub score (of_int 1000), used_letters)
  else
    let score :=
      if decide (letter ∈ default ∅ (_misplaced_letters s !! i))
      then fsub score (of_int 50) else score in
    if decide (letter ∉ used_letters) then
      let score :=
        fadd score
          (of_int (multiplicity letter (default ∅ (positional_frequencies !! i)))) in
      let score :=
        if elimination_mode
        then fadd score
               (fmul (of_int (multiplicity letter letter_frequencies)) (float_round 0.5))
        else score in
      (score, {[letter]} ∪ used_letters)
    else (score, used_letters).

Definition score_word (s : WordleSolver) (word : string)
    (positional_frequencies : list (gmultiset ascii))
    (letter_frequencies : gmultiset ascii) (possible_answers : gset string)
    (elimination_mode : bool) : Q :=
  let is_possible_answer := bool_decide (word ∈ possible_answers) in
  let score :=
    (foldl (score_step s positional_frequencies letter_frequencies elimination_mode)
       (0%Q, ∅) (enumerate (letters word))).1 in
  let score :=
    if is_possible_answer && negb elimination_mode
    then fmul score (float_round 1.2) else score in
  if decide (size (letter_set word) < 5) then fmul score (float_round 0.9) else score.

(** The three filtering loops over the derived state. *)
Definition apply_known (known : list (option ascii)) (filtered : gset string) : gset string :=
  foldl (λ filtered '(i, known_letter),
           match known_letter with
           | Some c => filter (λ word, word_at word i = Some c) filtered
           | None => filtered
           end)
        filtered (enumerate known).

Definition apply_present (present : gset ascii) (filtered : gset string) : gset string :=
  set_fold (λ letter filtered, filter (λ word, letter ∈ letters word) filtered)
           filtered present.

Definition apply_misplaced (misplaced : list (gset ascii)) (filtered : gset string) : gset string :=
  foldl (λ filtered '(i, misplaced_set),
           set_fold (λ letter filtered,
                       filter (λ word, word_at word i ≠ Some letter) filtered)
                    filtered misplaced_set)
        filtered (enumerate misplaced).

(** [set(filter(None, self._known_letters))]. *)
Definition known_set (known : list (option ascii)) : gset ascii :=
  list_to_set (omap id known).

Definition active_exclusions (s : WordleSolver) : gset ascii :=
  _excluded_letters s ∖ _present_letters s ∖ known_set (_known_letters s).

Definition apply_exclusions (active : gset ascii) (filtered : gset string) : gset string :=
  set_fold (λ letter filtered, filter (λ word, letter ∉ letters word) filtered)
           filtered active.

(** [non_gray_counts] of one history entry. *)
Definition non_gray_counts (guess feedback : string) : gmultiset ascii :=
  foldl (λ ng '(i, (letter, status)),
           if decide (status = "G"%char ∨ status = "Y"%char)
           then {[+ letter +]} ⊎ ng else ng)
        ∅ (enum_zip guess feedback).

(** The loop over [guess_counts.items()]: the state is
    [min_letter_counts] and [max_letter_counts] (a [defaultdict] whose
    missing keys read as 5). *)
Definition count_letter (excluded : gset ascii) (ng : gmultiset ascii)
    (acc : gmap ascii nat * gmap ascii nat) (x : ascii * nat)
    : gmap ascii nat * gmap ascii nat :=
  let '(min_letter_counts, max_letter_counts) := acc in
  let '(letter, count) := x in
  let min_letter_counts :=
    <[letter := (default 0 (min_letter_counts !! letter)) `max` (multiplicity letter ng)]>
      min_letter_counts in
  if decide (multiplicity letter ng < count ∧ letter ∈ excluded)
  then (min_letter_counts,
        <[letter := (default 5 (max_letter_counts !! letter)) `min` (multiplicity letter ng)]>
          max_letter_counts)
  else (min_letter_counts, max_letter_counts).

Definition count_guess (excluded : gset ascii)
    (acc : gmap ascii nat * gmap ascii nat) (entry : string * string)
    : gmap ascii nat * gmap ascii nat :=
  let '(guess, feedback) := entry in
  foldl (count_letter excluded (non_gray_counts guess feedback)) acc (items guess).

Definition letter_counts (s : WordleSolver) : gmap ascii nat * gmap ascii nat :=
  foldl (count_guess (_excluded_letters s)) (∅, ∅) (feedback_history s).

(** The body of the last loop: [valid] for one word. *)
Definition valid (min_letter_counts max_letter_counts : gmap ascii nat) (word : string) : Prop :=
  let word_counts := Counter word in
  map_Forall (λ letter min_count, ¬ multiplicity letter word_counts < min_count)
             min_letter_counts
  ∧ map_Forall (λ letter max_count,
                  ¬ (letter ∈ word_counts ∧ max_count < multiplicity letter word_counts))
               max_letter_counts.

Global Instance valid_dec mn mx w : Decision (valid mn mx w).
Proof. unfold valid. apply _. Defined.

Definition filter_words (s : WordleSolver) : WordleSolver * gset string :=
  let s := _update_internal_state_from_history s in
  let filtered := possible_answers s in
  let filtered := apply_known (_known_letters s) filtered in
  let filtered := apply_present (_present_letters s) filtered in
  let filtered := apply_misplaced (_misplaced_letters s) filtered in
  let filtered := apply_exclusions (active_exclusions s) filtered in
  let '(min_letter_counts, max_letter_counts) := letter_counts s in
  let temp_filtered := filter (valid min_letter_counts max_letter_counts) filtered in
  (set_possible_answers temp_filtered s, temp_filtered).

(** One round of the loop of [suggest_guess]; the state is [best_word]
    and [best_score]. *)
Definition suggest_step (s : WordleSolver) (current_possible : gset string)
    (positional_frequencies : list (gmultiset ascii))
    (letter_frequencies : gmultiset ascii) (elimination_mode : bool)
    (acc : string * float) (word : string) : string * float :=
  let '(best_word, best_score) := acc in
  if bool_decide (Exists (λ hist, word = hist.1) (feedback_history s)) then acc
  else
    let score :=
      fin (score_word s word positional_frequencies letter_frequencies
             current_possible elimination_mode) in
    let current_best_is_possible := bool_decide (best_word ∈ current_possible) in
    let word_is_possible := bool_decide (word ∈ current_possible) in
    if float_gtb score best_score then (word, score)
    else if float_eqb score best_score then
      if word_is_possible && negb current_best_is_possible then (word, best_score)
      else if Bool.eqb word_is_possible current_best_is_possible && String.ltb word best_word
           then (word, best_score)
           else acc
    else acc.

Section iteration.

(** The order in which Python iterates over a set of words is not
    specified: [iter] is that order. *)
Variable iter : gset string → list string.

Definition suggest_guess (s : WordleSolver) (elimination_mode : bool)
    : WordleSolver * string :=
  let '(s, current_possible) := filter_words s in
  if decide (current_possible = ∅) then (s, "No valid words remaining.")
  else if decide (size current_possible = 1)
  then (s, default "" (head (iter current_possible)))
  else
    let positional_frequencies := calculate_positional_frequencies current_possible in
    let letter_frequencies := calculate_letter_frequencies current_possible in
    let word_pool := if elimination_mode then all_words s else current_possible in
    let '(best_word, _) :=
      foldl (suggest_step s current_possible positional_frequencies
               letter_frequencies elimination_mode)
            ("", neg_inf) (iter word_pool) in
    (s, if decide (best_word = "") then "Could not determine best guess." else best_word).

End iteration.

(** The mode the page asks [suggest_guess] for:
    [guesses_made < 2 and remaining_count > 20], where [remaining_count]
    is [len(solver.possible_answers)]. *)
Definition page_elimination_mode (s : WordleSolver) : bool :=
  bool_decide (guesses_made s < 2 ∧ 20 < size (possible_answers s)).

(** The candidate set computed from a history and a pool. *)
Definition computeCandidates (history : list (string * string)) (pool : gset string)
    : gset string :=
  (filter_words (mkSolver pool pool 0 history (replicate 5 None) (replicate 5 ∅) ∅ ∅)).2.

(** [load_words]: the set of the stripped, lower-cased lines that are
    five letters long.  The messages it shows on the page on an empty or
    unreadable file are left out; it returns the empty set in both
    cases. *)
Definition load_words (f : file) : gset string :=
  match f with
  | Some lines =>
      let words : gset string :=
        list_to_set
          ((λ word, lower (strip word))
             <$> filter (λ word, String.length (strip word) = 5
                                 ∧ isalpha (strip word) = true) lines) in
      if decide (words = ∅) then ∅ else words
  | None => ∅
  end.

(** [__init__]: [answers] is [None] when no [answers_path] is given. *)
Definition __init__ (wordlist : file) (answers : option file) : WordleSolver :=
  let all_words := load_words wordlist in
  let possible_answers :=
    match answers with
    | Some answers_file =>
        let potential_answers := load_words answers_file in
        let possible_answers := potential_answers ∩ all_words in
        if decide (possible_answers = ∅) then all_words else possible_answers
    | None => all_words
    end in
  mkSolver all_words possible_answers 0 [] (replicate 5 None) (replicate 5 ∅) ∅ ∅.

(** What the New Game button does to the solver: the history is
    emptied and the answers are loaded again. *)
Definition new_game (answers : file) (s : WordleSolver) : WordleSolver :=
  let potential_answers := load_words answers in
  let possible_answers :=
    if decide (potential_answers ≠ ∅) then
      let possible_answers := potential_answers ∩ all_words s in
      if decide (possible_answers = ∅) then all_words s else possible_answers
    else all_words s in
  mkSolver (all_words s) possible_answers (guesses_made s) []
    (_known_letters s) (_misplaced_letters s) (_present_letters s) (_excluded_letters s).

End V3.

(** ** Expiramental/solver (see aistudio chat).py

    The class has the fields of the V3 class, the same [__init__] state,
    [reset_solver_state], first pass over the greens and frequency
    functions; what differs is given here. *)

Module Experimental.

Import V3.

(** The second pass: a gray letter is excluded unless it is known to be
    present. *)
Definition yellow_gray_step (acc : WordleSolver * gmultiset ascii)
    (x : nat * (ascii * ascii)) : WordleSolver * gmultiset ascii :=
  let '(s, confirmed) := acc in
  let '(i, (letter, status)) := x in
  if decide (status = "Y"%char)
  then (add_present letter (add_misplaced i letter s), {[+ letter +]} ⊎ confirmed)
  else if decide (status = "X"%char) then
    if decide ((letter ∉ _present_letters s) ∧ (Some letter ∉ _known_letters s))
    then (add_excluded letter s, confirmed)
    else acc
  else acc.

Definition update_guess (s : WordleSolver) (entry : string * string) : WordleSolver :=
  let '(guess, feedback) := entry in
  let acc := foldl green_step (s, ∅) (enum_zip guess feedback) in
  (foldl yellow_gray_step acc (enum_zip guess feedback)).1.

Definition _update_internal_state_from_history (s : WordleSolver) : WordleSolver :=
  foldl update_guess (reset_solver_state s) (feedback_history s).

(** One round of the loop of [score_word]; [None] once the function has
    returned [-float('inf')]. *)
Definition score_step (s : WordleSolver) (positional_frequencies : list (gmultiset ascii))
    (letter_frequencies : gmultiset ascii) (elimination_mode : bool)
    (acc : option (Q * gset ascii)) (x : nat * ascii) : option (Q * gset ascii) :=
  '(score, used_letters) ← acc;
  let '(i, letter) := x in
  if decide (letter ∈ _excluded_letters s ∧ letter ∈ active_exclusions s) then None
  else
    let known_letter := default None (_known_letters s !! i) in
    if decide (is_Some known_letter ∧ known_letter ≠ Some letter) then None
    else
      let score :=
        if decide (letter ∈ default ∅ (_misplaced_letters s !! i))
        then fsub score (of_int 50) else score in
      let letter_score := 0%Q in
      let letter_score :=
        if decide (letter ∉ used_letters) then
          let letter_score :=
            fadd letter_score
              (of_int (multiplicity letter (default ∅ (positional_frequencies !! i)))) in
          if elimination_mode
          then fadd letter_score
                 (fmul (of_int (multiplicity letter letter_frequencies)) (float_round 0.5))
          else letter_score
        else letter_score in
      Some (fadd score letter_score, {[letter]} ∪ used_letters).

(** The number of letters of [word] on their known green position. *)
Definition green_reuse (s : WordleSolver) (word : string) : nat :=
  length (filter (λ x, default None (_known_letters s !! x.1) = Some x.2)
                 (enumerate (letters word))).

(** [pow x n] is [x ** n] as the platform computes it. *)
Definition score_word (pow : Q → nat → Q) (s : WordleSolver) (word : string)
    (positional_frequencies : list (gmultiset ascii))
    (letter_frequencies : gmultiset ascii) (possible_answers : gset string)
    (elimination_mode : bool) : float :=
  let is_possible_answer := bool_decide (word ∈ possible_answers) in
  let penalty_for_duplicates :=
    if decide (size (letter_set word) < 5) then float_round 0.9 else float_round 1.0 in
  let possible_answer_bonus :=
    if is_possible_answer && negb elimination_mode
    then float_round 1.2 else float_round 1.0 in
  match foldl (score_step s positional_frequencies letter_frequencies elimination_mode)
              (Some (0%Q, ∅)) (enumerate (letters word)) with
  | None => neg_inf
  | Some (score, _) =>
      let score := fmul score possible_answer_bonus in
      let score := fmul score penalty_for_duplicates in
      let green_reuse_penalty := pow (float_round 0.95) (green_reuse s word) in
      fin (fmul score green_reuse_penalty)
  end.

Definition apply_known (known : list (option ascii)) (filtered : gset string) : gset string :=
  foldl (λ filtered '(i, known_letter),
           match known_letter with
           | Some c =>
               filter (λ word, String.length word = 5 ∧ word_at word i = Some c) filtered
           | None => filtered
           end)
        filtered (enumerate known).

Definition apply_misplaced (misplaced : list (gset ascii)) (filtered : gset string) : gset string :=
  foldl (λ filtered '(i, misplaced_set),
           set_fold (λ letter filtered,
                       filter (λ word, String.length word = 5 ∧ word_at word i ≠ Some letter)
                              filtered)
                    filtered misplaced_set)
        filtered (enumerate misplaced).

(** [any(fb == 'X' and g == letter for g, fb in zip(guess, feedback))]. *)
Definition gray_present_in_feedback (guess feedback : string) (letter : ascii) : Prop :=
  Exists (λ p, p.2 = "X"%char ∧ p.1 = letter) (zip (letters guess) (letters feedback)).

Global Instance gray_present_in_feedback_dec g fb c :
  Decision (gray_present_in_feedback g fb c).
Proof. unfold gray_present_in_feedback. apply _. Defined.

(** The loop over [guess_counts.items()]: the state is
    [min_letter_counts] and [exact_letter_counts]. *)
Definition count_letter (guess feedback : string) (ng : gmultiset ascii)
    (acc : gmap ascii nat * gmap ascii nat) (x : ascii * nat)
    : gmap ascii nat * gmap ascii nat :=
  let '(min_letter_counts, exact_letter_counts) := acc in
  let '(letter, count) := x in
  let min_letter_counts :=
    <[letter := (default 0 (min_letter_counts !! letter)) `max` (multiplicity letter ng)]>
      min_letter_counts in
  if decide (gray_present_in_feedback guess feedback letter
             ∧ multiplicity letter ng = default 0 (min_letter_counts !! letter))
  then (min_letter_counts, <[letter := multiplicity letter ng]> exact_letter_counts)
  else (min_letter_counts, exact_letter_counts).

Definition count_guess (acc : gmap ascii nat * gmap ascii nat) (entry : string * string)
    : gmap ascii nat * gmap ascii nat :=
  let '(guess, feedback) := entry in
  foldl (count_letter guess feedback (non_gray_counts guess feedback)) acc (items guess).

Definition letter_counts (s : WordleSolver) : gmap ascii nat * gmap ascii nat :=
  foldl count_guess (∅, ∅) (feedback_history s).

Definition valid (min_letter_counts exact_letter_counts : gmap ascii nat) (word : string) : Prop :=
  let word_counts := Counter word in
  map_Forall (λ letter min_count, ¬ multiplicity letter word_counts < min_count)
             min_letter_counts
  ∧ map_Forall (λ letter exact_count, ¬ multiplicity letter word_counts ≠ exact_count)
               exact_letter_counts.

Global Instance valid_dec mn ex w : Decision (valid mn ex w).
Proof. unfold valid. apply _. Defined.

Definition filter_words (s : WordleSolver) : WordleSolver * gset string :=
  let s := _update_internal_state_from_history s in
  let filtered := possible_answers s in
  let filtered := apply_known (_known_letters s) filtered in
  let filtered := apply_present (_present_letters s) filtered in
  let filtered := apply_misplaced (_misplaced_letters s) filtered in
  let filtered := apply_exclusions (active_exclusions s) filtered in
  let '(min_letter_counts, exact_letter_counts) := letter_counts s in
  let final_filtered := filter (valid min_letter_counts exact_letter_counts) filtered in
  (set_possible_answers final_filtered s, final_filtered).

(** [heapq], by its contract: the heap is kept as the ascending list of
    its items (the layout of the array is not observable, the result is
    passed through [sorted]). *)
Fixpoint heappush (heap : list (float * bool * string)) (item : float * bool * string)
    : list (float * bool * string) :=
  match heap with
  | [] => [item]
  | x :: heap' => if item_ltb item x then item :: heap else x :: heappush heap' item
  end.

(** [heappushpop]: push, then drop the smallest item. *)
Definition heappushpop (heap : list (float * bool * string)) (item : float * bool * string)
    : list (float * bool * string) :=
  tail (heappush heap item).

(** [-score]. *)
Definition float_neg (x : float) : float :=
  match x with fin q => fin (- q)%Q | neg_inf => neg_inf end.

Definition suggest_step (pow : Q → nat → Q) (s : WordleSolver)
    (current_possible : gset string)
    (positional_frequencies : list (gmultiset ascii))
    (letter_frequencies : gmultiset ascii) (elimination_mode : bool)
    (num_suggestions : nat)
    (top_suggestions_heap : list (float * bool * string)) (word : string)
    : list (float * bool * string) :=
  let score := score_word pow s word positional_frequencies letter_frequencies
                 current_possible elimination_mode in
  if float_eqb score neg_inf then top_suggestions_heap
  else
    let is_possible := bool_decide (word ∈ current_possible) in
    let heap_item := (float_neg score, negb is_possible, word) in
    if decide (length top_suggestions_heap < num_suggestions)
    then heappush top_suggestions_heap heap_item
    else heappushpop top_suggestions_heap heap_item.

Section iteration.

(** The platform's [pow] and the iteration order of sets. *)
Variable pow : Q → nat → Q.
Variable iter : gset string → list string.

Definition suggest_guess (s : WordleSolver) (elimination_mode : bool)
    (num_suggestions : nat) : WordleSolver * list string :=
  let '(s, current_possible) := filter_words s in
  if decide (current_possible = ∅) then (s, ["No valid words remaining."])
  else if decide (size current_possible = 1)
  then (s, [default "" (head (iter current_possible))])
  else
    let positional_frequencies := calculate_positional_frequencies current_possible in
    let letter_frequencies := calculate_letter_frequencies current_possible in
    let word_pool := if elimination_mode then all_words s else current_possible in
    let word_pool := word_pool ∖ list_to_set ((feedback_history s).*1) in
    let top_suggestions_heap :=
      foldl (suggest_step pow s current_possible positional_frequencies
               letter_frequencies elimination_mode num_suggestions)
            [] (iter word_pool) in
    let final_suggestions := top_suggestions_heap.*2 in
    match final_suggestions with
    | [] => (s, take num_suggestions (merge_sort String.le (iter current_possible)))
    | _ => (s, final_suggestions)
    end.

End iteration.

Definition computeCandidates (history : list (string * string)) (pool : gset string)
    : gset string :=
  (filter_words (mkSolver pool pool 0 history (replicate 5 None) (replicate 5 ∅) ∅ ∅)).2.

End Experimental.

(** ** Old/Terminal-Based/solver-term.py: the ranker *)

Module Terminal.

Definition score_word (word : string) (positional_frequencies : list (gmultiset ascii))
    (letter_frequencies : gmultiset ascii) (elimination_mode : bool) : Q :=
  (foldl (λ '(score, used_letters) '(i, letter),
            if decide (letter ∉ used_letters) then
              let score :=
                fadd score
                  (of_int (multiplicity letter (default ∅ (positional_frequencies !! i)))) in
              let score :=
                if elimination_mode
                then fadd score (of_int (multiplicity letter letter_frequencies))
                else score in
              (score, ({[letter]} ∪ used_letters) : gset ascii)
            else (score, used_letters))
         (0%Q, ∅) (enumerate (letters word))).1.

Section iteration.

Variable iter : gset string → list string.

Definition suggest_guess (all_words words : gset string) (elimination_mode : bool) : string :=
  if decide (words = ∅) then "No valid words remaining."
  else
    let positional_frequencies := V3.calculate_positional_frequencies words in
    let letter_frequencies := V3.calculate_letter_frequencies words in
    (foldl (λ '(best_word, best_score) word,
              let score := score_word word positional_frequencies letter_frequencies
                             elimination_mode in
              if negb (Qle_bool score best_score) then (word, score)
              else (best_word, best_score))
           ("", (-1)%Q) (iter (if elimination_mode then all_words else words))).1.

End iteration.

(** The solver of the terminal variant, with the fields [filter_words]
    writes. *)
Record WordleSolver := mkSolver {
  all_words : gset string;
  possible_answers : gset string;
  guesses_made : nat;
  feedback_history : list (string * string);
  known_letters : list (option ascii);
  misplaced_letters : list (gset ascii);
  excluded_letters : gset ascii
}.

Definition init (words answers : gset string) : WordleSolver :=
  mkSolver words answers 0 [] (replicate 5 None) (replicate 5 ∅) ∅.

(** One feedback symbol of [filter_words]; the state is the solver and
    [filtered_words]. *)
Definition filter_step (acc : WordleSolver * gset string)
    (x : nat * (ascii * ascii)) : WordleSolver * gset string :=
  let '(s, filtered_words) := acc in
  let '(i, (letter, status)) := x in
  if decide (status = "G"%char) then
    (mkSolver (all_words s) (possible_answers s) (guesses_made s) (feedback_history s)
       (<[i := Some letter]> (known_letters s)) (misplaced_letters s) (excluded_letters s),
     filter (λ word, word_at word i = Some letter) filtered_words)
  else if decide (status = "Y"%char) then
    (mkSolver (all_words s) (possible_answers s) (guesses_made s) (feedback_history s)
       (known_letters s) (alter (λ m, {[letter]} ∪ m) i (misplaced_letters s))
       (excluded_letters s),
     filter (λ word, letter ∈ letters word ∧ word_at word i ≠ Some letter) filtered_words)
  else if decide (status = "X"%char) then
    if decide ((Some letter ∉ known_letters s) ∧ (letter ∉ ⋃ (misplaced_letters s)))
    then
      (mkSolver (all_words s) (possible_answers s) (guesses_made s) (feedback_history s)
         (known_letters s) (misplaced_letters s) ({[letter]} ∪ excluded_letters s),
       filter (λ word, letter ∉ letters word) filtered_words)
    else acc
  else acc.

Definition filter_guess (acc : WordleSolver * gset string) (entry : string * string)
    : WordleSolver * gset string :=
  foldl filter_step acc (enum_zip entry.1 entry.2).

Definition filter_words (s : WordleSolver) : WordleSolver * gset string :=
  foldl filter_guess (s, possible_answers s) (feedback_history s).

End Terminal.

(** ** Notions the statements below are written in *)

(** The evidence a history holds: some entry marks letter [c] at
    position [i] with [status]. *)
Definition marked (history : list (string * string)) (i : nat) (c status : ascii) : Prop :=
  ∃ guess feedback, (guess, feedback) ∈ history
    ∧ word_at guess i = Some c ∧ word_at feedback i = Some status.

(** The positions and letters an entry marks CORRECT. *)
Definition green_marks (entry : string * string) : list (nat * ascii) :=
  omap (λ x, if decide (x.2.2 = "G"%char) then Some (x.1, x.2.1) else None)
       (enum_zip entry.1 entry.2).

(** No position is marked CORRECT with two different letters. *)
Definition green_consistent (history : list (string * string)) : Prop :=
  let marks := history ≫= green_marks in
  Forall (λ p, Forall (λ q, p.1 = q.1 → p.2 = q.2) marks) marks.

(** The fields of the solver that the rebuild of the derived state
    leaves alone, and the four it rebuilds. *)
Definition frame (s : V3.WordleSolver) :=
  (V3.all_words s, V3.possible_answers s, V3.guesses_made s, V3.feedback_history s).

Definition derived (s : V3.WordleSolver) :=
  (V3._known_letters s, V3._misplaced_letters s, V3._present_letters s,
   V3._excluded_letters s).

(** Counting the CORRECT marks and the other occurrences of a letter of
    the guess, position by position. *)
Fixpoint greens (c : ascii) (answer guess : list ascii) : nat :=
  match answer, guess with
  | a :: answer', x :: guess' =>
      (if decide (a = x ∧ x = c) then 1 else 0) + greens c answer' guess'
  | _, _ => 0
  end.

Fixpoint strays (c : ascii) (answer guess : list ascii) : nat :=
  match answer, guess with
  | a :: answer', x :: guess' =>
      (if decide (a ≠ x ∧ x = c) then 1 else 0) + strays c answer' guess'
  | _, _ => 0
  end.

(** The letters of a guess whose feedback is not ABSENT. *)
Definition non_gray (z : list (ascii * ascii)) : list ascii :=
  (filter (λ p, p.2 = "G"%char ∨ p.2 = "Y"%char) z).*1.

(** Count bounds that hold of the word [w]. *)
Definition sound (w : string) (acc : gmap ascii nat * gmap ascii nat) : Prop :=
  (∀ c m, acc.1 !! c = Some m → m ≤ multiplicity c (Counter w))
  ∧ (∀ c m, acc.2 !! c = Some m → multiplicity c (Counter w) ≤ m).

(** The same for the counts of the experimental variant: lower bounds
    and exact counts. *)
Definition sound_exact (w : string) (acc : gmap ascii nat * gmap ascii nat) : Prop :=
  (∀ c m, acc.1 !! c = Some m → m ≤ multiplicity c (Counter w))
  ∧ (∀ c m, acc.2 !! c = Some m → multiplicity c (Counter w) = m).

(** [acc] bounds every letter at least as tightly as [acc']. *)
Definition tighter (acc' acc : gmap ascii nat * gmap ascii nat) : Prop :=
  (∀ c m', acc'.1 !! c = Some m' → ∃ m, acc.1 !! c = Some m ∧ m' ≤ m)
  ∧ (∀ c m', acc'.2 !! c = Some m' → ∃ m, acc.2 !! c = Some m ∧ m ≤ m').

(** No entry of [max_letter_counts] exceeds the default. *)
Definition capped (acc : gmap ascii nat * gmap ascii nat) : Prop :=
  ∀ c m, acc.2 !! c = Some m → m ≤ 5.

(** The positional tables built from a list of words, in the order the
    loop visits them. *)
Definition tables (l : list string) : list (gmultiset ascii) :=
  foldr (λ word pf, V3.count_word pf word) (replicate 5 ∅) l.

(** An iteration order visits every element of the set once. *)
Definition iteration_order (iter : gset string → list string) : Prop :=
  ∀ X, iter X ≡ₚ elements X.

(** [any(word == hist[0] for hist in self.feedback_history)]. *)
Definition spent (history : list (string * string)) (word : string) : bool :=
  bool_decide (Exists (λ hist, word = hist.1) history).

Section ranking_defs.
Context (sc : string → Q) (poss spent : string → bool).

(** The loop body of [V3.suggest_guess], over the score and the two
    tests it makes of a word. *)
Definition pick (acc : string * float) (word : string) : string * float :=
  let '(best_word, best_score) := acc in
  if spent word then acc
  else
    if float_gtb (fin (sc word)) best_score then (word, fin (sc word))
    else if float_eqb (fin (sc word)) best_score then
      if poss word && negb (poss best_word) then (word, best_score)
      else if Bool.eqb (poss word) (poss best_word) && String.ltb word best_word
           then (word, best_score)
           else acc
    else acc.

(** [b] ranks before [v]: a higher score, or the same score and a live
    candidate against none, or the same on both counts and the smaller
    word. *)
Definition before (b v : string) : Prop :=
  (sc v < sc b)%Q
  ∨ (sc v == sc b)%Q
    ∧ (poss b = true ∧ poss v = false
       ∨ poss b = poss v ∧ String.ltb b v = true).

(** What the loop holds after a run: nothing while every word was spent,
    otherwise a word that ranks before every other unspent one. *)
Definition leads (l : list string) (acc : string * float) : Prop :=
  (acc = ("", neg_inf) ∧ ∀ v, v ∈ l → spent v = true)
  ∨ (∃ q, acc.2 = fin q ∧ (q == sc acc.1)%Q)
    ∧ acc.1 ∈ l ∧ spent acc.1 = false
    ∧ ∀ v, v ∈ l → spent v = false → v ≠ acc.1 → before acc.1 v.

End ranking_defs.

(** The item the loop of [Experimental.suggest_guess] pushes on its heap
    for a word, and one round of the loop over the score. *)
Definition heap_item (score : string → float) (current_possible : gset string)
    (word : string) : float * bool * string :=
  (Experimental.float_neg (score word), negb (bool_decide (word ∈ current_possible)), word).

Definition heap_step (score : string → float) (current_possible : gset string)
    (num_suggestions : nat) (heap : list (float * bool * string)) (word : string)
    : list (float * bool * string) :=
  if float_eqb (score word) neg_inf then heap
  else if decide (length heap < num_suggestions)
       then Experimental.heappush heap (heap_item score current_possible word)
       else Experimental.heappushpop heap (heap_item score current_possible word).

(** The rational a finite score holds. *)
Definition score_value (x : float) : Q :=
  match x with fin q => q | neg_inf => 0%Q end.

(** The score [Experimental.suggest_guess] gives a word, and the words
    it ranks: the words of its pool that are no guess of the history and
    whose score is not [-inf]. *)
Definition Experimental_score (pow : Q → nat → Q) (s : V3.WordleSolver)
    (elimination_mode : bool) (word : string) : float :=
  let s1 := (Experimental.filter_words s).1 in
  let current_possible := (Experimental.filter_words s).2 in
  Experimental.score_word pow s1 word
    (V3.calculate_positional_frequencies current_possible)
    (V3.calculate_letter_frequencies current_possible)
    current_possible elimination_mode.

Definition rankable (pow : Q → nat → Q) (s : V3.WordleSolver) (elimination_mode : bool)
    : gset string :=
  let s1 := (Experimental.filter_words s).1 in
  let current_possible := (Experimental.filter_words s).2 in
  filter (λ word, float_eqb (Experimental_score pow s elimination_mode word) neg_inf = false)
    ((if elimination_mode then V3.all_words s1 else current_possible)
       ∖ list_to_set (V3.feedback_history s1).*1).

(** A word is admissible when none of its letters is excluded and none
    sits on a position known to hold another letter. *)
Definition admissible (s : V3.WordleSolver) (w : string) : Prop :=
  ∀ i c, word_at w i = Some c →
    (c ∉ V3.active_exclusions s)
    ∧ ∀ k, V3._known_letters s !! i = Some (Some k) → k = c.

(** Two states of the loop of the terminal filter: [b] holds every
    known and every misplaced letter that [a] holds, and every word
    that [a] keeps. *)
Definition behind (a b : Terminal.WordleSolver * gset string) : Prop :=
  a.2 ⊆ b.2
  ∧ length (Terminal.known_letters a.1) = length (Terminal.known_letters b.1)
  ∧ (∀ i c, Terminal.known_letters a.1 !! i = Some (Some c) →
            Terminal.known_letters b.1 !! i = Some (Some c))
  ∧ length (Terminal.misplaced_letters a.1) = length (Terminal.misplaced_letters b.1)
  ∧ (∀ i m, Terminal.misplaced_letters a.1 !! i = Some m →
            ∃ m', Terminal.misplaced_letters b.1 !! i = Some m' ∧ m ⊆ m').

(** The calls the page makes on the solver during a game. *)
Inductive call :=
  | FilterWords
  | SuggestGuess (elimination_mode : bool)
  | AppendFeedback (guess feedback : string).

Definition run_call (iter : gset string → list string) (s : V3.WordleSolver) (c : call)
    : V3.WordleSolver :=
  match c with
  | FilterWords => (V3.filter_words s).1
  | SuggestGuess elimination_mode => (V3.suggest_guess iter s elimination_mode).1
  | AppendFeedback guess feedback => V3.append_feedback guess feedback s
  end.

Definition run (iter : gset string → list string) (s : V3.WordleSolver) (calls : list call)
    : V3.WordleSolver :=
  foldl (run_call iter) s calls.

(** * Properties *)

Import V3.

#[local] Set Warnings "-clear-no-such-hyp".

(** ** Folding over an enumeration *)

Section folds.
Context {A B : Type}.

Lemma enumerate_snoc (l : list A) (x : A) :
  enumerate (l ++ [x]) = enumerate l ++ [(length l, x)].
Proof.
  unfold enumerate. rewrite imap_app. simpl. by rewrite Nat.add_0_r.
Qed.

Lemma foldl_enumerate_ind (f : B → nat * A → B) (P : list A → B → Prop) (b : B) (l : list A) :
  P [] b →
  (∀ l' x acc, P l' acc → P (l' ++ [x]) (f acc (length l', x))) →
  P l (foldl f b (enumerate l)).
Proof.
  intros Hnil Hstep. induction l as [|x l IH] using rev_ind; [done|].
  rewrite enumerate_snoc, foldl_app. simpl. by apply Hstep.
Qed.

Lemma foldl_ind (f : B → A → B) (P : list A → B → Prop) (b : B) (l : list A) :
  P [] b →
  (∀ l' x acc, P l' acc → P (l' ++ [x]) (f acc x)) →
  P l (foldl f b l).
Proof.
  intros Hnil Hstep. induction l as [|x l IH] using rev_ind; [done|].
  rewrite foldl_app. simpl. by apply Hstep.
Qed.

Lemma elem_of_enumerate (l : list A) i x : (i, x) ∈ enumerate l ↔ l !! i = Some x.
Proof.
  unfold enumerate. rewrite elem_of_lookup_imap. split.
  - intros (j & y & [= -> ->] & ?); done.
  - intros ?. by exists i, x.
Qed.

End folds.

Lemma lookup_snoc_Some {A} (l : list A) (x y : A) i :
  (l ++ [x]) !! i = Some y ↔ l !! i = Some y ∨ (i = length l ∧ x = y).
Proof.
  rewrite lookup_app_Some. split.
  - intros [?|[Hi Hl]]; [by left|right].
    destruct (i - length l) as [|n] eqn:E; simpl in Hl; [|by destruct n].
    split; [lia|congruence].
  - intros [?|[-> ->]]; [by left|right]. split; [lia|].
    by rewrite Nat.sub_diag.
Qed.

(** ** The filtering loops keep the words that pass every test *)

Lemma elem_of_foldr_filter {A} (P : A → string → Prop) `{!∀ a w, Decision (P a w)}
    (l : list A) (F : gset string) (w : string) :
  w ∈ foldr (λ a F, filter (P a) F) F l ↔ w ∈ F ∧ ∀ a, a ∈ l → P a w.
Proof.
  induction l as [|a l IH]; simpl.
  - split; [intros ?; split; [done|]; intros a Ha; by apply elem_of_nil in Ha | by intros [? _]].
  - rewrite elem_of_filter, IH. split.
    + intros (Ha & Hw & Hl). split; [done|]. intros b [->|Hb]%elem_of_cons; auto.
    + intros (Hw & Hl). split; [apply Hl; left|split; [done|]; intros b Hb; apply Hl; by right].
Qed.

Lemma elem_of_set_fold_filter `{Countable A} (P : A → string → Prop)
    `{!∀ a w, Decision (P a w)} (X : gset A) (F : gset string) (w : string) :
  w ∈ set_fold (λ a F, filter (P a) F) F X ↔ w ∈ F ∧ ∀ a, a ∈ X → P a w.
Proof.
  unfold set_fold. simpl. rewrite elem_of_foldr_filter.
  by setoid_rewrite elem_of_elements.
Qed.

Lemma elem_of_apply_known known F w :
  w ∈ V3.apply_known known F ↔
  w ∈ F ∧ ∀ i c, known !! i = Some (Some c) → word_at w i = Some c.
Proof.
  unfold V3.apply_known.
  apply (foldl_enumerate_ind _
    (λ l R, w ∈ R ↔ w ∈ F ∧ ∀ i c, l !! i = Some (Some c) → word_at w i = Some c)).
  - split; [intros ?; split; [done|]; intros i c; by rewrite lookup_nil | by intros [? _]].
  - intros l x R IH. destruct x as [c|].
    + rewrite elem_of_filter, IH. split.
      * intros (Hc & Hw & Hl). split; [done|]. intros i c' [?|[-> [= ->]]]%lookup_snoc_Some; auto.
      * intros (Hw & Hl). split; [apply Hl, lookup_snoc_Some; by right|].
        split; [done|]. intros i c' ?. apply Hl, lookup_snoc_Some. by left.
    + rewrite IH. split.
      * intros (Hw & Hl). split; [done|]. intros i c' [?|[-> [=]]]%lookup_snoc_Some; auto.
      * intros (Hw & Hl). split; [done|]. intros i c' ?. apply Hl, lookup_snoc_Some. by left.
Qed.

Lemma elem_of_apply_present present F w :
  w ∈ V3.apply_present present F ↔ w ∈ F ∧ ∀ c, c ∈ present → c ∈ letters w.
Proof. unfold V3.apply_present. apply (elem_of_set_fold_filter (λ c w, c ∈ letters w)). Qed.

Lemma elem_of_apply_misplaced misplaced F w :
  w ∈ V3.apply_misplaced misplaced F ↔
  w ∈ F ∧ ∀ i m c, misplaced !! i = Some m → c ∈ m → word_at w i ≠ Some c.
Proof.
  unfold V3.apply_misplaced.
  apply (foldl_enumerate_ind _
    (λ l R, w ∈ R ↔ w ∈ F ∧ ∀ i m c, l !! i = Some m → c ∈ m → word_at w i ≠ Some c)).
  - split; [intros ?; split; [done|]; intros i m c; by rewrite lookup_nil | by intros [? _]].
  - intros l x R IH.
    rewrite (elem_of_set_fold_filter (λ c w, word_at w (length l) ≠ Some c)), IH. split.
    + intros ((Hw & Hl) & Hx). split; [done|].
      intros i m c [?|[-> ->]]%lookup_snoc_Some; eauto.
    + intros (Hw & Hl). split; [split; [done|]|].
      * intros i m c ?. apply Hl, lookup_snoc_Some. by left.
      * intros c. apply Hl, lookup_snoc_Some. by right.
Qed.

Lemma elem_of_apply_exclusions active F w :
  w ∈ V3.apply_exclusions active F ↔ w ∈ F ∧ ∀ c, c ∈ active → c ∉ letters w.
Proof. unfold V3.apply_exclusions. apply (elem_of_set_fold_filter (λ c w, c ∉ letters w)). Qed.

(** ** The state rebuilt from the history *)



Lemma lookup_zip_letters g fb i c st :
  zip (letters g) (letters fb) !! i = Some (c, st) ↔
  word_at g i = Some c ∧ word_at fb i = Some st.
Proof.
  unfold word_at. rewrite lookup_zip_with_Some. split.
  - intros (x & y & [= -> ->] & ? & ?); done.
  - intros [? ?]. by exists c, st.
Qed.

Lemma marked_app H1 H2 i c st :
  marked (H1 ++ H2) i c st ↔ marked H1 i c st ∨ marked H2 i c st.
Proof.
  unfold marked. split.
  - intros (g & fb & [?|?]%elem_of_app & ?); [left|right]; by exists g, fb.
  - intros [(g & fb & ? & ?)|(g & fb & ? & ?)]; exists g, fb; (split; [|done]);
      apply elem_of_app; auto.
Qed.

Lemma marked_singleton g fb i c st :
  marked [(g, fb)] i c st ↔ zip (letters g) (letters fb) !! i = Some (c, st).
Proof.
  rewrite lookup_zip_letters. unfold marked. split.
  - by intros (g' & fb' & [= -> ->]%list_elem_of_singleton & ?).
  - intros ?. exists g, fb. split; [by apply list_elem_of_singleton|done].
Qed.

Lemma marked_nil i c st : ¬ marked [] i c st.
Proof. intros (g & fb & ?%elem_of_nil & _). done. Qed.

(** *** The pass over the greens *)

Lemma green_pass_spec s cnt (z : list (ascii * ascii)) :
  let s' := (foldl green_step (s, cnt) (enumerate z)).1 in
  frame s' = frame s
  ∧ _misplaced_letters s' = _misplaced_letters s
  ∧ _excluded_letters s' = _excluded_letters s
  ∧ length (_known_letters s') = length (_known_letters s)
  ∧ (∀ c, c ∈ _present_letters s' ↔
          c ∈ _present_letters s ∨ ∃ i, z !! i = Some (c, "G"%char))
  ∧ (∀ i k, _known_letters s' !! i = Some (Some k) →
          _known_letters s !! i = Some (Some k) ∨ z !! i = Some (k, "G"%char))
  ∧ (∀ i k, _known_letters s !! i = Some (Some k) →
          ∃ k', _known_letters s' !! i = Some (Some k'))
  ∧ (∀ i c, z !! i = Some (c, "G"%char) → i < length (_known_letters s) →
          ∃ k', _known_letters s' !! i = Some (Some k')).
Proof.
  simpl.
  apply (foldl_enumerate_ind green_step (λ l acc,
    frame acc.1 = frame s
    ∧ _misplaced_letters acc.1 = _misplaced_letters s
    ∧ _excluded_letters acc.1 = _excluded_letters s
    ∧ length (_known_letters acc.1) = length (_known_letters s)
    ∧ (∀ c, c ∈ _present_letters acc.1 ↔
          c ∈ _present_letters s ∨ ∃ i, l !! i = Some (c, "G"%char))
    ∧ (∀ i k, _known_letters acc.1 !! i = Some (Some k) →
          _known_letters s !! i = Some (Some k) ∨ l !! i = Some (k, "G"%char))
    ∧ (∀ i k, _known_letters s !! i = Some (Some k) →
          ∃ k', _known_letters acc.1 !! i = Some (Some k'))
    ∧ (∀ i c, l !! i = Some (c, "G"%char) → i < length (_known_letters s) →
          ∃ k', _known_letters acc.1 !! i = Some (Some k')))).
  - simpl. split_and!; intros; rewrite ?lookup_nil in *; naive_solver.
  - intros l [c st] [s1 cnt1] (Hf & Hm & He & Hlen & Hp & Hks & Hkk & Hkc). simpl in *.
    unfold green_step. destruct (decide (st = "G"%char)) as [->|Hst]; simpl.
    + split_and!; try done.
      * by rewrite length_insert.
      * intros c'. rewrite elem_of_union, elem_of_singleton, Hp.
        setoid_rewrite lookup_snoc_Some. naive_solver.
      * intros i k. rewrite list_lookup_insert_Some, lookup_snoc_Some.
        intros [(<- & [= ->] & _)|[_ ?]]; naive_solver.
      * intros i k Hi. destruct (decide (length l = i)) as [<-|Hne].
        -- exists c. apply list_lookup_insert_eq. rewrite Hlen.
           by apply lookup_lt_Some in Hi.
        -- rewrite list_lookup_insert_ne by done. eauto.
      * intros i c' Hi Hlt. destruct (decide (length l = i)) as [<-|Hne].
        -- exists c. apply list_lookup_insert_eq. by rewrite Hlen.
        -- rewrite list_lookup_insert_ne by done.
           apply lookup_snoc_Some in Hi as [Hi|[-> _]]; [eauto|done].
    + split_and!; try done.
      * intros c'. rewrite Hp. setoid_rewrite lookup_snoc_Some. naive_solver.
      * intros i k. rewrite lookup_snoc_Some. naive_solver.
      * intros i c'. rewrite lookup_snoc_Some. naive_solver.
Qed.

Lemma elem_of_green_marks H i c : (i, c) ∈ H ≫= green_marks ↔ marked H i c "G".
Proof.
  rewrite list_elem_of_bind. unfold marked, green_marks, enum_zip. split.
  - intros ([g fb] & Hic & Hin). exists g, fb. split; [done|].
    apply list_elem_of_omap in Hic as ([j [x st]] & Hj & Hst). simpl in *.
    destruct (decide (st = "G"%char)) as [->|]; [|done]. injection Hst as -> ->.
    by apply elem_of_enumerate, lookup_zip_letters in Hj.
  - intros (g & fb & Hin & Hg & Hfb). exists (g, fb). split; [|done].
    apply list_elem_of_omap. exists (i, (c, "G"%char)). split; [|done].
    by apply elem_of_enumerate, lookup_zip_letters.
Qed.

Lemma green_consistent_marked H i c c' :
  green_consistent H → marked H i c "G" → marked H i c' "G" → c = c'.
Proof.
  unfold green_consistent. simpl. rewrite Forall_forall.
  intros Hgc Hc%elem_of_green_marks Hc'%elem_of_green_marks.
  specialize (Hgc _ Hc). rewrite Forall_forall in Hgc. by apply (Hgc _ Hc').
Qed.

(** *** The pass over the yellows and grays *)

Lemma yellow_gray_pass_spec gc s cnt (z : list (ascii * ascii)) :
  let s' := (foldl (yellow_gray_step gc) (s, cnt) (enumerate z)).1 in
  frame s' = frame s
  ∧ _known_letters s' = _known_letters s
  ∧ length (_misplaced_letters s') = length (_misplaced_letters s)
  ∧ (∀ c, c ∈ _present_letters s' ↔
          c ∈ _present_letters s ∨ ∃ i, z !! i = Some (c, "Y"%char))
  ∧ (∀ i m', _misplaced_letters s' !! i = Some m' →
       ∃ m, _misplaced_letters s !! i = Some m
            ∧ ∀ c, c ∈ m' ↔ c ∈ m ∨ z !! i = Some (c, "Y"%char))
  ∧ _excluded_letters s ⊆ _excluded_letters s'
  ∧ (∀ c, c ∈ _excluded_letters s' →
          c ∈ _excluded_letters s ∨ ∃ i, z !! i = Some (c, "X"%char)).
Proof.
  simpl.
  apply (foldl_enumerate_ind (yellow_gray_step gc) (λ l acc,
    frame acc.1 = frame s
    ∧ _known_letters acc.1 = _known_letters s
    ∧ length (_misplaced_letters acc.1) = length (_misplaced_letters s)
    ∧ (∀ c, c ∈ _present_letters acc.1 ↔
            c ∈ _present_letters s ∨ ∃ i, l !! i = Some (c, "Y"%char))
    ∧ (∀ i m', _misplaced_letters acc.1 !! i = Some m' →
         ∃ m, _misplaced_letters s !! i = Some m
              ∧ ∀ c, c ∈ m' ↔ c ∈ m ∨ l !! i = Some (c, "Y"%char))
    ∧ _excluded_letters s ⊆ _excluded_letters acc.1
    ∧ (∀ c, c ∈ _excluded_letters acc.1 →
            c ∈ _excluded_letters s ∨ ∃ i, l !! i = Some (c, "X"%char)))).
  - simpl. split_and!; intros; rewrite ?lookup_nil in *; naive_solver.
  - intros l [c st] [s1 cnt1] (Hf & Hk & Hlen & Hp & Hm & Hes & He). simpl in *.
    assert (Hkeep :
      frame s1 = frame s
      ∧ _known_letters s1 = _known_letters s
      ∧ length (_misplaced_letters s1) = length (_misplaced_letters s)
      ∧ (∀ c0, c0 ∈ _present_letters s1 ↔
            c0 ∈ _present_letters s ∨ ∃ i, (l ++ [(c, st)]) !! i = Some (c0, "Y"%char))
      ∧ (∀ i m', _misplaced_letters s1 !! i = Some m' →
           ∃ m, _misplaced_letters s !! i = Some m
                ∧ ∀ c0, c0 ∈ m' ↔ c0 ∈ m ∨ (l ++ [(c, st)]) !! i = Some (c0, "Y"%char))
      ∧ _excluded_letters s ⊆ _excluded_letters s1
      ∧ (∀ c0, c0 ∈ _excluded_letters s1 →
            c0 ∈ _excluded_letters s ∨ ∃ i, (l ++ [(c, st)]) !! i = Some (c0, "X"%char))
      ∨ st = "Y"%char).
    { destruct (decide (st = "Y"%char)) as [->|Hst]; [by right|left].
      split_and!; try done.
      - intros c0. rewrite Hp. setoid_rewrite lookup_snoc_Some. naive_solver.
      - intros i m' (m & ? & Hmm)%Hm. exists m. split; [done|].
        intros c0. rewrite Hmm, lookup_snoc_Some. naive_solver.
      - intros c0 [?|[i ?]]%He; [by left|right; exists i].
        apply lookup_snoc_Some. by left. }
    unfold yellow_gray_step. destruct (decide (st = "Y"%char)) as [->|Hst]; simpl.
    + split_and!; try done.
      * by rewrite length_alter.
      * intros c0. rewrite elem_of_union, elem_of_singleton, Hp.
        setoid_rewrite lookup_snoc_Some. naive_solver.
      * intros i m'. rewrite list_lookup_alter.
        destruct (decide (length l = i)) as [<-|Hne].
        -- destruct (_misplaced_letters s1 !! length l) as [m1|] eqn:E; [|done].
           simpl. intros [= <-]. destruct (Hm _ _ E) as (m & ? & Hmm).
           exists m. split; [done|]. intros c0.
           rewrite elem_of_union, elem_of_singleton, Hmm, lookup_snoc_Some. naive_solver.
        -- intros (m & ? & Hmm)%Hm. exists m. split; [done|].
           intros c0. rewrite Hmm, lookup_snoc_Some. naive_solver.
      * intros c0 [?|[i ?]]%He; [by left|right; exists i].
        apply lookup_snoc_Some. by left.
    + destruct Hkeep as [Hkeep|?]; [|done].
      destruct (decide (st = "X"%char)) as [->|?]; [|done].
      destruct (decide _); [|done]. destruct (decide _); [|done]. simpl.
      destruct Hkeep as (? & ? & ? & ? & ? & ? & ?).
      split_and!; try done.
      * set_solver.
      * intros c0. rewrite elem_of_union, elem_of_singleton.
        intros [->|?]; [right; exists (length l)|by auto].
        apply lookup_snoc_Some. by right.
Qed.

(** *** One history entry *)

Lemma update_guess_spec s g fb :
  let s' := update_guess s (g, fb) in
  frame s' = frame s
  ∧ length (_known_letters s') = length (_known_letters s)
  ∧ length (_misplaced_letters s') = length (_misplaced_letters s)
  ∧ (∀ c, c ∈ _present_letters s' ↔
          c ∈ _present_letters s
          ∨ ∃ i, marked [(g, fb)] i c "G" ∨ marked [(g, fb)] i c "Y")
  ∧ (∀ i k, _known_letters s' !! i = Some (Some k) →
          _known_letters s !! i = Some (Some k) ∨ marked [(g, fb)] i k "G")
  ∧ (∀ i k, _known_letters s !! i = Some (Some k) →
          ∃ k', _known_letters s' !! i = Some (Some k'))
  ∧ (∀ i c, marked [(g, fb)] i c "G" → i < length (_known_letters s) →
          ∃ k', _known_letters s' !! i = Some (Some k'))
  ∧ (∀ i m', _misplaced_letters s' !! i = Some m' →
       ∃ m, _misplaced_letters s !! i = Some m
            ∧ ∀ c, c ∈ m' ↔ c ∈ m ∨ marked [(g, fb)] i c "Y")
  ∧ _excluded_letters s ⊆ _excluded_letters s'
  ∧ (∀ c, c ∈ _excluded_letters s' →
          c ∈ _excluded_letters s ∨ ∃ i, marked [(g, fb)] i c "X").
Proof.
  simpl. unfold update_guess, enum_zip.
  set (z := zip (letters g) (letters fb)).
  destruct (foldl green_step (s, ∅) (enumerate z)) as [s1 cnt1] eqn:E1.
  pose proof (green_pass_spec s ∅ z) as HG. simpl in HG. rewrite E1 in HG. simpl in HG.
  destruct HG as (Hf1 & Hm1 & He1 & Hl1 & Hp1 & Hks1 & Hkk1 & Hkc1).
  pose proof (yellow_gray_pass_spec (Counter g) s1 cnt1 z) as HY. simpl in HY.
  destruct HY as (Hf2 & Hk2 & Hl2 & Hp2 & Hm2 & Hes2 & He2).
  setoid_rewrite marked_singleton. fold z.
  rewrite Hf2, Hk2, Hl2, Hf1, Hl1, Hm1. rewrite <- He1.
  split_and!; try done.
  - intros c. rewrite Hp2, Hp1. naive_solver.
  - intros i m'. rewrite <- Hm1. apply Hm2.
Qed.

(** *** The whole history *)

Lemma derived_state_spec s H :
  let u := foldl update_guess (reset_solver_state s) H in
  frame u = frame s
  ∧ length (_known_letters u) = 5
  ∧ length (_misplaced_letters u) = 5
  ∧ (∀ c, c ∈ _present_letters u ↔ ∃ i, marked H i c "G" ∨ marked H i c "Y")
  ∧ (∀ i k, _known_letters u !! i = Some (Some k) → marked H i k "G")
  ∧ (∀ i c, marked H i c "G" → i < 5 → ∃ k', _known_letters u !! i = Some (Some k'))
  ∧ (∀ i m, _misplaced_letters u !! i = Some m → ∀ c, c ∈ m ↔ marked H i c "Y")
  ∧ (∀ c, c ∈ _excluded_letters u → ∃ i, marked H i c "X").
Proof.
  simpl.
  apply (foldl_ind update_guess (λ H u,
    frame u = frame s
    ∧ length (_known_letters u) = 5
    ∧ length (_misplaced_letters u) = 5
    ∧ (∀ c, c ∈ _present_letters u ↔ ∃ i, marked H i c "G" ∨ marked H i c "Y")
    ∧ (∀ i k, _known_letters u !! i = Some (Some k) → marked H i k "G")
    ∧ (∀ i c, marked H i c "G" → i < 5 → ∃ k', _known_letters u !! i = Some (Some k'))
    ∧ (∀ i m, _misplaced_letters u !! i = Some m → ∀ c, c ∈ m ↔ marked H i c "Y")
    ∧ (∀ c, c ∈ _excluded_letters u → ∃ i, marked H i c "X"))).
  - simpl. split_and!; try done.
    + intros c. split; [set_solver|]. intros [i [[]%marked_nil|[]%marked_nil]].
    + intros i k Hi. do 6 (try destruct i as [|i]); simplify_eq/=.
    + intros i c []%marked_nil.
    + intros i m Hi c. do 6 (try destruct i as [|i]); simplify_eq/=;
        (split; [set_solver|]; intros []%marked_nil).
  - intros H' [g fb] u (Hf & Hlk & Hlm & Hp & Hks & Hkc & Hm & He).
    destruct (update_guess_spec u g fb)
      as (Hf' & Hlk' & Hlm' & Hp' & Hks' & Hkk' & Hkc' & Hm' & Hes' & He').
    simpl in *. setoid_rewrite marked_app.
    split_and!; try congruence.
    + intros c. rewrite Hp', Hp. naive_solver.
    + intros i k [?|?]%Hks'; [left; by apply Hks|by right].
    + intros i c [?|?] Hi.
      * destruct (Hkc i c) as [k' ?]; [done..|]. by eapply Hkk'.
      * eapply Hkc'; [done|]. by rewrite Hlk.
    + intros i m' (m & Hmi & Hmm)%Hm' c. rewrite Hmm, (Hm i m Hmi). done.
    + intros c [?|?]%He'; [|naive_solver]. destruct (He c) as [i ?]; [done|]. eauto.
Qed.

Lemma update_excluded_mono s H :
  _excluded_letters s ⊆ _excluded_letters (foldl update_guess s H).
Proof.
  revert s. induction H as [|[g fb] H IH]; intros s; simpl; [done|].
  etrans; [|apply IH]. apply (update_guess_spec s g fb).
Qed.

Lemma update_frame s :
  frame (_update_internal_state_from_history s) = frame s.
Proof. apply derived_state_spec. Qed.

Lemma update_possible_answers s :
  possible_answers (_update_internal_state_from_history s) = possible_answers s.
Proof. pose proof (update_frame s) as Hf. unfold frame in Hf. congruence. Qed.

Lemma update_feedback_history s :
  feedback_history (_update_internal_state_from_history s) = feedback_history s.
Proof. pose proof (update_frame s) as Hf. unfold frame in Hf. congruence. Qed.

Lemma update_all_words s :
  all_words (_update_internal_state_from_history s) = all_words s.
Proof. pose proof (update_frame s) as Hf. unfold frame in Hf. congruence. Qed.

(** Membership in the result of [filter_words], stage by stage. *)
Lemma elem_of_filter_words s w :
  let u := _update_internal_state_from_history s in
  w ∈ (filter_words s).2 ↔
    w ∈ possible_answers s
    ∧ (∀ i c, _known_letters u !! i = Some (Some c) → word_at w i = Some c)
    ∧ (∀ c, c ∈ _present_letters u → c ∈ letters w)
    ∧ (∀ i m c, _misplaced_letters u !! i = Some m → c ∈ m → word_at w i ≠ Some c)
    ∧ (∀ c, c ∈ active_exclusions u → c ∉ letters w)
    ∧ valid (letter_counts u).1 (letter_counts u).2 w.
Proof.
  simpl. unfold filter_words.
  destruct (letter_counts _) as [mn mx] eqn:E. simpl.
  rewrite elem_of_filter, elem_of_apply_exclusions, elem_of_apply_misplaced,
    elem_of_apply_present, elem_of_apply_known, update_possible_answers.
  naive_solver.
Qed.

Lemma filter_words_possible_answers s :
  possible_answers (filter_words s).1 = (filter_words s).2.
Proof. unfold filter_words. by destruct (letter_counts _). Qed.

Lemma filter_words_frame s :
  all_words (filter_words s).1 = all_words s
  ∧ feedback_history (filter_words s).1 = feedback_history s.
Proof.
  unfold filter_words. destruct (letter_counts _). simpl.
  by rewrite update_all_words, update_feedback_history.
Qed.

Lemma filter_words_subseteq s : (filter_words s).2 ⊆ possible_answers s.
Proof. intros w Hw. by apply elem_of_filter_words in Hw as [? _]. Qed.

(** ** The standard comparison and the feedback it gives *)

Lemma length_letters w : length (letters w) = String.length w.
Proof. unfold letters. induction w; simpl; congruence. Qed.

Lemma letters_of_list l : letters (string_of_list_ascii l) = l.
Proof. apply list_ascii_of_string_of_list_ascii. Qed.

Lemma multiplicity_Counter c w : multiplicity c (Counter w) = length (filter (c =.) (letters w)).
Proof.
  unfold Counter. induction (letters w) as [|x l IH]; simpl.
  - by rewrite multiplicity_empty.
  - rewrite multiplicity_disj_union, multiplicity_singleton, IH, filter_cons.
    repeat case_decide; simpl; congruence.
Qed.

Lemma elem_of_Counter c w : c ∈ Counter w ↔ c ∈ letters w.
Proof. unfold Counter. apply elem_of_list_to_set_disj. Qed.

Lemma Counter_le_length c w : multiplicity c (Counter w) ≤ String.length w.
Proof. rewrite multiplicity_Counter, <- length_letters. apply length_filter. Qed.

Lemma non_gray_counts_spec g fb :
  non_gray_counts g fb = list_to_set_disj (non_gray (zip (letters g) (letters fb))).
Proof.
  unfold non_gray_counts, enum_zip.
  apply (foldl_enumerate_ind _ (λ l ng, ng = list_to_set_disj (non_gray l))); [done|].
  intros l [c st] ng ->. unfold non_gray. rewrite filter_app, fmap_app, list_to_set_disj_app.
  rewrite filter_cons, filter_nil. simpl.
  destruct (decide _); simpl; multiset_solver.
Qed.

Lemma non_gray_counts_pos g fb c :
  0 < multiplicity c (non_gray_counts g fb) ↔
  ∃ i, marked [(g, fb)] i c "G" ∨ marked [(g, fb)] i c "Y".
Proof.
  rewrite non_gray_counts_spec, <- elem_of_multiplicity, elem_of_list_to_set_disj.
  unfold non_gray. rewrite list_elem_of_fmap. setoid_rewrite marked_singleton. split.
  - intros ([c' st] & -> & [Hst Hin]%list_elem_of_filter). simpl in *.
    apply list_elem_of_lookup in Hin as [i Hi]. exists i. naive_solver.
  - intros [i [Hi|Hi]]; eexists; (split; [|apply list_elem_of_filter; split;
      [|by eapply list_elem_of_lookup_2]]); simpl; auto.
Qed.

(** *** What the standard comparison answers *)

Lemma mark_lookup rem answer guess i st :
  Wordle.mark rem answer guess !! i = Some st →
  ∃ a x, answer !! i = Some a ∧ guess !! i = Some x
         ∧ (st = "G"%char ∧ a = x ∨ (st = "Y"%char ∨ st = "X"%char) ∧ a ≠ x).
Proof.
  revert rem guess i.
  induction answer as [|a answer IH]; intros rem [|x guess] i; simpl;
    rewrite ?lookup_nil; try done.
  destruct (decide (a = x)) as [->|Hne]; [|destruct (decide (x ∈ rem))];
    (destruct i as [|i]; simpl; [intros [= <-]; do 2 eexists; naive_solver|apply IH]).
Qed.

Lemma mark_non_gray rem answer guess c :
  multiplicity c (list_to_set_disj (non_gray (zip guess (Wordle.mark rem answer guess)))
                  : gmultiset ascii)
  = greens c answer guess + multiplicity c rem `min` strays c answer guess.
Proof.
  unfold non_gray. revert rem guess.
  induction answer as [|a answer IH]; intros rem [|x guess];
    try (simpl; rewrite ?multiplicity_empty; lia).
  cbn [Wordle.mark greens strays].
  destruct (decide (a = x)) as [Hax|Hne]; [|destruct (decide (x ∈ rem)) as [Hin|Hnin]];
    cbn [zip_with]; rewrite filter_cons; cbn [snd].
  - rewrite decide_True by auto. cbn [fmap list_fmap fst list_to_set_disj].
    rewrite multiplicity_disj_union, multiplicity_singleton, IH.
    repeat case_decide; destruct_and?; simplify_eq; first [lia|exfalso; naive_solver].
  - rewrite decide_True by auto. cbn [fmap list_fmap fst list_to_set_disj].
    rewrite multiplicity_disj_union, multiplicity_singleton, IH, multiplicity_difference,
      multiplicity_singleton.
    assert (0 < multiplicity x rem) as Hpos by (by apply elem_of_multiplicity).
    repeat case_decide; destruct_and?; simplify_eq; first [lia|exfalso; naive_solver].
  - rewrite decide_False by (intros [?|?]; done). rewrite IH.
    assert (x = c → multiplicity c rem = 0).
    { intros ->. destruct (decide (0 < multiplicity c rem)) as [Hpos|]; [|lia].
      by apply elem_of_multiplicity in Hpos. }
    repeat case_decide; destruct_and?; simplify_eq;
      first [lia|exfalso; naive_solver|rewrite H by done; lia].
Qed.

Lemma greens_strays c answer guess :
  length answer = length guess →
  multiplicity c (list_to_set_disj guess : gmultiset ascii)
  = greens c answer guess + strays c answer guess
  ∧ multiplicity c (list_to_set_disj answer : gmultiset ascii)
  = greens c answer guess + multiplicity c (Wordle.unmatched answer guess).
Proof.
  revert guess. induction answer as [|a answer IH]; intros [|x guess]; simpl; try done.
  intros [= Hlen]. destruct (IH _ Hlen) as [IH1 IH2].
  rewrite !multiplicity_disj_union, !multiplicity_singleton, IH1, IH2.
  destruct (decide (a = x)) as [->|Hne];
    rewrite ?multiplicity_disj_union, ?multiplicity_singleton;
    repeat case_decide; destruct_and?; simplify_eq; first [lia|exfalso; naive_solver].
Qed.

Section replay.
Context (w g fb : string).
Hypothesis Hlen : String.length w = String.length g.
Hypothesis Hrep : Wordle.reproduces w (g, fb).

Lemma replay_letters :
  letters fb = Wordle.mark (Wordle.unmatched (letters w) (letters g)) (letters w) (letters g).
Proof. unfold Wordle.reproduces, Wordle.compare in Hrep. simpl in Hrep. by rewrite <- Hrep, letters_of_list. Qed.

Lemma replay_non_gray c :
  multiplicity c (non_gray_counts g fb)
  = multiplicity c (Counter w) `min` multiplicity c (Counter g).
Proof.
  rewrite non_gray_counts_spec, replay_letters, mark_non_gray.
  destruct (greens_strays c (letters w) (letters g)) as [Hg Hw];
    [by rewrite !length_letters|].
  unfold Counter. rewrite Hg, Hw. lia.
Qed.

Lemma replay_green i c :
  marked [(g, fb)] i c "G" → word_at w i = Some c.
Proof.
  intros [Hg Hfb]%marked_singleton%lookup_zip_letters.
  unfold word_at in *. rewrite replay_letters in Hfb.
  apply mark_lookup in Hfb as (a & x & ? & ? & [[_ ->]|[[?|?] _]]); congruence.
Qed.

Lemma replay_yellow i c :
  marked [(g, fb)] i c "Y" → word_at w i ≠ Some c.
Proof.
  intros [Hg Hfb]%marked_singleton%lookup_zip_letters.
  unfold word_at in *. rewrite replay_letters in Hfb.
  apply mark_lookup in Hfb as (a & x & ? & ? & [[? _]|[_ ?]]); congruence.
Qed.

End replay.

(** ** The candidate set *)

Lemma marked_elem_of H i c st :
  marked H i c st ↔ ∃ e, e ∈ H ∧ marked [e] i c st.
Proof.
  unfold marked. split.
  - intros (g & fb & ? & ?). exists (g, fb). split; [done|]. exists g, fb.
    split; [by apply list_elem_of_singleton|done].
  - intros (e & ? & g & fb & Heq%list_elem_of_singleton & ?). subst e. by exists g, fb.
Qed.

Lemma elem_of_items g c n :
  (c, n) ∈ items g ↔ c ∈ letters g ∧ n = multiplicity c (Counter g).
Proof.
  unfold items. rewrite list_elem_of_fmap. setoid_rewrite elem_of_remove_dups. naive_solver.
Qed.

(** *** The count bounds never reject a word that reproduces the history *)

Section counts_sound.
Context (w : string) (excluded : gset ascii).
Hypothesis Hw : String.length w = 5.


Lemma count_letter_sound ng acc c n :
  multiplicity c ng ≤ multiplicity c (Counter w) →
  (multiplicity c ng < n → multiplicity c (Counter w) ≤ multiplicity c ng) →
  sound w acc → sound w (count_letter excluded ng acc (c, n)).
Proof.
  intros Hle Hge [Hmin Hmax]. destruct acc as [mn mx]. unfold count_letter, sound in *.
  simpl in *.
  assert (∀ c' m, <[c := default 0 (mn !! c) `max` multiplicity c ng]> mn !! c' = Some m →
                  m ≤ multiplicity c' (Counter w)) as Hmin'.
  { intros c' m [[<- <-]|[_ ?]]%lookup_insert_Some; [|eauto].
    destruct (mn !! c) as [m0|] eqn:E; cbv beta iota delta [from_option id];
      [apply Hmin in E|]; lia. }
  destruct (decide _) as [[Hlt _]|_]; simpl; (split; [done|]); [|done].
  intros c' m [[<- <-]|[_ ?]]%lookup_insert_Some; [|eauto].
  specialize (Hge Hlt). pose proof (Counter_le_length c w) as H5.
  destruct (mx !! c) as [m0|] eqn:E; cbv beta iota delta [from_option id];
    [apply Hmax in E|]; lia.
Qed.

Lemma count_guess_sound acc g fb :
  String.length g = 5 → Wordle.reproduces w (g, fb) →
  sound w acc → sound w (count_guess excluded acc (g, fb)).
Proof.
  intros Hg Hrep. unfold count_guess.
  assert (∀ x, x ∈ items g → ∀ acc, sound w acc →
            sound w (count_letter excluded (non_gray_counts g fb) acc x)) as Hstep.
  { intros [c n] [_ ->]%elem_of_items acc' ?. apply count_letter_sound; [..|done];
      rewrite (replay_non_gray w g fb) by (done || congruence); lia. }
  revert acc. induction (items g) as [|x l IH]; intros acc Hacc; simpl; [done|].
  apply IH.
  - intros y Hy. apply Hstep. by right.
  - apply Hstep; [by left|done].
Qed.

Lemma letter_counts_sound acc H :
  Wordle.wf_history H → Forall (Wordle.reproduces w) H →
  sound w acc → sound w (foldl (count_guess excluded) acc H).
Proof.
  intros Hwf Hrep. revert acc. induction H as [|[g fb] H IH]; intros acc Hacc; simpl; [done|].
  apply Forall_cons in Hwf as [[Hg _] Hwf]. apply Forall_cons in Hrep as [Hrep1 Hrep].
  apply IH; [done..|]. by apply count_guess_sound.
Qed.

Lemma sound_valid acc : sound w acc → valid acc.1 acc.2 w.
Proof.
  intros [Hmin Hmax]. split.
  - intros c m ?%Hmin. lia.
  - intros c m ?%Hmax [_ ?]. lia.
Qed.

Lemma sound_empty : sound w (∅, ∅).
Proof. split; intros c m; simpl; by rewrite lookup_empty. Qed.

End counts_sound.

(** *** Every word that reproduces the history is kept *)

Lemma filter_words_keeps s w :
  Wordle.wf_history (feedback_history s) →
  String.length w = 5 →
  w ∈ possible_answers s →
  Forall (Wordle.reproduces w) (feedback_history s) →
  w ∈ (filter_words s).2.
Proof.
  intros Hwf Hw Hin Hrep. apply elem_of_filter_words. simpl.
  set (H := feedback_history s) in *.
  unfold _update_internal_state_from_history. fold H.
  destruct (derived_state_spec s H)
    as (Hf & Hlk & Hlm & Hp & Hks & Hkc & Hm & He).
  simpl in *. set (u := foldl update_guess (reset_solver_state s) H) in *.
  assert (∀ e, e ∈ H → String.length w = String.length e.1 ∧ Wordle.reproduces w e) as Hent.
  { intros e He'. unfold Wordle.wf_history in Hwf. rewrite Forall_forall in Hwf, Hrep.
    destruct (Hwf e He') as [-> _]. split; [done|]. by apply Hrep. }
  assert (∀ c, c ∈ _present_letters u → c ∈ letters w) as Hpres.
  { intros c [i Hi]%Hp.
    assert (∃ e, e ∈ H ∧ 0 < multiplicity c (non_gray_counts e.1 e.2)) as ([g fb] & Hin' & Hpos).
    { destruct Hi as [([g fb] & ? & ?)%marked_elem_of|([g fb] & ? & ?)%marked_elem_of];
        exists (g, fb); (split; [done|]); apply non_gray_counts_pos; eauto. }
    destruct (Hent _ Hin') as [Hlen Hr]. simpl in *.
    rewrite (replay_non_gray w g fb) in Hpos by done.
    apply elem_of_Counter, elem_of_multiplicity. lia. }
  split; [done|]. split_and!.
  - intros i c ([g fb] & Hin' & Hmk)%Hks%marked_elem_of.
    destruct (Hent _ Hin') as [Hlen Hr]. by eapply replay_green.
  - done.
  - intros i m c Hmi Hc. apply (Hm i m Hmi) in Hc.
    apply marked_elem_of in Hc as ([g fb] & Hin' & Hmk).
    destruct (Hent _ Hin') as [Hlen Hr]. by eapply replay_yellow.
  - intros c Hc. unfold active_exclusions in Hc.
    apply elem_of_difference in Hc as [[Hex Hnp]%elem_of_difference _].
    destruct (He c Hex) as [i ([g fb] & Hin' & Hmk)%marked_elem_of].
    destruct (Hent _ Hin') as [Hlen Hr]. simpl in *.
    assert (multiplicity c (non_gray_counts g fb) = 0) as Hz.
    { destruct (decide (0 < multiplicity c (non_gray_counts g fb))) as [Hpos|]; [|lia].
      apply non_gray_counts_pos in Hpos as [j Hj]. exfalso. apply Hnp, Hp.
      exists j. destruct Hj; [left|right]; apply marked_elem_of; eauto. }
    rewrite (replay_non_gray w g fb) in Hz by done.
    assert (0 < multiplicity c (Counter g)) as Hcg.
    { apply elem_of_multiplicity, elem_of_Counter.
      apply marked_singleton, lookup_zip_letters in Hmk as [? _]. by eapply list_elem_of_lookup_2. }
    intros Hcw. assert (0 < multiplicity c (Counter w))
      by (by apply elem_of_multiplicity, elem_of_Counter). lia.
  - apply sound_valid; [done|]. unfold letter_counts.
    assert (feedback_history u = H) as -> by (by injection Hf).
    apply letter_counts_sound; [done..|]. apply sound_empty.
Qed.

(** *** Bounds that grow tighter with the history *)

Global Instance tighter_refl : Reflexive tighter.
Proof. intros acc. split; intros c m ?; exists m; split; [done|lia|done|lia]. Qed.

Global Instance tighter_trans : Transitive tighter.
Proof.
  intros a b c [H1 H2] [H3 H4]. split; intros x m Hx.
  - destruct (H1 _ _ Hx) as (m1 & Hm1 & ?). destruct (H3 _ _ Hm1) as (m2 & ? & ?).
    exists m2. split; [done|lia].
  - destruct (H2 _ _ Hx) as (m1 & Hm1 & ?). destruct (H4 _ _ Hm1) as (m2 & ? & ?).
    exists m2. split; [done|lia].
Qed.

Lemma tighter_valid acc' acc w : tighter acc' acc → valid acc.1 acc.2 w → valid acc'.1 acc'.2 w.
Proof.
  intros [Hmin Hmax] [Hv1 Hv2]. split.
  - intros c m' (m & Hm & ?)%Hmin. apply Hv1 in Hm. simpl in *. lia.
  - intros c m' (m & Hm & ?)%Hmax [? ?]. apply Hv2 in Hm. simpl in *.
    apply Hm. split; [done|lia].
Qed.


Lemma count_letter_capped E ng acc x : capped acc → capped (count_letter E ng acc x).
Proof.
  destruct acc as [mn mx], x as [c n]. unfold count_letter, capped.
  destruct (decide _); simpl; [|done].
  intros Hcap c0 m [[<- <-]|[_ ?]]%lookup_insert_Some; [|eauto].
  destruct (mx !! c) as [m0|] eqn:E0; cbv beta iota delta [from_option id];
    [apply Hcap in E0|]; lia.
Qed.

Lemma count_letters_capped E ng acc l : capped acc → capped (foldl (count_letter E ng) acc l).
Proof.
  revert acc. induction l as [|x l IH]; intros acc ?; simpl; [done|].
  by apply IH, count_letter_capped.
Qed.

Lemma count_guesses_capped E acc H : capped acc → capped (foldl (count_guess E) acc H).
Proof.
  revert acc. induction H as [|[g fb] H IH]; intros acc ?; simpl; [done|].
  by apply IH, count_letters_capped.
Qed.

Lemma count_letter_sim E' E ng acc' acc x :
  E' ⊆ E → capped acc → tighter acc' acc →
  tighter (count_letter E' ng acc' x) (count_letter E ng acc x).
Proof.
  intros HE Hcap [Hmin Hmax]. destruct acc' as [mn' mx'], acc as [mn mx], x as [c n].
  unfold count_letter. simpl in *.
  assert (∀ c0 m', <[c := default 0 (mn' !! c) `max` multiplicity c ng]> mn' !! c0 = Some m' →
            ∃ m, <[c := default 0 (mn !! c) `max` multiplicity c ng]> mn !! c0 = Some m
                 ∧ m' ≤ m) as Hmin'.
  { intros c0 m' [[<- <-]|[Hne Hc0]]%lookup_insert_Some.
    - eexists. rewrite lookup_insert_eq. split; [done|].
      destruct (mn' !! c) as [m0|] eqn:E0; cbv beta iota delta [from_option id]; [|lia].
      destruct (Hmin _ _ E0) as (m1 & -> & ?). lia.
    - rewrite lookup_insert_ne by done. eauto. }
  assert (∀ c0 m', mx' !! c0 = Some m' →
            ∃ m, <[c := default 5 (mx !! c) `min` multiplicity c ng]> mx !! c0 = Some m
                 ∧ m ≤ m') as Hdrop.
  { intros c0 m' (m & Hm & ?)%Hmax. destruct (decide (c = c0)) as [<-|Hne].
    - eexists. rewrite lookup_insert_eq. split; [done|]. rewrite Hm.
      cbv beta iota delta [from_option id]. lia.
    - exists m. by rewrite lookup_insert_ne. }
  destruct (decide (_ ∧ c ∈ E')) as [[Hlt HcE]|Hno]; simpl.
  - rewrite decide_True by (split; [done|by apply HE]). split; [done|]. simpl.
    intros c0 m' [[<- <-]|[Hne Hc0]]%lookup_insert_Some.
    + eexists. rewrite lookup_insert_eq. split; [done|].
      destruct (mx' !! c) as [m0|] eqn:E0; cbv beta iota delta [from_option id].
      * destruct (Hmax _ _ E0) as (m1 & -> & ?). lia.
      * destruct (mx !! c) as [m1|] eqn:E1; [apply Hcap in E1|]; lia.
    + rewrite lookup_insert_ne by done. eauto.
  - destruct (decide (_ ∧ c ∈ E)); split; simpl; auto.
Qed.

Lemma count_letter_tighter E ng acc x : tighter acc (count_letter E ng acc x).
Proof.
  destruct acc as [mn mx], x as [c n]. unfold count_letter.
  assert (∀ c0 m', mn !! c0 = Some m' →
            ∃ m, <[c := default 0 (mn !! c) `max` multiplicity c ng]> mn !! c0 = Some m
                 ∧ m' ≤ m) as Hmin'.
  { intros c0 m' Hc0. destruct (decide (c = c0)) as [<-|Hne].
    - eexists. rewrite lookup_insert_eq. split; [done|]. rewrite Hc0.
      cbv beta iota delta [from_option id]. lia.
    - exists m'. by rewrite lookup_insert_ne. }
  destruct (decide _); split; simpl; try done.
  - intros c0 m' Hc0. destruct (decide (c = c0)) as [<-|Hne].
    + eexists. rewrite lookup_insert_eq. split; [done|]. rewrite Hc0.
      cbv beta iota delta [from_option id]. lia.
    + exists m'. by rewrite lookup_insert_ne.
  - intros c0 m' ?. by exists m'.
Qed.

Lemma count_letters_sim E' E ng acc' acc l :
  E' ⊆ E → capped acc → tighter acc' acc →
  tighter (foldl (count_letter E' ng) acc' l) (foldl (count_letter E ng) acc l).
Proof.
  intros HE. revert acc' acc.
  induction l as [|x l IH]; intros acc' acc Hcap Hacc; simpl; [done|].
  apply IH; [by apply count_letter_capped|by apply count_letter_sim].
Qed.

Lemma count_letters_tighter E ng acc l : tighter acc (foldl (count_letter E ng) acc l).
Proof.
  revert acc. induction l as [|x l IH]; intros acc; simpl; [done|].
  etrans; [apply count_letter_tighter|apply IH].
Qed.

Lemma count_guesses_sim E' E acc' acc H :
  E' ⊆ E → capped acc → tighter acc' acc →
  tighter (foldl (count_guess E') acc' H) (foldl (count_guess E) acc H).
Proof.
  intros HE. revert acc' acc.
  induction H as [|[g fb] H IH]; intros acc' acc Hcap Hacc; simpl; [done|].
  apply IH; [by apply count_letters_capped|by apply count_letters_sim].
Qed.

Lemma count_guesses_tighter E acc H : tighter acc (foldl (count_guess E) acc H).
Proof.
  revert acc. induction H as [|[g fb] H IH]; intros acc; simpl; [done|].
  etrans; [apply count_letters_tighter|apply IH].
Qed.

(** A gray letter of an excluded letter caps its count. *)
Lemma max_count_capped E acc H g fb c :
  c ∈ E → (g, fb) ∈ H → c ∈ letters g →
  multiplicity c (non_gray_counts g fb) < multiplicity c (Counter g) →
  ∃ m, (foldl (count_guess E) acc H).2 !! c = Some m
       ∧ m ≤ multiplicity c (non_gray_counts g fb).
Proof.
  intros HcE Hin Hcg Hlt.
  apply list_elem_of_split in Hin as (H1 & H2 & ->).
  rewrite foldl_app. simpl. set (acc1 := foldl (count_guess E) acc H1).
  assert ((c, multiplicity c (Counter g)) ∈ items g) as Hit by (by apply elem_of_items).
  apply list_elem_of_split in Hit as (l1 & l2 & Hl).
  rewrite Hl, foldl_app. simpl.
  set (ng := non_gray_counts g fb) in *.
  set (acc2 := foldl (count_letter E ng) acc1 l1).
  assert (∃ m, (count_letter E ng acc2 (c, multiplicity c (Counter g))).2 !! c = Some m
               ∧ m ≤ multiplicity c ng) as (m0 & Hm0 & ?).
  { destruct acc2 as [mn mx]. unfold count_letter. rewrite decide_True by done. simpl.
    eexists. rewrite lookup_insert_eq. split; [done|]. lia. }
  destruct (count_letters_tighter E ng (count_letter E ng acc2 (c, multiplicity c (Counter g))) l2)
    as [_ Ht1].
  destruct (Ht1 _ _ Hm0) as (m1 & Hm1 & ?).
  destruct (count_guesses_tighter E
              (foldl (count_letter E ng) (count_letter E ng acc2 (c, multiplicity c (Counter g))) l2) H2)
    as [_ Ht2].
  destruct (Ht2 _ _ Hm1) as (m2 & Hm2 & ?).
  exists m2. split; [done|lia].
Qed.

(** *** The rebuilt fields depend on the history alone *)

Lemma green_step_derived a b cnt x :
  derived a = derived b →
  derived (green_step (a, cnt) x).1 = derived (green_step (b, cnt) x).1
  ∧ (green_step (a, cnt) x).2 = (green_step (b, cnt) x).2.
Proof.
  destruct a, b, x as [i [c st]]. unfold derived, green_step. simpl.
  intros [= -> -> -> ->]. by destruct (decide _).
Qed.

Lemma yellow_gray_step_derived gc a b cnt x :
  derived a = derived b →
  derived (yellow_gray_step gc (a, cnt) x).1 = derived (yellow_gray_step gc (b, cnt) x).1
  ∧ (yellow_gray_step gc (a, cnt) x).2 = (yellow_gray_step gc (b, cnt) x).2.
Proof.
  destruct a, b, x as [i [c st]]. unfold derived, yellow_gray_step. simpl.
  intros [= -> -> -> ->]. by repeat destruct (decide _).
Qed.

Lemma foldl_derived (f : WordleSolver * gmultiset ascii → nat * (ascii * ascii)
                         → WordleSolver * gmultiset ascii) l :
  (∀ a b cnt x, derived a = derived b →
     derived (f (a, cnt) x).1 = derived (f (b, cnt) x).1 ∧ (f (a, cnt) x).2 = (f (b, cnt) x).2) →
  ∀ a b cnt, derived a = derived b →
    derived (foldl f (a, cnt) l).1 = derived (foldl f (b, cnt) l).1
    ∧ (foldl f (a, cnt) l).2 = (foldl f (b, cnt) l).2.
Proof.
  intros Hf. induction l as [|x l IH]; intros a b cnt Hab; simpl; [done|].
  destruct (Hf a b cnt x Hab) as [H1 H2].
  destruct (f (a, cnt) x) as [a' cnta], (f (b, cnt) x) as [b' cntb]. simpl in *. subst.
  by apply IH.
Qed.

Lemma update_guess_derived a b e :
  derived a = derived b → derived (update_guess a e) = derived (update_guess b e).
Proof.
  intros Hab. destruct e as [g fb]. unfold update_guess.
  destruct (foldl_derived green_step (enum_zip g fb) green_step_derived a b ∅ Hab) as [H1 H2].
  destruct (foldl green_step (a, ∅) _) as [a' cnta], (foldl green_step (b, ∅) _) as [b' cntb].
  simpl in *. subst.
  by apply (foldl_derived _ _ (yellow_gray_step_derived (Counter g))).
Qed.

Lemma updates_derived a b H :
  derived a = derived b → derived (foldl update_guess a H) = derived (foldl update_guess b H).
Proof.
  revert a b. induction H as [|e H IH]; intros a b Hab; simpl; [done|].
  by apply IH, update_guess_derived.
Qed.

Lemma computeCandidates_unfold H pool w :
  let u := foldl update_guess (reset_solver_state (init pool pool)) H in
  w ∈ computeCandidates H pool ↔
    w ∈ pool
    ∧ (∀ i c, _known_letters u !! i = Some (Some c) → word_at w i = Some c)
    ∧ (∀ c, c ∈ _present_letters u → c ∈ letters w)
    ∧ (∀ i m c, _misplaced_letters u !! i = Some m → c ∈ m → word_at w i ≠ Some c)
    ∧ (∀ c, c ∈ active_exclusions u → c ∉ letters w)
    ∧ valid (foldl (count_guess (_excluded_letters u)) (∅, ∅) H).1
            (foldl (count_guess (_excluded_letters u)) (∅, ∅) H).2 w.
Proof.
  simpl. unfold computeCandidates. rewrite elem_of_filter_words. simpl.
  set (s := mkSolver pool pool 0 H _ _ _ _).
  unfold letter_counts. rewrite update_feedback_history.
  unfold _update_internal_state_from_history. simpl.
  assert (derived (foldl update_guess (reset_solver_state s) H)
          = derived (foldl update_guess (reset_solver_state (init pool pool)) H)) as Hd
    by (by apply updates_derived).
  unfold derived, active_exclusions in *. injection Hd as -> -> -> ->. done.
Qed.

(** *** A longer history keeps fewer words *)

Lemma computeCandidates_app H' H2 pool :
  green_consistent (H' ++ H2) →
  computeCandidates (H' ++ H2) pool ⊆ computeCandidates H' pool.
Proof.
  intros Hgc w. rewrite !computeCandidates_unfold. simpl.
  set (r := reset_solver_state (init pool pool)).
  set (H := H' ++ H2) in *.
  destruct (derived_state_spec (init pool pool) H) as (_ & Hlk & Hlm & Hp & Hks & Hkc & Hm & He).
  destruct (derived_state_spec (init pool pool) H')
    as (_ & Hlk' & Hlm' & Hp' & Hks' & Hkc' & Hm' & He').
  simpl in *. fold r in Hlk, Hlm, Hp, Hks, Hkc, Hm, He, Hlk', Hlm', Hp', Hks', Hkc', Hm', He'.
  set (u := foldl update_guess r H) in *.
  set (u' := foldl update_guess r H') in *.
  assert (∀ i c st, marked H' i c st → marked H i c st) as Hmk.
  { intros i c st ?. apply marked_app. by left. }
  assert (_excluded_letters u' ⊆ _excluded_letters u) as Hex.
  { unfold u, u', H. rewrite foldl_app. apply update_excluded_mono. }
  assert (∀ c, c ∈ _present_letters u' → c ∈ _present_letters u) as Hpp.
  { intros c [i Hi]%Hp'. apply Hp. exists i. destruct Hi; [left|right]; by apply Hmk. }
  intros (Hpool & Hk & Hpr & Hmis & Hact & Hval).
  split; [done|]. split_and!.
  - intros i c Hi. pose proof (Hks' _ _ Hi) as Hg%Hmk.
    destruct (Hkc i c Hg) as [k' Hk'].
    { apply lookup_lt_Some in Hi. lia. }
    rewrite (green_consistent_marked H i c k' Hgc Hg (Hks _ _ Hk')). by apply Hk.
  - intros c ?. by apply Hpr, Hpp.
  - intros i m' c Hmi Hc. apply (Hm' _ _ Hmi), Hmk in Hc.
    destruct (lookup_lt_is_Some_2 (_misplaced_letters u) i) as [m Hmi2].
    { apply lookup_lt_Some in Hmi. lia. }
    apply (Hmis i m c Hmi2). by apply (Hm _ _ Hmi2).
  - intros c Hc. unfold active_exclusions in Hc.
    apply elem_of_difference in Hc as [[Hcx Hnp]%elem_of_difference Hnk].
    destruct (decide (c ∈ active_exclusions u)) as [?|Hna]; [by apply Hact|].
    destruct (He' c Hcx) as [i ([g fb] & Hin & Hmk1)%marked_elem_of].
    assert (c ∈ letters g) as Hcg.
    { apply marked_singleton, lookup_zip_letters in Hmk1 as [? _].
      by eapply list_elem_of_lookup_2. }
    assert (multiplicity c (non_gray_counts g fb) = 0) as Hz.
    { destruct (decide (0 < multiplicity c (non_gray_counts g fb))) as [Hpos|]; [|lia].
      apply non_gray_counts_pos in Hpos as [j Hj]. exfalso. apply Hnp, Hp'.
      exists j. destruct Hj; [left|right]; apply marked_elem_of; eauto. }
    assert (0 < multiplicity c (Counter g)) as Hpos
      by (by apply elem_of_multiplicity, elem_of_Counter).
    destruct (max_count_capped (_excluded_letters u) (∅, ∅) H g fb c) as (m & Hmx & Hle).
    { by apply Hex. }
    { apply elem_of_app. by left. }
    { done. }
    { lia. }
    destruct Hval as [_ Hv2]. apply Hv2 in Hmx. intros Hcw. apply Hmx.
    split; [by apply elem_of_Counter|].
    assert (0 < multiplicity c (Counter w))
      by (by apply elem_of_multiplicity, elem_of_Counter). lia.
  - eapply tighter_valid; [|exact Hval].
    unfold H. rewrite foldl_app.
    etrans; [|apply count_guesses_tighter].
    apply count_guesses_sim; [done| |done].
    intros c m. simpl. by rewrite lookup_empty.
Qed.

(** ** Letter frequencies *)

Lemma letters_app a b : letters (a +:+ b) = letters a ++ letters b.
Proof.
  unfold letters. induction a as [|x a IH]; [reflexivity|].
  change (String x a +:+ b) with (String x (a +:+ b)).
  cbn [list_ascii_of_string]. by rewrite IH.
Qed.

Lemma letters_join l : letters (join l) = concat (letters <$> l).
Proof.
  unfold join. induction l as [|w l IH]; [done|].
  destruct l as [|w' l].
  - simpl. by rewrite app_nil_r.
  - change (String.concat "" (w :: w' :: l)) with (w +:+ "" +:+ String.concat "" (w' :: l)).
    rewrite !letters_app, IH. done.
Qed.

Lemma size_list_to_set_disj (l : list ascii) :
  size (list_to_set_disj l : gmultiset ascii) = length l.
Proof.
  induction l as [|x l IH]; simpl.
  - done.
  - by rewrite gmultiset_size_disj_union, gmultiset_size_singleton, IH.
Qed.

Lemma letters_five w :
  String.length w = 5 → ∃ a b c d e, letters w = [a; b; c; d; e].
Proof.
  rewrite <- length_letters. intros Hlen.
  destruct (letters w) as [|a [|b [|c [|d [|e [|]]]]]]; simplify_eq/=. by exists a, b, c, d, e.
Qed.

Lemma count_word_five (pf : list (gmultiset ascii)) w :
  length pf = 5 → String.length w = 5 →
  count_word pf w = zip_with (λ letter c, {[+ letter +]} ⊎ c) (letters w) pf.
Proof.
  intros Hpf (a & b & c & d & e & Hw)%letters_five. unfold count_word. rewrite Hw.
  destruct pf as [|p0 [|p1 [|p2 [|p3 [|p4 [|]]]]]]; simplify_eq/=. done.
Qed.

Section frequencies.
Context (letter : ascii).


Lemma tables_spec l :
  Forall (λ w, String.length w = 5) l →
  length (tables l) = 5
  ∧ Forall (λ c, size c = length l) (tables l)
  ∧ sum_list (multiplicity letter <$> tables l)
    = multiplicity letter (list_to_set_disj (concat (letters <$> l)) : gmultiset ascii)
  ∧ length (concat (letters <$> l)) = 5 * length l.
Proof.
  induction 1 as [|w l Hw Hl (IH1 & IH2 & IH3 & IH4)].
  - simpl. split_and!; try done.
    by repeat constructor.
  - cbn [tables foldr]. fold (tables l). rewrite (count_word_five _ _ IH1 Hw).
    destruct (letters_five w Hw) as (a & b & c & d & e & Hlw).
    rewrite fmap_cons, concat_cons, list_to_set_disj_app, multiplicity_disj_union,
      length_app, IH4, <- IH3, Hlw.
    destruct (tables l) as [|p0 [|p1 [|p2 [|p3 [|p4 [|]]]]]]; simplify_eq/=.
    repeat match goal with H : Forall _ (_ :: _) |- _ => apply Forall_cons in H as [? H] end.
    split_and!; try lia.
    + repeat constructor;
        rewrite gmultiset_size_disj_union, gmultiset_size_singleton; lia.
    + rewrite !multiplicity_disj_union, multiplicity_empty. lia.
Qed.

End frequencies.

Lemma frequencies_of_elements words :
  calculate_positional_frequencies words
  = foldr (λ word pf, count_word pf word) (replicate 5 ∅) (elements words).
Proof. done. Qed.

(** ** The ranking loop *)

Lemma ltb_le (a b : string) : String.ltb a b = true ↔ String.le a b ∧ a ≠ b.
Proof.
  unfold String.le, String.ltb, String.leb.
  pose proof (String.compare_eq_iff a b) as Heq.
  destruct (a ?= b)%string eqn:E; split; try done.
  - intros [_ Hne]. destruct Hne. by apply Heq.
  - intros _. split; [done|]. intros ->.
    pose proof (String.compare_antisym b b) as Hanti. rewrite E in Hanti. done.
  - intros [[] _].
Qed.

Lemma ltb_trans (a b c : string) :
  String.ltb a b = true → String.ltb b c = true → String.ltb a c = true.
Proof.
  rewrite !ltb_le. intros [Hab Hne] [Hbc Hne']. split; [by etrans|].
  intros ->. apply Hne. by apply (anti_symm String.le).
Qed.

Lemma ltb_asym (a b : string) : String.ltb a b = true → String.ltb b a = true → False.
Proof. rewrite !ltb_le. intros [Hab Hne] [Hba _]. apply Hne. by apply (anti_symm String.le). Qed.

Lemma ltb_total (a b : string) : a ≠ b → String.ltb a b = true ∨ String.ltb b a = true.
Proof. rewrite !ltb_le. intros Hne. destruct (total String.le a b); [left|right]; done. Qed.

Lemma elem_of_snoc {A} (l : list A) (x y : A) : y ∈ l ++ [x] ↔ y ∈ l ∨ y = x.
Proof. by rewrite elem_of_app, list_elem_of_singleton. Qed.

Section ranking.
Context (sc : string → Q) (poss spent : string → bool).



Lemma before_trans a b c : before sc poss a b → before sc poss b c → before sc poss a c.
Proof.
  unfold before. intros [H1|[H1 H1']] [H2|[H2 H2']].
  - left. by apply (Qlt_trans _ (sc b)).
  - left. by rewrite H2.
  - left. by rewrite <- H1.
  - right. split; [by rewrite H2|].
    destruct H1' as [[? ?]|[? ?]], H2' as [[? ?]|[? ?]]; try congruence.
    + left. split; congruence.
    + left. split; congruence.
    + right. split; [congruence|]. by eapply ltb_trans.
Qed.

Lemma before_asym a b : before sc poss a b → before sc poss b a → False.
Proof.
  unfold before. intros [H1|[H1 H1']] [H2|[H2 H2']].
  - by apply (Qlt_irrefl (sc a)), (Qlt_trans _ (sc b)).
  - rewrite H2 in H1. by apply Qlt_irrefl in H1.
  - rewrite H1 in H2. by apply Qlt_irrefl in H2.
  - destruct H1' as [[? ?]|[? ?]], H2' as [[? ?]|[? ?]]; try congruence.
    by eapply ltb_asym.
Qed.

Lemma before_total a b : a ≠ b → before sc poss a b ∨ before sc poss b a.
Proof.
  intros Hne. unfold before.
  destruct (Q_dec (sc a) (sc b)) as [[?|?]|Heq]; [by right; left|by left; left|].
  assert (sc b == sc a)%Q as Heq' by (by symmetry).
  destruct (ltb_total a b Hne), (poss a) eqn:Ea, (poss b) eqn:Eb; naive_solver.
Qed.


Lemma pick_leads l acc w :
  leads sc poss spent l acc → leads sc poss spent (l ++ [w]) (pick sc poss spent acc w).
Proof.
  intros Hl. destruct acc as [b x]. unfold pick.
  destruct (spent w) eqn:Hw.
  { destruct Hl as [[-> Hall]|(Hq & Hin & Hb & Hbest)]; [left|right].
    - split; [done|]. intros v [?| ->]%elem_of_snoc; auto.
    - split_and!; try done.
      + apply elem_of_app. by left.
      + intros v [?| ->]%elem_of_snoc ? ?; [auto|congruence]. }
  right. destruct Hl as [[[= -> ->] Hall]|((q & Hx & Hq) & Hin & Hb & Hbest)]; simpl in *.
  { split_and!; try done.
    - by exists (sc w).
    - apply elem_of_snoc. by right.
    - intros v [?%Hall| ->]%elem_of_snoc ? ?; congruence. }
  subst x. simpl.
  assert (before sc poss w b →
          ∀ v, v ∈ l ++ [w] → spent v = false → v ≠ w → before sc poss w v) as Hnew.
  { intros Hwb v [?| ->]%elem_of_snoc ? ?; [|done].
    destruct (decide (v = b)) as [->|?]; [done|]. eapply before_trans; [done|]. by apply Hbest. }
  assert (w ∈ l ++ [w]) as Hwin by (apply elem_of_snoc; by right).
  assert ((w ≠ b → before sc poss b w) →
          ∀ v, v ∈ l ++ [w] → spent v = false → v ≠ b → before sc poss b v)
    as Hold.
  { intros Hbw v [?| ->]%elem_of_snoc ? ?; [by apply Hbest|].
    by apply Hbw. }
  assert (b ∈ l ++ [w]) as Hbin by (apply elem_of_app; by left).
  destruct (Qle_bool (sc w) q) eqn:Hle; simpl.
  - apply Qle_bool_iff in Hle. rewrite Hq in Hle.
    destruct (Qeq_bool (sc w) q) eqn:Heq.
    + apply Qeq_bool_iff in Heq. rewrite Hq in Heq.
      destruct (poss w) eqn:Ew, (poss b) eqn:Eb; simpl.
      * destruct (String.ltb w b) eqn:Elt; simpl.
        -- split_and!; [by exists q; split; [|rewrite Hq]|done..|].
           apply Hnew. right. split; [by symmetry|]. right. split; [congruence|done].
        -- split_and!; [by exists q|done..|]. apply Hold. intros Hne.
           right. split; [done|]. right. split; [congruence|].
           destruct (ltb_total w b Hne); congruence.
      * split_and!; [by exists q; split; [|rewrite Hq]|done..|].
        apply Hnew. right. split; [by symmetry|]. left. done.
      * split_and!; [by exists q|done..|]. apply Hold. intros Hne.
        right. split; [done|]. left. done.
      * destruct (String.ltb w b) eqn:Elt; simpl.
        -- split_and!; [by exists q; split; [|rewrite Hq]|done..|].
           apply Hnew. right. split; [by symmetry|]. right. split; [congruence|done].
        -- split_and!; [by exists q|done..|]. apply Hold. intros Hne.
           right. split; [done|]. right. split; [congruence|].
           destruct (ltb_total w b Hne); congruence.
    + split_and!; [by exists q|done..|]. apply Hold. intros _. left.
      apply Qle_lteq in Hle as [?|Heq']; [done|].
      assert (Qeq_bool (sc w) q = true); [|congruence].
      apply Qeq_bool_iff. by rewrite Hq.
  - split_and!; [by exists (sc w)|done..|]. apply Hnew. left.
    apply Qnot_le_lt. intros Hle'. rewrite <- Hq in Hle'.
    apply Qle_bool_iff in Hle'. congruence.
Qed.

Lemma foldl_pick_leads l : leads sc poss spent l (foldl (pick sc poss spent) ("", neg_inf) l).
Proof.
  apply (foldl_ind (pick sc poss spent) (leads sc poss spent)); [|intros; by apply pick_leads].
  left. split; [done|]. intros v ?%elem_of_nil. done.
Qed.

(** The word the loop ends on depends on the set of words visited, not
    on the order of the visit. *)
Lemma foldl_pick_perm l1 l2 :
  l1 ≡ₚ l2 →
  (foldl (pick sc poss spent) ("", neg_inf) l1).1
  = (foldl (pick sc poss spent) ("", neg_inf) l2).1.
Proof.
  intros Hperm.
  pose proof (foldl_pick_leads l1) as H1. pose proof (foldl_pick_leads l2) as H2.
  destruct (foldl (pick sc poss spent) _ l1) as [b1 x1],
           (foldl (pick sc poss spent) _ l2) as [b2 x2]. simpl.
  destruct H1 as [[[= -> ->] Hall1]|(_ & Hin1 & Hs1 & Hbest1)],
           H2 as [[[= -> ->] Hall2]|(_ & Hin2 & Hs2 & Hbest2)]; simpl in *.
  - done.
  - rewrite <- Hperm in Hin2. apply Hall1 in Hin2. congruence.
  - rewrite Hperm in Hin1. apply Hall2 in Hin1. congruence.
  - destruct (decide (b1 = b2)) as [|Hne]; [done|]. exfalso.
    apply (before_asym b1 b2).
    + apply Hbest1; [by rewrite Hperm|done|done].
    + apply Hbest2; [by rewrite <- Hperm|done|done].
Qed.

End ranking.

(** *** From the loop to [suggest_guess] *)

Lemma spent_true history word : spent history word = true ↔ word ∈ history.*1.
Proof.
  unfold spent. rewrite bool_decide_eq_true, Exists_exists, list_elem_of_fmap. naive_solver.
Qed.

Lemma suggest_step_pick s cp pf lf mode acc w :
  suggest_step s cp pf lf mode acc w
  = pick (λ w, score_word s w pf lf cp mode) (λ w, bool_decide (w ∈ cp))
         (spent (feedback_history s)) acc w.
Proof. by destruct acc. Qed.

Lemma foldl_suggest_step s cp pf lf mode l :
  foldl (suggest_step s cp pf lf mode) ("", neg_inf) l
  = foldl (pick (λ w, score_word s w pf lf cp mode) (λ w, bool_decide (w ∈ cp))
                (spent (feedback_history s))) ("", neg_inf) l.
Proof.
  generalize ("", neg_inf). induction l as [|w l IH]; intros acc; simpl; [done|].
  by rewrite suggest_step_pick, IH.
Qed.

Lemma iteration_singleton iter (X : gset string) :
  iteration_order iter → size X = 1 → ∃ w, X = {[w]} ∧ iter X = [w].
Proof.
  intros Hit [w Hw]%size_1_elem_of. apply leibniz_equiv in Hw. exists w. split; [done|].
  apply Permutation_singleton_r. by rewrite (Hit X), Hw, elements_singleton.
Qed.

Lemma iteration_singleton_elements iter (X : gset string) :
  iteration_order iter → size X = 1 → iter X = elements X.
Proof.
  intros Hit Hone. destruct (iteration_singleton iter X Hit Hone) as (w & HX & ->).
  by rewrite HX, elements_singleton.
Qed.

(** *** The order of iteration does not matter *)

Lemma suggest_guess_order iter1 iter2 s mode :
  iteration_order iter1 → iteration_order iter2 →
  suggest_guess iter1 s mode = suggest_guess iter2 s mode.
Proof.
  intros H1 H2. unfold suggest_guess.
  destruct (filter_words s) as [s1 cp].
  destruct (decide (cp = ∅)); [done|].
  destruct (decide (size cp = 1)) as [Hone|].
  { by rewrite (iteration_singleton_elements iter1 cp H1 Hone),
      (iteration_singleton_elements iter2 cp H2 Hone). }
  rewrite !foldl_suggest_step.
  set (pool := if mode then all_words s1 else cp).
  pose proof (foldl_pick_perm
                (λ w, score_word s1 w (calculate_positional_frequencies cp)
                        (calculate_letter_frequencies cp) cp mode)
                (λ w, bool_decide (w ∈ cp))
                (spent (feedback_history s1)) (iter1 pool) (iter2 pool)) as Hp.
  destruct (foldl _ _ (iter1 pool)) as [b1 x1], (foldl _ _ (iter2 pool)) as [b2 x2].
  simpl in Hp. rewrite Hp; [done|]. by rewrite (H1 pool), (H2 pool).
Qed.

(** ** The V3 solver against the specification *)

(** Closed goals about concrete words are settled by evaluation. *)
Ltac by_compute :=
  match goal with |- ?P => apply (@bool_decide_unpack P _); vm_compute; exact I end.

Ltac refute_compute :=
  match goal with
  | |- ¬ ?P => apply (@bool_decide_eq_false_1 P _); vm_compute; reflexivity
  end.

Ltac wf_pool_compute :=
  apply set_Forall_elements; vm_compute; repeat constructor.

Ltac wf_history_compute :=
  unfold Wordle.wf_history; repeat constructor.

(** *** Replay consistency *)

(** C1 (as amended): for every pool of five-letter words, every history
    of five-letter guesses with five-symbol feedback and every word [w] of
    the pool, if replaying the standard comparison of [w] against every
    guess of the history reproduces the stored feedback, then [w] is in
    the candidate set that [filter_words] computes. *)
Theorem replay_consistent_words_are_kept pool history w :
  Wordle.wf_pool pool →
  Wordle.wf_history history →
  w ∈ pool →
  Forall (Wordle.reproduces w) history →
  w ∈ computeCandidates history pool.
Proof.
  intros Hpool Hhist Hw Hrep. unfold computeCandidates.
  apply filter_words_keeps; simpl; auto.
Qed.

Lemma replay_consistent_words_are_kept_witness :
  Wordle.wf_pool {["suite"; "shrew"]}
  ∧ Wordle.wf_history [("speed", "GXYXX")]
  ∧ "suite" ∈ ({["suite"; "shrew"]} : gset string)
  ∧ Forall (Wordle.reproduces "suite") [("speed", "GXYXX")]
  ∧ "suite" ∈ computeCandidates [("speed", "GXYXX")] {["suite"; "shrew"]}.
Proof.
  assert (Wordle.wf_pool {["suite"; "shrew"]}) as H1 by wf_pool_compute.
  assert (Wordle.wf_history [("speed", "GXYXX")]) as H2 by wf_history_compute.
  assert ("suite" ∈ ({["suite"; "shrew"]} : gset string)) as H3 by by_compute.
  assert (Forall (Wordle.reproduces "suite") [("speed", "GXYXX")]) as H4
    by (repeat constructor).
  exact (conj H1 (conj H2 (conj H3 (conj H4
           (replay_consistent_words_are_kept _ _ _ H1 H2 H3 H4))))).
Defined.

(** C1 (as stated) fails: after SPEED / GXYXX the filter keeps SHREW,
    whose replay against SPEED answers GXXGX. *)
Lemma replay_consistency_fails :
  ¬ (∀ pool history w,
       Wordle.wf_pool pool → Wordle.wf_history history → w ∈ pool →
       (w ∈ computeCandidates history pool ↔ Forall (Wordle.reproduces w) history)).
Proof.
  intros Hclaim.
  destruct (Hclaim {["suite"; "shrew"]} [("speed", "GXYXX")] "shrew") as [Hrep _].
  - wf_pool_compute.
  - wf_history_compute.
  - by_compute.
  - assert ("shrew" ∈ computeCandidates [("speed", "GXYXX")] {["suite"; "shrew"]}) as Hin
      by by_compute.
    apply Hrep in Hin. inversion Hin as [|? ? Hr _]. vm_compute in Hr. discriminate.
Qed.

(** *** Exclusion of letters *)

(** Where an excluded letter comes from: the second pass adds a letter
    it sees marked ABSENT while the letter is neither present nor known. *)
Lemma yellow_gray_pass_excluded_origin gc s cnt (z : list (ascii * ascii)) c :
  c ∈ _excluded_letters (foldl (yellow_gray_step gc) (s, cnt) (enumerate z)).1 →
  c ∈ _excluded_letters s
  ∨ (∃ i, z !! i = Some (c, "X"%char)) ∧ (c ∉ _present_letters s).
Proof.
  apply (foldl_enumerate_ind (yellow_gray_step gc) (λ l acc,
    _present_letters s ⊆ _present_letters acc.1
    ∧ (c ∈ _excluded_letters acc.1 →
       c ∈ _excluded_letters s
       ∨ (∃ i, l !! i = Some (c, "X"%char)) ∧ (c ∉ _present_letters s)))).
  - split; [done|]. by left.
  - intros l [x st] [s1 cnt1] [Hsub IH]. simpl in *.
    assert (c ∈ _excluded_letters s1 →
            c ∈ _excluded_letters s
            ∨ (∃ i, (l ++ [(x, st)]) !! i = Some (c, "X"%char)) ∧ (c ∉ _present_letters s))
      as IH'.
    { intros [?|[[i Hi] ?]]%IH; [by left|right]. split; [|done].
      exists i. apply lookup_snoc_Some. by left. }
    unfold yellow_gray_step.
    destruct (decide (st = "Y"%char)) as [->|Hst]; simpl; [split; [set_solver|done]|].
    destruct (decide (st = "X"%char)) as [->|?]; [|done].
    destruct (decide _); [|done]. destruct (decide _) as [[Hnp _]|]; [|done]. simpl.
    split; [done|]. intros [->%elem_of_singleton|?]%elem_of_union; [|by auto].
    right. split; [|set_solver]. exists (length l). apply lookup_snoc_Some. by right.
Qed.

Lemma update_guess_excluded_origin s g fb c :
  c ∈ _excluded_letters (update_guess s (g, fb)) →
  c ∈ _excluded_letters s
  ∨ (∃ i, marked [(g, fb)] i c "X") ∧ (c ∉ _present_letters s).
Proof.
  unfold update_guess, enum_zip. set (z := zip (letters g) (letters fb)).
  destruct (foldl green_step (s, ∅) (enumerate z)) as [s1 cnt1] eqn:E1.
  pose proof (green_pass_spec s ∅ z) as HG. simpl in HG. rewrite E1 in HG. simpl in HG.
  destruct HG as (_ & _ & He1 & _ & Hp1 & _).
  intros [?|[[i Hi] Hnp]]%yellow_gray_pass_excluded_origin; [left; congruence|right].
  split.
  - exists i. by apply marked_singleton.
  - intros Hc. apply Hnp, Hp1. by left.
Qed.

(** A letter is in [_excluded_letters] after the rebuild only if some
    entry marks it ABSENT and no entry before that one marks it CORRECT
    or PRESENT. *)
Lemma excluded_origin s H c :
  c ∈ _excluded_letters (foldl update_guess (reset_solver_state s) H) →
  ∃ H1 g fb H2,
    H = H1 ++ (g, fb) :: H2
    ∧ (∃ i, marked [(g, fb)] i c "X")
    ∧ ∀ i, ¬ marked H1 i c "G" ∧ ¬ marked H1 i c "Y".
Proof.
  induction H as [|[g fb] H IH] using rev_ind; [set_solver|].
  rewrite foldl_app. simpl.
  intros [Hc|[Hx Hnp]]%update_guess_excluded_origin.
  - destruct (IH Hc) as (H1 & g' & fb' & H2 & -> & Hx & Hno).
    exists H1, g', fb', (H2 ++ [(g, fb)]). split; [|done]. by rewrite <- app_assoc.
  - exists H, g, fb, []. split_and!; try done.
    destruct (derived_state_spec s H) as (_ & _ & _ & Hp & _). simpl in Hp.
    intros i. split; intros Hm; apply Hnp, Hp; eauto.
Qed.

(** The count loop caps excluded letters only. *)
Lemma max_count_excluded E acc H c m :
  (foldl (count_guess E) acc H).2 !! c = Some m →
  (∃ m', acc.2 !! c = Some m') ∨ c ∈ E.
Proof.
  revert acc. induction H as [|[g fb] H IH]; intros acc; simpl; [by eauto|].
  intros [[m' Hm']|?]%IH; [|by right]. revert Hm'. unfold count_guess.
  generalize (non_gray_counts g fb). intros ng. revert acc m'.
  induction (items g) as [|[x n] l IHl]; intros acc m'; simpl; [by eauto|].
  intros [[m'' Hm'']|?]%IHl; [|by right]. revert Hm''.
  destruct acc as [mn mx]. unfold count_letter.
  destruct (decide _) as [[_ Hx]|]; simpl; [|by eauto].
  intros [[<- _]|[_ ?]]%lookup_insert_Some; [by right|by eauto].
Qed.

(** C3 (as amended): a letter that some entry of the history marks
    CORRECT or PRESENT is not among the letters the filter excludes from
    the whole word, and the exclusion loop keeps every word whose other
    letters are not excluded, whether or not it contains that letter;
    the count loop caps such a letter only when some entry marks it
    ABSENT and no entry before that one marks it CORRECT or PRESENT. *)
Theorem present_letter_never_excluded s c i :
  Wordle.wf_history (feedback_history s) →
  marked (feedback_history s) i c "G" ∨ marked (feedback_history s) i c "Y" →
  let u := _update_internal_state_from_history s in
  (c ∉ active_exclusions u)
  ∧ (∀ filtered w,
       w ∈ filtered →
       (∀ x, x ∈ letters w → x ≠ c → x ∉ active_exclusions u) →
       w ∈ apply_exclusions (active_exclusions u) filtered)
  ∧ ∀ m, (letter_counts u).2 !! c = Some m →
         ∃ H1 g fb H2,
           feedback_history s = H1 ++ (g, fb) :: H2
           ∧ (∃ j, marked [(g, fb)] j c "X")
           ∧ ∀ j, ¬ marked H1 j c "G" ∧ ¬ marked H1 j c "Y".
Proof.
  intros _ Hmark. simpl.
  destruct (derived_state_spec s (feedback_history s)) as (_ & _ & _ & Hp & _).
  assert (c ∉ active_exclusions (_update_internal_state_from_history s)) as Hc.
  { unfold active_exclusions. intros [[_ Hnp]%elem_of_difference _]%elem_of_difference.
    apply Hnp, Hp. by exists i. }
  split_and!; [done| |].
  - intros filtered w Hw Hothers.
    apply elem_of_apply_exclusions. split; [done|].
    intros x Hx Hxw. destruct (decide (x = c)) as [->|Hne]; [done|]. by apply (Hothers x).
  - intros m Hm. unfold letter_counts in Hm.
    apply max_count_excluded in Hm as [[m' Hm']|Hex];
      [by simpl in Hm'; rewrite lookup_empty in Hm'|].
    by apply excluded_origin in Hex.
Qed.

Lemma present_letter_never_excluded_witness :
  let s := append_feedback "speed" "GXYXX" (init {["suite"]} {["suite"]}) in
  Wordle.wf_history (feedback_history s)
  ∧ (marked (feedback_history s) 2 "e" "G" ∨ marked (feedback_history s) 2 "e" "Y")
  ∧ "e"%char ∉ active_exclusions (_update_internal_state_from_history s).
Proof.
  set (s := append_feedback "speed" "GXYXX" (init {["suite"]} {["suite"]})).
  assert (Wordle.wf_history (feedback_history s)) as H1 by wf_history_compute.
  assert (marked (feedback_history s) 2 "e" "G" ∨ marked (feedback_history s) 2 "e" "Y") as H2.
  { right. exists "speed", "GXYXX". split; [by apply list_elem_of_singleton|done]. }
  exact (conj H1 (conj H2 (proj1 (present_letter_never_excluded s "e" 2 H1 H2)))).
Defined.

(** The claim as first stated fails: after crane/XXXXX and suite/XXXXY
    the letter e is marked PRESENT, the word EMBED passes the green, the
    present, the misplaced and the exclusion loop and every count bound
    but the cap on e, which is 0, and the filter rejects it. *)
Lemma present_letter_is_capped :
  ¬ (∀ s c i w,
       Wordle.wf_history (feedback_history s) →
       marked (feedback_history s) i c "G" ∨ marked (feedback_history s) i c "Y" →
       let u := _update_internal_state_from_history s in
       w ∈ apply_exclusions (active_exclusions u)
             (apply_misplaced (_misplaced_letters u)
                (apply_present (_present_letters u)
                   (apply_known (_known_letters u) (possible_answers s)))) →
       valid (letter_counts u).1 (delete c (letter_counts u).2) w →
       w ∈ (filter_words s).2).
Proof.
  intros Hclaim.
  set (s := append_feedback "suite" "XXXXY"
              (append_feedback "crane" "XXXXX" (init {["embed"]} {["embed"]}))).
  assert ("embed" ∈ (filter_words s).2) as Hin.
  { apply (Hclaim s "e"%char 4).
    - wf_history_compute.
    - right. exists "suite", "XXXXY". split_and!; [|done..]. by_compute.
    - by vm_compute.
    - by_compute. }
  assert ("embed" ∉ (filter_words s).2) as Hout by refute_compute.
  by apply Hout.
Qed.

(** *** Monotonic shrinkage *)

(** C6 (as amended): for every pool of five-letter words and every
    history of five-letter guesses with five-symbol feedback in which no
    position is marked CORRECT with two different letters, the candidate
    set computed from the history is a subset of the candidate set
    computed from any prefix of it. *)
Theorem candidates_shrink_along_history pool prefix rest :
  Wordle.wf_pool pool →
  Wordle.wf_history (prefix ++ rest) →
  green_consistent (prefix ++ rest) →
  computeCandidates (prefix ++ rest) pool ⊆ computeCandidates prefix pool.
Proof. intros _ _. apply computeCandidates_app. Qed.

Lemma candidates_shrink_along_history_witness :
  Wordle.wf_pool {["suite"; "shrew"; "slate"]}
  ∧ Wordle.wf_history ([("speed", "GXYXX")] ++ [("slate", "GXXYG")])
  ∧ green_consistent ([("speed", "GXYXX")] ++ [("slate", "GXXYG")])
  ∧ computeCandidates ([("speed", "GXYXX")] ++ [("slate", "GXXYG")])
                      {["suite"; "shrew"; "slate"]}
    ⊆ computeCandidates [("speed", "GXYXX")] {["suite"; "shrew"; "slate"]}.
Proof.
  assert (Wordle.wf_pool {["suite"; "shrew"; "slate"]}) as H1 by wf_pool_compute.
  assert (Wordle.wf_history ([("speed", "GXYXX")] ++ [("slate", "GXXYG")])) as H2
    by wf_history_compute.
  assert (green_consistent ([("speed", "GXYXX")] ++ [("slate", "GXXYG")])) as H3
    by by_compute.
  exact (conj H1 (conj H2 (conj H3 (candidates_shrink_along_history _ _ _ H1 H2 H3)))).
Defined.

(** C6 (as stated) fails: a second guess that marks another letter
    CORRECT at position 0 overwrites the known letter, and BANKS, which
    the first entry alone rules out, becomes a candidate. *)
Lemma candidates_grow_on_overwrite :
  ¬ (∀ pool prefix rest,
       Wordle.wf_pool pool → Wordle.wf_history (prefix ++ rest) →
       computeCandidates (prefix ++ rest) pool ⊆ computeCandidates prefix pool).
Proof.
  intros Hclaim.
  assert ("banks" ∈ computeCandidates ([("apple", "GXXXX")] ++ [("bravo", "GXYXX")])
                                      {["banks"; "aunts"]}) as Hin by by_compute.
  apply Hclaim in Hin; [|wf_pool_compute|wf_history_compute].
  assert ("banks" ∉ computeCandidates [("apple", "GXXXX")] {["banks"; "aunts"]}) as Hout
    by refute_compute.
  by apply Hout.
Qed.

(** *** The stored candidate pool *)

Lemma suggest_guess_solver iter s mode :
  (suggest_guess iter s mode).1 = (filter_words s).1.
Proof.
  unfold suggest_guess. destruct (filter_words s) as [s1 cp]. simpl.
  destruct (decide (cp = ∅)); [done|]. destruct (decide (size cp = 1)); [done|].
  by destruct (foldl _ _ _).
Qed.

Lemma run_call_shrinks iter s c :
  possible_answers (run_call iter s c) ⊆ possible_answers s.
Proof.
  destruct c as [|mode|g fb]; simpl.
  - rewrite filter_words_possible_answers. apply filter_words_subseteq.
  - rewrite suggest_guess_solver, filter_words_possible_answers. apply filter_words_subseteq.
  - done.
Qed.

(** C9: [filter_words] stores the set it returns in [possible_answers],
    that set is a subset of the field's value before the call, and after
    any sequence of [filter_words] calls, [suggest_guess] calls and
    appended feedback the stored pool is a subset of the pool the
    sequence started from. *)
Theorem possible_answers_never_grows iter s calls :
  possible_answers (filter_words s).1 = (filter_words s).2
  ∧ (filter_words s).2 ⊆ possible_answers s
  ∧ possible_answers (run iter s calls) ⊆ possible_answers s.
Proof.
  split; [apply filter_words_possible_answers|]. split; [apply filter_words_subseteq|].
  unfold run. revert s. induction calls as [|c calls IH]; intros s; simpl; [done|].
  etrans; [apply IH|apply run_call_shrinks].
Qed.

(** *** The empty word list *)

(** C8 (as amended): when the word list is empty, and with it the pool
    of possible answers, [filter_words] returns the empty set and
    [suggest_guess] returns the message it returns whenever no candidate
    remains. *)
Theorem empty_word_list_is_no_candidates iter s mode :
  all_words s = ∅ →
  possible_answers s ⊆ all_words s →
  (filter_words s).2 = ∅
  ∧ (suggest_guess iter s mode).2 = "No valid words remaining.".
Proof.
  intros Hall Hsub.
  assert ((filter_words s).2 = ∅) as Hempty.
  { apply set_eq. intros w. split; [|set_solver].
    intros Hw%filter_words_subseteq. set_solver. }
  split; [done|]. unfold suggest_guess.
  destruct (filter_words s) as [s1 cp]. simpl in *. by rewrite decide_True.
Qed.

Lemma empty_word_list_is_no_candidates_witness :
  all_words (init ∅ ∅) = ∅
  ∧ possible_answers (init ∅ ∅) ⊆ all_words (init ∅ ∅)
  ∧ (filter_words (init ∅ ∅)).2 = ∅
  ∧ (suggest_guess elements (init ∅ ∅) false).2 = "No valid words remaining.".
Proof.
  assert (all_words (init ∅ ∅) = ∅) as H1 by reflexivity.
  assert (possible_answers (init ∅ ∅) ⊆ all_words (init ∅ ∅)) as H2 by reflexivity.
  exact (conj H1 (conj H2 (empty_word_list_is_no_candidates elements _ false H1 H2))).
Defined.

(** C8 (as stated) fails: on an empty word list [suggest_guess] answers
    what it answers on a word list none of whose words fits the feedback. *)
Lemma empty_word_list_not_distinguished :
  ¬ (∀ iter s s' mode,
       all_words s = ∅ → possible_answers s ⊆ all_words s → all_words s' ≠ ∅ →
       (suggest_guess iter s mode).2 ≠ (suggest_guess iter s' mode).2).
Proof.
  intros Hclaim.
  apply (Hclaim elements (init ∅ ∅)
           (append_feedback "crane" "XXXXX" (init {["crane"]} {["crane"]})) false).
  - done.
  - done.
  - refute_compute.
  - by vm_compute.
Qed.

(** *** Letter frequencies *)

(** C10: for every finite set of five-letter words, each of the five
    positional counters sums to the number of words, the global counter
    sums to five times the number of words, and the global count of every
    letter is the sum of its five positional counts. *)
Theorem frequency_sums words letter :
  Wordle.wf_pool words →
  let positional_frequencies := calculate_positional_frequencies words in
  let letter_frequencies := calculate_letter_frequencies words in
  length positional_frequencies = 5
  ∧ Forall (λ c, size c = size words) positional_frequencies
  ∧ size letter_frequencies = 5 * size words
  ∧ multiplicity letter letter_frequencies
    = sum_list (multiplicity letter <$> positional_frequencies).
Proof.
  intros Hwf%set_Forall_elements. simpl.
  destruct (tables_spec letter (elements words) Hwf) as (H1 & H2 & H3 & H4).
  rewrite frequencies_of_elements. fold (tables (elements words)).
  unfold calculate_letter_frequencies, Counter.
  rewrite letters_join, size_list_to_set_disj, H4.
  by split_and!.
Qed.

Lemma frequency_sums_witness :
  Wordle.wf_pool {["sassy"; "sissy"]}
  ∧ multiplicity "s"%char (calculate_letter_frequencies {["sassy"; "sissy"]})
    = sum_list (multiplicity "s"%char
                  <$> calculate_positional_frequencies {["sassy"; "sissy"]}).
Proof.
  assert (Wordle.wf_pool {["sassy"; "sissy"]}) as H1 by wf_pool_compute.
  exact (conj H1 (proj2 (proj2 (proj2 (frequency_sums _ "s" H1))))).
Defined.

(** *** What [suggest_guess] returns *)

(** With two candidates or more, the loop ends on the word that leads
    the unspent words of the pool it ranks. *)
Lemma suggest_guess_ranked iter s (mode : bool) :
  let s1 := (filter_words s).1 in
  let cp := (filter_words s).2 in
  let pool := if mode then all_words s1 else cp in
  let sc := λ w, score_word s1 w (calculate_positional_frequencies cp)
                   (calculate_letter_frequencies cp) cp mode in
  cp ≠ ∅ → size cp ≠ 1 →
  ∃ acc, leads sc (λ w, bool_decide (w ∈ cp)) (spent (feedback_history s1)) (iter pool) acc
         ∧ (suggest_guess iter s mode).2
           = if decide (acc.1 = "") then "Could not determine best guess." else acc.1.
Proof.
  simpl. unfold suggest_guess. destruct (filter_words s) as [s1 cp]. simpl.
  intros Hne Hsz. rewrite decide_False, decide_False by done.
  rewrite foldl_suggest_step.
  eexists. split; [apply foldl_pick_leads|].
  by destruct (foldl _ _ _).
Qed.

Lemma spent_guess_length history w :
  Wordle.wf_history history → w ∈ history.*1 → String.length w = 5.
Proof.
  intros Hwf ([g fb] & -> & Hin)%list_elem_of_fmap.
  unfold Wordle.wf_history in Hwf. rewrite Forall_forall in Hwf.
  by destruct (Hwf _ Hin).
Qed.

(** For every history of five-letter guesses and every mode, when the
    candidate set does not consist of exactly one word, [suggest_guess]
    does not return a word that occurs as a guess in the history; when
    exactly one candidate remains, that candidate is what it returns,
    guessed before or not. *)
Lemma V3_suggest_guess_skips_spent iter s mode :
  iteration_order iter →
  Wordle.wf_history (feedback_history s) →
  let cp := (filter_words s).2 in
  let suggestion := (suggest_guess iter s mode).2 in
  (size cp ≠ 1 → suggestion ∉ (feedback_history s).*1)
  ∧ (size cp = 1 → cp = {[suggestion]}).
Proof.
  intros Hit Hwf. simpl. split.
  - intros Hsz Hin. pose proof (spent_guess_length _ _ Hwf Hin) as Hlen.
    destruct (decide ((filter_words s).2 = ∅)) as [Hempty|Hne].
    { unfold suggest_guess in Hlen. destruct (filter_words s) as [s1 cp]. simpl in *.
      rewrite decide_True in Hlen by done. by vm_compute in Hlen. }
    destruct (suggest_guess_ranked iter s mode Hne Hsz) as ([b x] & Hleads & Hr).
    simpl in *. rewrite Hr in Hin, Hlen.
    destruct (decide (b = "")) as [->|Hb]; [by vm_compute in Hlen|].
    destruct Hleads as [[[= -> ->] _]|(_ & _ & Hsp & _)]; [done|]. simpl in *.
    destruct (filter_words_frame s) as [_ Hh]. rewrite Hh in Hsp.
    apply spent_true in Hin. congruence.
  - intros Hone. unfold suggest_guess. destruct (filter_words s) as [s1 cp]. simpl in *.
    destruct (iteration_singleton iter cp Hit Hone) as (w & -> & Hw).
    rewrite decide_False by set_solver. rewrite decide_True by done. by rewrite Hw.
Qed.

(** *** Determinism *)

Lemma solver_eq a b : frame a = frame b → derived a = derived b → a = b.
Proof. destruct a, b. unfold frame, derived. simpl. by intros [= -> -> -> ->] [= -> -> -> ->]. Qed.

Lemma update_derived_frame a b :
  feedback_history a = feedback_history b →
  derived (_update_internal_state_from_history a)
  = derived (_update_internal_state_from_history b).
Proof.
  intros Hh. unfold _update_internal_state_from_history. rewrite Hh.
  by apply updates_derived.
Qed.

(** A second call of [filter_words] changes nothing. *)
Lemma filter_words_twice s : filter_words (filter_words s).1 = filter_words s.
Proof.
  set (s1 := (filter_words s).1).
  assert (feedback_history s1 = feedback_history s) as Hh by apply filter_words_frame.
  assert (all_words s1 = all_words s) as Ha by apply filter_words_frame.
  assert (possible_answers s1 = (filter_words s).2) as Hp
    by apply filter_words_possible_answers.
  assert (guesses_made s1 = guesses_made s) as Hg.
  { unfold s1, filter_words. destruct (letter_counts _). simpl.
    pose proof (update_frame s) as Hf. by injection Hf. }
  pose proof (update_derived_frame s1 s Hh) as Hd.
  assert (letter_counts (_update_internal_state_from_history s1)
          = letter_counts (_update_internal_state_from_history s)) as Hlc.
  { unfold letter_counts. rewrite !update_feedback_history, Hh.
    unfold derived in Hd. by injection Hd as _ _ _ ->. }
  assert ((filter_words s1).2 = (filter_words s).2) as Hcp.
  { apply set_eq. intros w. rewrite (elem_of_filter_words s1). simpl. rewrite Hp, Hlc.
    split; [by intros [? _]|]. intros Hw. split; [done|].
    apply elem_of_filter_words in Hw as (_ & Hw). simpl in Hw.
    unfold derived, active_exclusions in *. injection Hd as -> -> -> ->. exact Hw. }
  rewrite (surjective_pairing (filter_words s1)), (surjective_pairing (filter_words s)).
  f_equal; [|done]. fold s1. apply solver_eq.
  - pose proof (filter_words_frame s1) as [Ha1 Hh1].
    pose proof (filter_words_possible_answers s1) as Hp1.
    assert (guesses_made (filter_words s1).1 = guesses_made s1) as Hg1.
    { unfold filter_words. destruct (letter_counts _). simpl.
      pose proof (update_frame s1) as Hf. by injection Hf. }
    unfold frame. by rewrite Ha1, Hh1, Hp1, Hg1, Hcp, Hp.
  - unfold s1 at 2. unfold filter_words.
    destruct (letter_counts (_update_internal_state_from_history s1)),
             (letter_counts (_update_internal_state_from_history s)). simpl.
    exact Hd.
Qed.

Lemma suggest_guess_twice iter s mode :
  suggest_guess iter (suggest_guess iter s mode).1 mode = suggest_guess iter s mode.
Proof.
  rewrite suggest_guess_solver. unfold suggest_guess. by rewrite filter_words_twice.
Qed.

(** Determinism holds of the V3 solver.  The suggestion does not depend
    on the order in which the sets are iterated: two iteration orders
    give the same solver and the same suggestion, and a second call on
    the solver as the first call left it gives the same again.  With two
    candidates or more, a suggested word
    is an unspent word of the ranked pool, and every other unspent word of
    that pool has a lower score, or the same score without being a live
    candidate when the suggestion is one, or the same score and candidate
    status and a lexicographically larger spelling. *)
Lemma V3_suggest_guess_deterministic iter1 iter2 s (mode : bool) :
  iteration_order iter1 →
  iteration_order iter2 →
  suggest_guess iter1 s mode = suggest_guess iter2 s mode
  ∧ suggest_guess iter1 (suggest_guess iter1 s mode).1 mode = suggest_guess iter1 s mode
  ∧ (let s1 := (filter_words s).1 in
     let cp := (filter_words s).2 in
     let pool := if mode then all_words s1 else cp in
     let sc := λ w, score_word s1 w (calculate_positional_frequencies cp)
                      (calculate_letter_frequencies cp) cp mode in
     let suggestion := (suggest_guess iter1 s mode).2 in
     cp ≠ ∅ → size cp ≠ 1 → suggestion ≠ "Could not determine best guess." →
     suggestion ∈ pool
     ∧ spent (feedback_history s1) suggestion = false
     ∧ ∀ v, v ∈ pool → spent (feedback_history s1) v = false → v ≠ suggestion →
            before sc (λ w, bool_decide (w ∈ cp)) suggestion v).
Proof.
  intros H1 H2. split; [by apply suggest_guess_order|].
  split; [apply suggest_guess_twice|].
  simpl. intros Hne Hsz Hr.
  destruct (suggest_guess_ranked iter1 s mode Hne Hsz) as ([b x] & Hleads & Hres).
  simpl in *. rewrite Hres in Hr |- *.
  destruct (decide (b = "")) as [->|Hb]; [done|].
  destruct Hleads as [[[= -> ->] _]|(_ & Hin & Hsp & Hbest)]; [done|]. simpl in *.
  split_and!; [|done|].
  - by rewrite (H1 _), elem_of_elements in Hin.
  - intros v Hv. apply Hbest. by rewrite (H1 _), elem_of_elements.
Qed.

Lemma V3_suggest_guess_deterministic_witness :
  let s := append_feedback "shout" "GXXXX"
             (init {["sassy"; "sissy"; "daisy"; "shout"]} {["sassy"; "sissy"; "daisy"; "shout"]}) in
  iteration_order elements
  ∧ iteration_order (λ X, reverse (elements X))
  ∧ suggest_guess elements s false = suggest_guess (λ X, reverse (elements X)) s false.
Proof.
  set (s := append_feedback _ _ _).
  assert (iteration_order elements) as H1 by (by intros X).
  assert (iteration_order (λ X, reverse (elements X))) as H2
    by (intros X; apply reverse_Permutation).
  exact (conj H1 (conj H2 (proj1 (V3_suggest_guess_deterministic _ _ s false H1 H2)))).
Defined.

(** Rounding decides between SHONE and STATE: 9.0 * 1.2 is the double
    below 10.8 and 12.0 * 0.9 is the double nearest to it, so STATE is
    the suggestion, where exact arithmetic would see a tie. *)
Lemma V3_rounding_orders_scores :
  let words : gset string := {["cease"; "shone"; "state"; "steel"]} in
  let sc := λ w, score_word (init words words) w (calculate_positional_frequencies words)
                   (calculate_letter_frequencies words) words false in
  (sc "shone" < sc "state")%Q
  ∧ (sc "state" == float_round 10.8)%Q
  ∧ (suggest_guess elements (init words words) false).2 = "state".
Proof. cbv zeta. split_and!; by vm_compute. Qed.

(** *** Two inputs on which the V3 solver departs from its own comments *)

(** C2, the V3 solver at the failing input: after SPEED / GXYXX the
    candidate set still holds SEVEN, which has two E's, because no
    maximum is recorded for E (E is not in [_excluded_letters], which the
    test before the update of [max_letter_counts] asks for). *)
Theorem V3_speed_keeps_seven :
  let history := [("speed", "GXYXX")] in
  let pool : gset string := {["seven"; "suite"; "spelt"]} in
  let u := _update_internal_state_from_history
             (append_feedback "speed" "GXYXX" (init pool pool)) in
  "seven" ∈ computeCandidates history pool
  ∧ multiplicity "e"%char (Counter "seven") = 2
  ∧ ("e"%char ∉ _excluded_letters u)
  ∧ (letter_counts u).2 !! "e"%char = None.
Proof.
  cbv zeta. split; [by_compute|].
  split_and!; [by vm_compute|refute_compute|by vm_compute].
Qed.

(** C4, the V3 solver at the failing input: with S known at position 0
    after SHOUT / GXXXX and the candidates SASSY and SISSY, elimination
    mode suggests DAISY, which has D at position 0. *)
Theorem V3_suggests_daisy :
  let words : gset string := {["sassy"; "sissy"; "daisy"; "shout"]} in
  let s := (filter_words (append_feedback "shout" "GXXXX" (init words words))).1 in
  possible_answers s = {["sassy"; "sissy"]}
  ∧ (suggest_guess elements s true).2 = "daisy"
  ∧ _known_letters (filter_words s).1 !! 0 = Some (Some "s"%char)
  ∧ word_at "daisy" 0 = Some "d"%char
  ∧ ¬ admissible (filter_words s).1 "daisy".
Proof.
  cbv zeta.
  set (s := (filter_words (append_feedback "shout" "GXXXX" (init _ _))).1).
  assert (_known_letters (filter_words s).1 !! 0 = Some (Some "s"%char)) as Hknown
    by (by vm_compute).
  split; [by_compute|]. split_and!; [by vm_compute|done|by vm_compute|].
  intros Hadm. destruct (Hadm 0 "d"%char) as [_ Hk]; [by vm_compute|].
  by apply Hk in Hknown.
Qed.

(** The same from the page, which asks for elimination mode after one
    guess while more than twenty candidates remain: twenty-one
    candidates that start with S and repeat it twice. *)
Lemma V3_page_suggests_daisy :
  let words : gset string :=
    {["daisy"; "shout";
      "sassa"; "sassb"; "sassc"; "sassd"; "sasse"; "sassi"; "sassy";
      "sessa"; "sessb"; "sessc"; "sessd"; "sesse"; "sessi"; "sessy";
      "sissa"; "sissb"; "sissc"; "sissd"; "sisse"; "sissi"; "sissy"]} in
  let s := (filter_words (append_feedback "shout" "GXXXX" (init words words))).1 in
  size (possible_answers s) = 21
  ∧ page_elimination_mode s = true
  ∧ (suggest_guess elements s (page_elimination_mode s)).2 = "daisy".
Proof. cbv zeta. split_and!; by vm_compute. Qed.

(** A letter that one entry marks ABSENT and a later, contradictory entry
    marks PRESENT is not among the excluded letters, but the count
    filter caps it at no occurrence: no word passes both the presence
    test and the count test. *)
Lemma V3_contradicted_gray_is_capped :
  let s := append_feedback "suite" "XXXXY"
             (append_feedback "crane" "XXXXX" (init {["embed"]} {["embed"]})) in
  let u := _update_internal_state_from_history s in
  ("e"%char ∉ active_exclusions u)
  ∧ (letter_counts u).2 !! "e"%char = Some 0
  ∧ (filter_words s).2 = ∅.
Proof. cbv zeta. split_and!; [refute_compute|by vm_compute|by_compute]. Qed.

(** ** The experimental solver against the same claims *)

Lemma Experimental_yellow_gray_frame acc x :
  frame (Experimental.yellow_gray_step acc x).1 = frame acc.1.
Proof.
  destruct acc as [s cnt], x as [i [c st]]. unfold Experimental.yellow_gray_step.
  by repeat destruct (decide _).
Qed.

Lemma Experimental_update_guess_frame s e :
  frame (Experimental.update_guess s e) = frame s.
Proof.
  destruct e as [g fb]. unfold Experimental.update_guess.
  destruct (green_pass_spec s ∅ (zip (letters g) (letters fb))) as [Hf _].
  unfold enum_zip. revert Hf.
  generalize (foldl green_step (s, ∅) (enumerate (zip (letters g) (letters fb)))).
  generalize (enumerate (zip (letters g) (letters fb))).
  intros l. induction l as [|x l IH]; intros acc Hacc; simpl; [done|].
  apply IH. by rewrite Experimental_yellow_gray_frame.
Qed.

Lemma Experimental_update_frame s :
  frame (Experimental._update_internal_state_from_history s) = frame s.
Proof.
  unfold Experimental._update_internal_state_from_history.
  change (frame s) with (frame (reset_solver_state s)).
  generalize (reset_solver_state s). generalize (feedback_history s).
  intros H. induction H as [|e H IH]; intros r; simpl; [done|].
  by rewrite IH, Experimental_update_guess_frame.
Qed.

Lemma elem_of_Experimental_apply_known known F w :
  w ∈ Experimental.apply_known known F ↔
  w ∈ F ∧ ∀ i c, known !! i = Some (Some c) → String.length w = 5 ∧ word_at w i = Some c.
Proof.
  unfold Experimental.apply_known.
  apply (foldl_enumerate_ind _
    (λ l R, w ∈ R ↔ w ∈ F ∧ ∀ i c, l !! i = Some (Some c) →
                                   String.length w = 5 ∧ word_at w i = Some c)).
  - split; [intros ?; split; [done|]; intros i c; by rewrite lookup_nil | by intros [? _]].
  - intros l x R IH. destruct x as [c|].
    + rewrite elem_of_filter, IH. split.
      * intros (Hc & Hw & Hl). split; [done|]. intros i c' [?|[-> [= ->]]]%lookup_snoc_Some; auto.
      * intros (Hw & Hl). split; [apply Hl, lookup_snoc_Some; by right|].
        split; [done|]. intros i c' ?. apply Hl, lookup_snoc_Some. by left.
    + rewrite IH. split.
      * intros (Hw & Hl). split; [done|]. intros i c' [?|[-> [=]]]%lookup_snoc_Some; auto.
      * intros (Hw & Hl). split; [done|]. intros i c' ?. apply Hl, lookup_snoc_Some. by left.
Qed.

Lemma elem_of_Experimental_apply_misplaced misplaced F w :
  w ∈ Experimental.apply_misplaced misplaced F ↔
  w ∈ F ∧ ∀ i m c, misplaced !! i = Some m → c ∈ m →
                   String.length w = 5 ∧ word_at w i ≠ Some c.
Proof.
  unfold Experimental.apply_misplaced.
  apply (foldl_enumerate_ind _
    (λ l R, w ∈ R ↔ w ∈ F ∧ ∀ i m c, l !! i = Some m → c ∈ m →
                                     String.length w = 5 ∧ word_at w i ≠ Some c)).
  - split; [intros ?; split; [done|]; intros i m c; by rewrite lookup_nil | by intros [? _]].
  - intros l x R IH.
    rewrite (elem_of_set_fold_filter
               (λ c w, String.length w = 5 ∧ word_at w (length l) ≠ Some c)), IH. split.
    + intros ((Hw & Hl) & Hx). split; [done|].
      intros i m c [?|[-> ->]]%lookup_snoc_Some; eauto.
    + intros (Hw & Hl). split; [split; [done|]|].
      * intros i m c ?. apply Hl, lookup_snoc_Some. by left.
      * intros c. apply Hl, lookup_snoc_Some. by right.
Qed.

Lemma elem_of_Experimental_filter_words s w :
  let u := Experimental._update_internal_state_from_history s in
  w ∈ (Experimental.filter_words s).2 ↔
    w ∈ possible_answers s
    ∧ (∀ i c, _known_letters u !! i = Some (Some c) →
              String.length w = 5 ∧ word_at w i = Some c)
    ∧ (∀ c, c ∈ _present_letters u → c ∈ letters w)
    ∧ (∀ i m c, _misplaced_letters u !! i = Some m → c ∈ m →
                String.length w = 5 ∧ word_at w i ≠ Some c)
    ∧ (∀ c, c ∈ active_exclusions u → c ∉ letters w)
    ∧ Experimental.valid (Experimental.letter_counts u).1 (Experimental.letter_counts u).2 w.
Proof.
  simpl. unfold Experimental.filter_words.
  destruct (Experimental.letter_counts _) as [mn ex] eqn:E. simpl.
  rewrite elem_of_filter, elem_of_apply_exclusions, elem_of_Experimental_apply_misplaced,
    elem_of_apply_present, elem_of_Experimental_apply_known.
  pose proof (Experimental_update_frame s) as Hf. injection Hf as _ -> _ _.
  naive_solver.
Qed.

(** C2 holds of the experimental solver: after SPEED / GXYXX every
    candidate starts with S, has no P and no D, has no E at position 2 and
    has exactly one E. *)
Lemma Experimental_speed_scenario pool w :
  w ∈ Experimental.computeCandidates [("speed", "GXYXX")] pool →
  word_at w 0 = Some "s"%char
  ∧ ("p"%char ∉ letters w)
  ∧ ("d"%char ∉ letters w)
  ∧ word_at w 2 ≠ Some "e"%char
  ∧ multiplicity "e"%char (Counter w) = 1.
Proof.
  unfold Experimental.computeCandidates.
  intros (_ & Hk & _ & Hm & Ha & _ & Hex)%elem_of_Experimental_filter_words.
  split_and!.
  - by apply (Hk 0 "s"%char).
  - apply Ha. by_compute.
  - apply Ha. by_compute.
  - apply (Hm 2 {["e"%char]} "e"%char); [by vm_compute|set_solver].
  - assert ((Experimental.letter_counts (Experimental._update_internal_state_from_history
               (mkSolver pool pool 0 [("speed", "GXYXX")]
                  (replicate 5 None) (replicate 5 ∅) ∅ ∅))).2 !! "e"%char = Some 1) as He
      by (by vm_compute).
    apply Hex in He. simpl in He. lia.
Qed.

Lemma Experimental_score_step_None s pf lf mode l :
  foldl (Experimental.score_step s pf lf mode) None l = None.
Proof. by induction l. Qed.

Lemma Experimental_score_step_Some s pf lf mode l acc :
  foldl (Experimental.score_step s pf lf mode) acc l ≠ None →
  ∀ i c, (i, c) ∈ l →
    (c ∉ active_exclusions s) ∧ ∀ k, _known_letters s !! i = Some (Some k) → k = c.
Proof.
  revert acc. induction l as [|[j x] l IH]; intros acc Hacc i c Hin; [by apply elem_of_nil in Hin|].
  simpl in Hacc. apply elem_of_cons in Hin as [[= -> ->]|Hin]; [|by eapply IH].
  destruct acc as [[score used]|]; [|by rewrite Experimental_score_step_None in Hacc].
  unfold Experimental.score_step in Hacc at 2. simpl in Hacc.
  destruct (decide (x ∈ _excluded_letters s ∧ x ∈ active_exclusions s)) as [|Hnex];
    [by rewrite Experimental_score_step_None in Hacc|].
  destruct (decide (is_Some (default None (_known_letters s !! j))
                    ∧ default None (_known_letters s !! j) ≠ Some x)) as [|Hnk];
    [by rewrite Experimental_score_step_None in Hacc|].
  split.
  - intros Hact. apply Hnex. split; [|done]. unfold active_exclusions in Hact. set_solver.
  - intros k Hk. rewrite Hk in Hnk. simpl in Hnk.
    destruct (decide (k = x)) as [|Hne]; [done|]. destruct Hnk. split; [by eexists|congruence].
Qed.

Lemma Experimental_score_finite pow s w pf lf cp mode :
  Experimental.score_word pow s w pf lf cp mode ≠ neg_inf → admissible s w.
Proof.
  unfold Experimental.score_word. intros Hsc i c Hic.
  eapply Experimental_score_step_Some; [|by apply elem_of_enumerate].
  intros Hnone. by rewrite Hnone in Hsc.
Qed.

Lemma elem_of_heappush heap item x :
  x ∈ Experimental.heappush heap item ↔ x = item ∨ x ∈ heap.
Proof.
  induction heap as [|y heap IH]; simpl.
  - rewrite list_elem_of_singleton, elem_of_nil. naive_solver.
  - destruct (item_ltb item y); rewrite !elem_of_cons, ?IH; naive_solver.
Qed.

Lemma elem_of_tail {A} (l : list A) x : x ∈ tail l → x ∈ l.
Proof. destruct l; simpl; [done|]. by right. Qed.

Lemma Experimental_heap_admissible pow s cp pf lf mode K l heap :
  (∀ item, item ∈ heap → admissible s item.2) →
  ∀ item, item ∈ foldl (Experimental.suggest_step pow s cp pf lf mode K) heap l →
          admissible s item.2.
Proof.
  revert heap. induction l as [|w l IH]; intros heap Hheap; simpl; [done|].
  apply IH. intros item. unfold Experimental.suggest_step.
  destruct (Experimental.score_word pow s w pf lf cp mode) as [|q] eqn:Hsc; simpl; [by auto|].
  assert (admissible s w) as Hw.
  { eapply (Experimental_score_finite pow s w pf lf cp mode). by rewrite Hsc. }
  destruct (decide _).
  - intros [->|?]%elem_of_heappush; [done|by auto].
  - intros [->|?]%elem_of_tail%elem_of_heappush; [done|by auto].
Qed.

Lemma Experimental_candidate_admissible s w :
  w ∈ (Experimental.filter_words s).2 → admissible (Experimental.filter_words s).1 w.
Proof.
  intros (_ & Hk & _ & _ & Ha & _)%elem_of_Experimental_filter_words.
  unfold Experimental.filter_words. destruct (Experimental.letter_counts _). simpl.
  intros i c Hic. split.
  - intros Hact. apply (Ha c Hact). by eapply list_elem_of_lookup_2.
  - intros k [_ Hk']%Hk. congruence.
Qed.

(** C4 holds of the experimental solver: whatever the history, the mode
    and the number of suggestions asked for, every word it suggests is
    admissible. *)
Lemma Experimental_suggestions_admissible pow iter s mode K w :
  iteration_order iter →
  w ∈ (Experimental.suggest_guess pow iter s mode K).2 →
  w ≠ "No valid words remaining." →
  admissible (Experimental.filter_words s).1 w.
Proof.
  intros Hit. pose proof (Experimental_candidate_admissible s) as Hcand.
  unfold Experimental.suggest_guess.
  destruct (Experimental.filter_words s) as [s1 cp]. simpl in *.
  destruct (decide (cp = ∅)); simpl.
  { by intros ->%list_elem_of_singleton. }
  destruct (decide (size cp = 1)) as [Hone|]; simpl.
  { destruct (iteration_singleton iter cp Hit Hone) as (w0 & -> & ->). simpl.
    intros ->%list_elem_of_singleton _. apply Hcand. set_solver. }
  set (heap := foldl _ [] _).
  assert (∀ item, item ∈ heap → admissible s1 item.2) as Hheap.
  { apply Experimental_heap_admissible. intros item ?%elem_of_nil. done. }
  destruct (heap.*2) as [|w1 ws] eqn:Hfinal; simpl.
  - intros Hin%subseteq_take _. apply Hcand.
    rewrite merge_sort_Permutation, (Hit cp) in Hin. by apply elem_of_elements in Hin.
  - intros Hin _. rewrite <- Hfinal in Hin.
    apply list_elem_of_fmap in Hin as (item & -> & Hitem). by apply Hheap.
Qed.

Lemma Experimental_score_word_pow pow pow' s w pf lf cp mode :
  pow (float_round 0.95) (Experimental.green_reuse s w)
  = pow' (float_round 0.95) (Experimental.green_reuse s w) →
  Experimental.score_word pow s w pf lf cp mode
  = Experimental.score_word pow' s w pf lf cp mode.
Proof. unfold Experimental.score_word. by intros ->. Qed.

Lemma foldl_ext_elem {A B} (f g : B → A → B) (l : list A) (b : B) :
  (∀ a, a ∈ l → ∀ b, f b a = g b a) → foldl f b l = foldl g b l.
Proof.
  revert b. induction l as [|a l IH]; intros b Hfg; simpl; [done|].
  rewrite (Hfg a) by (by left). apply IH. intros a' Ha'. apply Hfg. by right.
Qed.

(** The suggestions depend on the platform's [pow] only through the
    powers that the scores of the words of the pool take, and not at all
    when fewer than two candidates remain. *)
Lemma Experimental_suggest_guess_pow pow pow' iter s (mode : bool) K :
  let s1 := (Experimental.filter_words s).1 in
  let cp := (Experimental.filter_words s).2 in
  (size cp ≠ 1 →
   ∀ w, w ∈ iter ((if mode then all_words s1 else cp) ∖ list_to_set (feedback_history s1).*1) →
        pow (float_round 0.95) (Experimental.green_reuse s1 w)
        = pow' (float_round 0.95) (Experimental.green_reuse s1 w)) →
  Experimental.suggest_guess pow iter s mode K = Experimental.suggest_guess pow' iter s mode K.
Proof.
  cbv zeta. intros Hpow. unfold Experimental.suggest_guess.
  destruct (Experimental.filter_words s) as [s1 cp]. simpl in *.
  destruct (decide (cp = ∅)); [done|]. destruct (decide (size cp = 1)) as [|Hsz]; [done|].
  erewrite foldl_ext_elem; [done|].
  intros w Hw heap. unfold Experimental.suggest_step.
  rewrite (Experimental_score_word_pow pow pow'); [done|]. by apply Hpow.
Qed.

(** On the input where the V3 solver suggests DAISY, the experimental
    solver suggests candidates only, on any platform whose [pow] gives
    [x ** 0 = 1.0] and [x ** 1 = x]. *)
Lemma Experimental_does_not_suggest_daisy pow :
  (∀ x, pow x 0 = 1%Q) → (∀ x, pow x 1 = x) →
  let words : gset string := {["sassy"; "sissy"; "daisy"; "shout"]} in
  let s := (Experimental.filter_words
              (append_feedback "shout" "GXXXX" (init words words))).1 in
  (Experimental.suggest_guess pow elements s true 5).2 = ["sassy"; "sissy"].
Proof.
  intros Hpow0 Hpow1. cbv zeta.
  rewrite (Experimental_suggest_guess_pow pow
             (λ x n, match n with 0 => 1%Q | _ => x end)); [by vm_compute|].
  cbv zeta. intros _ w Hw. vm_compute in Hw.
  repeat (apply elem_of_cons in Hw as [->|Hw]); [..|by apply elem_of_nil in Hw];
    vm_compute; first [apply Hpow0 | apply Hpow1].
Qed.

(** The experimental solver too returns a sole candidate that was
    already guessed. *)
Lemma Experimental_suggests_sole_candidate_again pow :
  (Experimental.suggest_guess pow elements
     (append_feedback "apple" "GGGGG" (init {["apple"; "ample"]} {["apple"; "ample"]}))
     false 5).2 = ["apple"].
Proof.
  rewrite (Experimental_suggest_guess_pow pow (λ _ _, 0%Q)); [by vm_compute|].
  cbv zeta. intros Hsz. exfalso. apply Hsz. by vm_compute.
Qed.

(** *** The heap of suggestions *)

Lemma heappush_cons x heap item :
  Experimental.heappush (x :: heap) item
  = if item_ltb item x then item :: x :: heap else x :: Experimental.heappush heap item.
Proof. done. Qed.

Section heap.
Context (score : string → float) (cp : gset string) (K : nat).

Lemma item_ltb_before a b :
  float_eqb (score a) neg_inf = false → float_eqb (score b) neg_inf = false →
  item_ltb (heap_item score cp a) (heap_item score cp b) = true
  ↔ before (λ w, score_value (score w)) (λ w, bool_decide (w ∈ cp)) a b.
Proof.
  unfold heap_item, item_ltb, before.
  destruct (score a) as [|qa], (score b) as [|qb]; try done. intros _ _. simpl.
  destruct (Qeq_bool (- qa) (- qb)) eqn:E.
  - apply Qeq_bool_iff in E.
    assert (qb == qa)%Q as Heq by (unfold Qeq in *; simpl in *; lia).
    assert (¬ (qb < qa)%Q) as Hnlt by (rewrite Heq; apply Qlt_irrefl).
    destruct (bool_decide (a ∈ cp)), (bool_decide (b ∈ cp)); simpl; naive_solver.
  - assert (¬ (qb == qa)%Q) as Hne.
    { intros Heq. apply Qeq_bool_neq in E. apply E.
      unfold Qeq in *; simpl in *; lia. }
    rewrite negb_true_iff, <- not_true_iff_false, Qle_bool_iff.
    split.
    + intros Hn. left. apply Qnot_le_lt in Hn.
      unfold Qlt in *; simpl in *; lia.
    + intros [Hlt|[? _]]; [|done]. intros Hle.
      unfold Qlt, Qle in *; simpl in *; lia.
Qed.

Lemma heappush_words ws w :
  float_eqb (score w) neg_inf = false →
  Forall (λ v, float_eqb (score v) neg_inf = false) ws →
  w ∉ ws →
  StronglySorted (before (λ w, score_value (score w)) (λ w, bool_decide (w ∈ cp))) ws →
  ∃ ws1 ws2,
    ws = ws1 ++ ws2
    ∧ Experimental.heappush (heap_item score cp <$> ws) (heap_item score cp w)
      = heap_item score cp <$> (ws1 ++ w :: ws2)
    ∧ Forall (λ v, before (λ w, score_value (score w)) (λ w, bool_decide (w ∈ cp)) v w) ws1
    ∧ Forall (before (λ w, score_value (score w)) (λ w, bool_decide (w ∈ cp)) w) ws2.
Proof.
  intros Hw. induction ws as [|x ws IH]; intros Hrk Hnin Hsorted.
  - exists [], []. by split_and!.
  - apply Forall_cons in Hrk as [Hx Hrk]. apply not_elem_of_cons in Hnin as [Hne Hnin].
    apply StronglySorted_cons in Hsorted as [Hxs Hsorted].
    rewrite fmap_cons, heappush_cons.
    destruct (item_ltb (heap_item score cp w) (heap_item score cp x)) eqn:E.
    + apply item_ltb_before in E; [|done..].
      exists [], (x :: ws). split_and!; try done.
      apply Forall_cons. split; [done|].
      eapply Forall_impl; [exact Hxs|]. intros v Hv. simpl in Hv.
      by eapply before_trans.
    + assert (before (λ w, score_value (score w)) (λ w, bool_decide (w ∈ cp)) x w) as Hxw.
      { destruct (before_total (λ w, score_value (score w)) (λ w, bool_decide (w ∈ cp))
                    (λ _, false) w x Hne)
          as [Hb|Hb]; [|done].
        apply item_ltb_before in Hb; [|done..]. congruence. }
      destruct (IH Hrk Hnin Hsorted) as (ws1 & ws2 & -> & -> & H1 & H2).
      exists (x :: ws1), ws2. split_and!; try done.
      by apply Forall_cons.
Qed.

(** What the heap holds after the loop has run over the words [l]: the
    items of ranked words of [l], in ascending order, at most
    [num_suggestions] of them, every ranked word left out being smaller
    than all that are kept. *)
Lemma heap_invariant l :
  NoDup l →
  ∃ ws,
    foldl (heap_step score cp K) [] l = heap_item score cp <$> ws
    ∧ StronglySorted (before (λ w, score_value (score w)) (λ w, bool_decide (w ∈ cp))) ws
    ∧ (∀ v, v ∈ ws → v ∈ l ∧ float_eqb (score v) neg_inf = false)
    ∧ (∀ v, v ∈ l → float_eqb (score v) neg_inf = false →
            v ∈ ws
            ∨ length ws = K
              ∧ ∀ x, x ∈ ws →
                  before (λ w, score_value (score w)) (λ w, bool_decide (w ∈ cp)) v x)
    ∧ length ws ≤ K.
Proof.
  apply (foldl_ind (heap_step score cp K) (λ l acc,
    NoDup l →
    ∃ ws,
      acc = heap_item score cp <$> ws
      ∧ StronglySorted (before (λ w, score_value (score w)) (λ w, bool_decide (w ∈ cp))) ws
      ∧ (∀ v, v ∈ ws → v ∈ l ∧ float_eqb (score v) neg_inf = false)
      ∧ (∀ v, v ∈ l → float_eqb (score v) neg_inf = false →
              v ∈ ws
              ∨ length ws = K
                ∧ ∀ x, x ∈ ws →
                    before (λ w, score_value (score w)) (λ w, bool_decide (w ∈ cp)) v x)
      ∧ length ws ≤ K)).
  - intros _. exists []. split; [done|]. split; [apply SSorted_nil|].
    split; [by intros v []%elem_of_nil|]. split; [by intros v []%elem_of_nil|].
    simpl. lia.
  - intros l' w acc IH (Hnd & Hdisj & _)%NoDup_app.
    assert (w ∉ l') as Hw by (intros Hv; apply (Hdisj w Hv); set_solver).
    destruct (IH Hnd) as (ws & -> & Hsorted & Hin & Hout & Hlen).
    unfold heap_step. destruct (float_eqb (score w) neg_inf) eqn:Hrk.
    { exists ws. split_and!; try done.
      - intros v Hv. destruct (Hin v Hv). split; [|done]. apply elem_of_snoc. by left.
      - intros v [Hv| ->]%elem_of_snoc Hrv; [by apply Hout|congruence]. }
    assert (w ∉ ws) as Hnw by (intros Hv; by destruct (Hin w Hv)).
    assert (Forall (λ v, float_eqb (score v) neg_inf = false) ws) as Hall.
    { apply Forall_forall. intros v Hv. by destruct (Hin v Hv). }
    destruct (heappush_words ws w Hrk Hall Hnw Hsorted) as (ws1 & ws2 & -> & Hpush & H1 & H2).
    assert (StronglySorted (before (λ w, score_value (score w)) (λ w, bool_decide (w ∈ cp)))
              (ws1 ++ w :: ws2)) as Hsorted'.
    { apply StronglySorted_app in Hsorted as (H12 & Hs1 & Hs2).
      apply StronglySorted_app. split_and!; try done.
      - intros x1 x2 Hx1 [->|Hx2]%elem_of_cons; [|by apply H12].
        rewrite Forall_forall in H1. by apply H1.
      - apply StronglySorted_cons. by split. }
    rewrite length_fmap. destruct (decide (length (ws1 ++ ws2) < K)) as [Hlt|Hge].
    + exists (ws1 ++ w :: ws2). rewrite Hpush. split_and!; try done.
      * intros v Hv. rewrite elem_of_snoc.
        apply elem_of_app in Hv as [Hv|[->|Hv]%elem_of_cons]; [|by auto|].
        -- destruct (Hin v) as [? ?]; [apply elem_of_app; by left|]. auto.
        -- destruct (Hin v) as [? ?]; [apply elem_of_app; by right|]. auto.
      * intros v [Hv| ->]%elem_of_snoc Hrv.
        -- destruct (Hout v Hv Hrv) as [Hvin|[? _]]; [|lia]. left.
           apply elem_of_app in Hvin as [?|?]; set_solver.
        -- left. set_solver.
      * rewrite length_app in *. simpl. lia.
    + assert (length (ws1 ++ ws2) = K) as HK by lia.
      unfold Experimental.heappushpop. rewrite Hpush, <- fmap_tail.
      exists (tail (ws1 ++ w :: ws2)). split; [done|].
      destruct ws1 as [|m ws1]; simpl in *.
      * split_and!; try done.
        -- intros v Hv. destruct (Hin v Hv). split; [|done]. apply elem_of_snoc. by left.
        -- intros v [Hv| ->]%elem_of_snoc Hrv; [by apply Hout|].
           right. split; [done|]. intros x Hx. rewrite Forall_forall in H2. by apply H2.
      * apply StronglySorted_cons in Hsorted' as [Hm Hsorted'].
        apply Forall_cons in H1 as [Hmw H1].
        split_and!; try done.
        -- intros v Hv. rewrite elem_of_snoc.
           apply elem_of_app in Hv as [Hv|[->|Hv]%elem_of_cons]; [|by auto|].
           ++ destruct (Hin v) as [? ?]; [set_solver|]. auto.
           ++ destruct (Hin v) as [? ?]; [set_solver|]. auto.
        -- assert (length (ws1 ++ w :: ws2) = K) as HK'.
           { rewrite length_app in *. simpl in *. lia. }
           intros v [Hv| ->]%elem_of_snoc Hrv; [|left; set_solver].
           destruct (Hout v Hv Hrv) as [Hvin|[_ Hsmall]].
           ++ apply elem_of_cons in Hvin as [->|Hvin].
              ** right. split; [done|]. intros x Hx.
                 rewrite Forall_forall in Hm. by apply Hm.
              ** left. apply elem_of_app in Hvin as [?|?]; set_solver.
           ++ right. split; [done|]. intros x Hx.
              apply elem_of_app in Hx as [Hx|[->|Hx]%elem_of_cons].
              ** apply Hsmall. set_solver.
              ** eapply before_trans; [|exact Hmw]. apply Hsmall. set_solver.
              ** apply Hsmall. set_solver.
        -- rewrite length_app in *. simpl in *. lia.
Qed.

End heap.

(** *** The suggestions of the experimental variant *)

Lemma elem_of_iter iter (X : gset string) v :
  iteration_order iter → v ∈ iter X ↔ v ∈ X.
Proof. intros Hit. by rewrite (Hit X), elem_of_elements. Qed.

Lemma heap_words score cp (ws : list string) : (heap_item score cp <$> ws).*2 = ws.
Proof. induction ws as [|w ws IH]; [done|]. rewrite !fmap_cons, IH. done. Qed.

Lemma Experimental_filter_words_frame s :
  all_words (Experimental.filter_words s).1 = all_words s
  ∧ feedback_history (Experimental.filter_words s).1 = feedback_history s.
Proof.
  unfold Experimental.filter_words. destruct (Experimental.letter_counts _). simpl.
  pose proof (Experimental_update_frame s) as Hf. by injection Hf as -> _ _ ->.
Qed.

(** The loop of [Experimental.suggest_guess], over the words it ranks:
    with two candidates or more, the suggestions are the words the heap
    holds, or the fallback when it holds none. *)
Lemma Experimental_suggest_guess_heap pow iter s (mode : bool) K :
  iteration_order iter →
  2 ≤ size (Experimental.filter_words s).2 →
  let cp := (Experimental.filter_words s).2 in
  let sc := Experimental_score pow s mode in
  ∃ ws,
    (Experimental.suggest_guess pow iter s mode K).2
    = match ws with
      | [] => take K (merge_sort String.le (iter cp))
      | _ => ws
      end
    ∧ StronglySorted (before (λ w, score_value (sc w)) (λ w, bool_decide (w ∈ cp))) ws
    ∧ (∀ v, v ∈ ws → v ∈ rankable pow s mode)
    ∧ (∀ v, v ∈ rankable pow s mode →
            v ∈ ws
            ∨ length ws = K
              ∧ ∀ x, x ∈ ws →
                  before (λ w, score_value (sc w)) (λ w, bool_decide (w ∈ cp)) v x)
    ∧ length ws ≤ K.
Proof.
  intros Hit Hsz. cbv zeta.
  unfold Experimental.suggest_guess, rankable, Experimental_score.
  destruct (Experimental.filter_words s) as [s1 cp]. simpl in *.
  rewrite decide_False by (intros ->; rewrite size_empty in Hsz; lia).
  rewrite decide_False by lia.
  set (sc := λ w, Experimental.score_word pow s1 w (calculate_positional_frequencies cp)
                    (calculate_letter_frequencies cp) cp mode).
  set (pool := (if mode then all_words s1 else cp) ∖ list_to_set (feedback_history s1).*1).
  assert (NoDup (iter pool)) as Hnd by (rewrite (Hit pool); apply NoDup_elements).
  destruct (heap_invariant sc cp K (iter pool) Hnd) as (ws & Hfold & Hsorted & Hin & Hout & Hlen).
  exists ws.
  change (foldl (Experimental.suggest_step pow s1 cp (calculate_positional_frequencies cp)
                   (calculate_letter_frequencies cp) mode K) [] (iter pool))
    with (foldl (heap_step sc cp K) [] (iter pool)).
  rewrite Hfold, heap_words.
  split_and!; try done.
  - by destruct ws.
  - intros v Hv. destruct (Hin v Hv) as [Hvl Hrk]. apply elem_of_filter. split; [done|].
    by apply (elem_of_iter iter pool v Hit).
  - intros v [Hrk Hv]%elem_of_filter. apply Hout; [|done].
    by apply (elem_of_iter iter pool v Hit).
Qed.

Lemma rankable_unspent pow s mode w :
  w ∈ rankable pow s mode → w ∉ (feedback_history s).*1.
Proof.
  unfold rankable. intros [_ [_ Hw]%elem_of_difference]%elem_of_filter Hin.
  apply Hw. destruct (Experimental_filter_words_frame s) as [_ ->].
  by apply elem_of_list_to_set.
Qed.

(** *** Spent guesses *)

Lemma Experimental_suggest_guess_skips_spent pow iter s (mode : bool) K :
  iteration_order iter →
  Wordle.wf_history (feedback_history s) →
  let cp := (Experimental.filter_words s).2 in
  let suggestions := (Experimental.suggest_guess pow iter s mode K).2 in
  (size cp ≠ 1 → (cp ≠ ∅ → rankable pow s mode ≠ ∅) →
   ∀ w, w ∈ suggestions → w ∉ (feedback_history s).*1)
  ∧ (2 ≤ size cp → rankable pow s mode = ∅ →
     suggestions = take K (merge_sort String.le (iter cp)))
  ∧ (size cp = 1 → ∃ w, cp = {[w]} ∧ suggestions = [w]).
Proof.
  intros Hit Hwf. cbv zeta. split_and!.
  - intros Hsz Hrk w Hw Hspent.
    pose proof (spent_guess_length _ _ Hwf Hspent) as Hlen.
    destruct (decide ((Experimental.filter_words s).2 = ∅)) as [Hempty|Hne].
    { unfold Experimental.suggest_guess in Hw.
      destruct (Experimental.filter_words s) as [s1 cp]. simpl in *.
      rewrite decide_True in Hw by done. simpl in Hw.
      apply list_elem_of_singleton in Hw as ->. by vm_compute in Hlen. }
    assert (2 ≤ size (Experimental.filter_words s).2) as Htwo.
    { assert (size (Experimental.filter_words s).2 ≠ 0); [|lia].
      intros ?%size_empty_iff. apply Hne. by apply leibniz_equiv. }
    destruct (Experimental_suggest_guess_heap pow iter s mode K Hit Htwo)
      as (ws & Hres & _ & Hin & Hout & _).
    rewrite Hres in Hw. destruct ws as [|w0 ws].
    + specialize (Hrk Hne).
      assert (∃ v, v ∈ rankable pow s mode) as [v Hv].
      { apply set_choose_L. done. }
      destruct (Hout v Hv) as [[]%elem_of_nil|[HK _]]. simpl in HK. subst K.
      rewrite take_0 in Hw. by apply elem_of_nil in Hw.
    + apply (rankable_unspent pow s mode w); [by apply Hin|done].
  - intros Htwo Hrk.
    destruct (Experimental_suggest_guess_heap pow iter s mode K Hit Htwo)
      as (ws & -> & _ & Hin & _).
    destruct ws as [|w0 ws]; [done|].
    assert (w0 ∈ rankable pow s mode) as Hw0 by (apply Hin; by left).
    rewrite Hrk in Hw0. by apply elem_of_empty in Hw0.
  - intros Hone. unfold Experimental.suggest_guess.
    destruct (Experimental.filter_words s) as [s1 cp]. simpl in *.
    destruct (iteration_singleton iter cp Hit Hone) as (w & -> & Hw).
    exists w. split; [done|].
    rewrite decide_False by set_solver. rewrite decide_True by done. by rewrite Hw.
Qed.

(** C5 (as amended): for every history of five-letter guesses and every
    mode.  V3: when the candidate set does not consist of exactly one
    word, [suggest_guess] does not return a word that occurs as a guess
    in the history; when exactly one candidate remains, that candidate
    is what it returns, guessed before or not.  The experimental
    variant: the same, as long as some word it ranks has a score above
    [-inf]; when two candidates or more remain and it can rank no word,
    it falls back on the first candidates in alphabetical order, guessed
    before or not. *)
Theorem suggest_guess_skips_spent_guesses pow iter s (mode : bool) K :
  iteration_order iter →
  Wordle.wf_history (feedback_history s) →
  (let cp := (filter_words s).2 in
   let suggestion := (suggest_guess iter s mode).2 in
   (size cp ≠ 1 → suggestion ∉ (feedback_history s).*1)
   ∧ (size cp = 1 → cp = {[suggestion]}))
  ∧ (let cp := (Experimental.filter_words s).2 in
     let suggestions := (Experimental.suggest_guess pow iter s mode K).2 in
     (size cp ≠ 1 → (cp ≠ ∅ → rankable pow s mode ≠ ∅) →
      ∀ w, w ∈ suggestions → w ∉ (feedback_history s).*1)
     ∧ (2 ≤ size cp → rankable pow s mode = ∅ →
        suggestions = take K (merge_sort String.le (iter cp)))
     ∧ (size cp = 1 → ∃ w, cp = {[w]} ∧ suggestions = [w])).
Proof.
  intros Hit Hwf. split.
  - by apply V3_suggest_guess_skips_spent.
  - by apply Experimental_suggest_guess_skips_spent.
Qed.

Lemma suggest_guess_skips_spent_guesses_witness :
  let s := append_feedback "shout" "GXXXX"
             (init {["sassy"; "sissy"; "daisy"; "shout"]} {["sassy"; "sissy"; "daisy"; "shout"]}) in
  iteration_order elements
  ∧ Wordle.wf_history (feedback_history s)
  ∧ (size (filter_words s).2 ≠ 1
     → (suggest_guess elements s false).2 ∉ (feedback_history s).*1).
Proof.
  set (s := append_feedback _ _ _).
  assert (iteration_order elements) as H1 by (by intros X).
  assert (Wordle.wf_history (feedback_history s)) as H2 by wf_history_compute.
  exact (conj H1 (conj H2
           (proj1 (proj1 (suggest_guess_skips_spent_guesses (λ x _, x) elements s false 5
                            H1 H2))))).
Defined.

(** C5 (as stated) fails.  V3: after APPLE / GGGGG the only candidate is
    APPLE, and it is suggested again.  The experimental variant: after
    DEFGH / YYXXX, ABCDE / GGGXX and ABCED / GGGXX two candidates remain,
    both guessed, no word is left to rank, and the fallback returns
    both. *)
Lemma spent_guess_is_suggested_again :
  ¬ (∀ iter s mode,
       iteration_order iter → Wordle.wf_history (feedback_history s) →
       (suggest_guess iter s mode).2 ∉ (feedback_history s).*1)
  ∧ ¬ (∀ pow iter s mode K,
         iteration_order iter → Wordle.wf_history (feedback_history s) →
         size (Experimental.filter_words s).2 ≠ 1 →
         ∀ w, w ∈ (Experimental.suggest_guess pow iter s mode K).2 →
              w ∉ (feedback_history s).*1).
Proof.
  split.
  - intros Hclaim.
    apply (Hclaim elements
             (append_feedback "apple" "GGGGG" (init {["apple"; "ample"]} {["apple"; "ample"]}))
             false).
    + by intros X.
    + wf_history_compute.
    + by_compute.
  - intros Hclaim.
    set (words := {["abcde"; "abced"; "defgh"]} : gset string).
    set (s := append_feedback "abced" "GGGXX"
                (append_feedback "abcde" "GGGXX"
                   (append_feedback "defgh" "YYXXX" (init words words)))).
    apply (Hclaim (λ x _, x) elements s false 5 (λ X, reflexivity _)
             ltac:(wf_history_compute) ltac:(by vm_compute) "abcde").
    + by_compute.
    + by_compute.
Qed.

(** *** The terminal variant and the iteration order *)

(** C7 fails of the terminal variant.  CRANE and MOIST share no letter,
    each scores 5.0 on the pool of the two, and [suggest_guess] of the
    terminal variant keeps the first word that reaches the best score:
    it returns CRANE when the set yields CRANE first and MOIST when it
    yields MOIST first.  The V3 solver returns CRANE on both orders. *)
Theorem Terminal_suggestion_follows_iteration_order :
  let words : gset string := {["crane"; "moist"]} in
  let positional_frequencies := calculate_positional_frequencies words in
  let letter_frequencies := calculate_letter_frequencies words in
  iteration_order elements
  ∧ iteration_order (λ X, reverse (elements X))
  ∧ (Terminal.score_word "crane" positional_frequencies letter_frequencies false
     == Terminal.score_word "moist" positional_frequencies letter_frequencies false)%Q
  ∧ Terminal.suggest_guess elements words words false = "crane"
  ∧ Terminal.suggest_guess (λ X, reverse (elements X)) words words false = "moist"
  ∧ (suggest_guess elements (init words words) false).2 = "crane"
  ∧ (suggest_guess (λ X, reverse (elements X)) (init words words) false).2 = "crane".
Proof.
  cbv zeta. split_and!.
  - by intros X.
  - intros X. apply reverse_Permutation.
  - by vm_compute.
  - by vm_compute.
  - by vm_compute.
  - by vm_compute.
  - by vm_compute.
Qed.

(** ** Further properties of the solver *)

(** *** What the rebuilt state holds *)

Lemma green_pass_confirmed s cnt (z : list (ascii * ascii)) c :
  0 < multiplicity c (foldl green_step (s, cnt) (enumerate z)).2 →
  0 < multiplicity c cnt ∨ ∃ i, z !! i = Some (c, "G"%char).
Proof.
  apply (foldl_enumerate_ind green_step (λ l acc,
    0 < multiplicity c acc.2 →
    0 < multiplicity c cnt ∨ ∃ i, l !! i = Some (c, "G"%char))).
  - auto.
  - intros l [x st] [s1 cnt1] IH. unfold green_step.
    setoid_rewrite lookup_snoc_Some.
    destruct (decide (st = "G"%char)) as [->|Hst]; simpl in *.
    + rewrite multiplicity_disj_union, multiplicity_singleton.
      case_decide as Hc; [subst; naive_solver|].
      intros Hpos. destruct IH as [?|[i ?]]; [lia|by left|right; eauto].
    + intros Hpos. destruct IH as [?|[i ?]]; [done|by left|right; eauto].
Qed.

Lemma green_pass_known_exact s cnt (z : list (ascii * ascii)) i c :
  z !! i = Some (c, "G"%char) → i < length (_known_letters s) →
  _known_letters (foldl green_step (s, cnt) (enumerate z)).1 !! i = Some (Some c).
Proof.
  revert i c.
  apply (foldl_enumerate_ind green_step (λ l acc,
    length (_known_letters acc.1) = length (_known_letters s)
    ∧ ∀ i c, l !! i = Some (c, "G"%char) → i < length (_known_letters s) →
             _known_letters acc.1 !! i = Some (Some c))).
  - split; [done|]. intros i c. by rewrite lookup_nil.
  - intros l [x st] [s1 cnt1] [Hlen IH]. unfold green_step.
    destruct (decide (st = "G"%char)) as [->|Hst]; simpl in *.
    + split; [by rewrite length_insert|].
      intros i c [Hi|[-> [= ->]]]%lookup_snoc_Some Hlt.
      * rewrite list_lookup_insert_ne; [by apply IH|].
        apply lookup_lt_Some in Hi. lia.
      * apply list_lookup_insert_eq. by rewrite Hlen.
    + split; [done|].
      intros i c [Hi|[-> [= -> ->]]]%lookup_snoc_Some Hlt; [by apply IH|done].
Qed.

(** The CORRECT marks of the last entry are the known letters, whatever
    came before. *)
Lemma update_guess_known_exact s g fb i c :
  marked [(g, fb)] i c "G" → i < length (_known_letters s) →
  _known_letters (update_guess s (g, fb)) !! i = Some (Some c).
Proof.
  intros Hm%marked_singleton Hi. unfold update_guess, enum_zip.
  destruct (foldl green_step (s, ∅) (enumerate (zip (letters g) (letters fb))))
    as [s1 cnt1] eqn:E.
  destruct (yellow_gray_pass_spec (Counter g) s1 cnt1 (zip (letters g) (letters fb)))
    as (_ & -> & _).
  replace s1 with (foldl green_step (s, ∅)
                     (enumerate (zip (letters g) (letters fb)))).1 by (by rewrite E).
  by apply green_pass_known_exact.
Qed.

(** The second pass excludes a letter it sees marked ABSENT when nothing
    has shown the letter to be in the word. *)
Lemma yellow_gray_pass_excludes gc s cnt (z : list (ascii * ascii)) c :
  (c ∉ _present_letters s) → (Some c ∉ _known_letters s) →
  multiplicity c cnt = 0 → 0 < multiplicity c gc →
  (∀ i, z !! i ≠ Some (c, "Y"%char)) →
  (∃ i, z !! i = Some (c, "X"%char)) →
  c ∈ _excluded_letters (foldl (yellow_gray_step gc) (s, cnt) (enumerate z)).1.
Proof.
  intros Hp Hk Hcnt Hgc.
  apply (foldl_enumerate_ind (yellow_gray_step gc) (λ l acc,
    (∀ i, l !! i ≠ Some (c, "Y"%char)) →
    (c ∉ _present_letters acc.1) ∧ (Some c ∉ _known_letters acc.1)
    ∧ multiplicity c acc.2 = 0
    ∧ ((∃ i, l !! i = Some (c, "X"%char)) → c ∈ _excluded_letters acc.1))).
  - intros _. split_and!; try done. intros [i Hi]. by rewrite lookup_nil in Hi.
  - intros l [x st] [s1 cnt1] IH HnY.
    destruct IH as (Hp1 & Hk1 & Hc1 & He1).
    { intros i Hi. apply (HnY i), lookup_snoc_Some. by left. }
    assert (st = "Y"%char → x ≠ c) as HxY.
    { intros -> ->. apply (HnY (length l)), lookup_snoc_Some. by right. }
    unfold yellow_gray_step. simpl in *.
    destruct (decide (st = "Y"%char)) as [->|Hst]; simpl.
    + specialize (HxY eq_refl). split_and!.
      * set_solver.
      * done.
      * rewrite multiplicity_disj_union, multiplicity_singleton.
        rewrite decide_False by done. lia.
      * intros [i [Hi|[_ Heq]]%lookup_snoc_Some]; simplify_eq; eauto.
    + destruct (decide (st = "X"%char)) as [->|HstX].
      * destruct (decide (x = c)) as [->|Hxc].
        -- rewrite decide_True by lia. rewrite decide_True by done. simpl.
           split_and!; try done. intros _. set_solver.
        -- repeat case_decide; simpl; split_and!; try done;
             intros [i [Hi|[_ Heq]]%lookup_snoc_Some]; simplify_eq;
             first [set_solver | eauto].
      * split_and!; try done.
        intros [i [Hi|[_ Heq]]%lookup_snoc_Some]; simplify_eq; eauto.
Qed.

Lemma update_guess_excludes s g fb c :
  (c ∉ _present_letters s) → (Some c ∉ _known_letters s) →
  (∀ i, ¬ marked [(g, fb)] i c "G" ∧ ¬ marked [(g, fb)] i c "Y") →
  (∃ i, marked [(g, fb)] i c "X") →
  c ∈ _excluded_letters (update_guess s (g, fb)).
Proof.
  intros Hp Hk Hno [i Hx]. unfold update_guess, enum_zip.
  assert (∀ j, ¬ marked [(g, fb)] j c "G") as HnoG by (intros j; apply Hno).
  assert (∀ j, ¬ marked [(g, fb)] j c "Y") as HnoY by (intros j; apply Hno).
  set (z := zip (letters g) (letters fb)).
  destruct (foldl green_step (s, ∅) (enumerate z)) as [s1 cnt1] eqn:E.
  destruct (green_pass_spec s ∅ z) as (_ & _ & _ & _ & Hp1 & Hk1 & _).
  rewrite E in Hp1, Hk1. simpl in Hp1, Hk1.
  pose proof (green_pass_confirmed s ∅ z c) as Hc1. rewrite E in Hc1. simpl in Hc1.
  assert (∀ j, z !! j ≠ Some (c, "G"%char)) as HnG.
  { intros j Hj. apply (HnoG j). by apply marked_singleton. }
  apply yellow_gray_pass_excludes.
  - rewrite Hp1. naive_solver.
  - intros (j & Hj)%list_elem_of_lookup. apply Hk1 in Hj as [Hj|Hj].
    + apply Hk. by apply list_elem_of_lookup_2 in Hj.
    + by apply HnG in Hj.
  - destruct (multiplicity c cnt1) eqn:Ec; [done|].
    destruct Hc1 as [Hc1|[j Hj]]; [lia| |by apply HnG in Hj].
    rewrite multiplicity_empty in Hc1. lia.
  - apply elem_of_multiplicity, elem_of_Counter.
    apply marked_singleton in Hx. apply lookup_zip_letters in Hx as [Hx _].
    by apply list_elem_of_lookup_2 in Hx.
  - intros j Hj. apply (HnoY j). by apply marked_singleton.
  - exists i. by apply marked_singleton.
Qed.

(** The letters the filter bans from the whole word are the letters
    marked ABSENT somewhere and marked CORRECT or PRESENT nowhere. *)
Lemma active_exclusions_spec s c :
  let H := feedback_history s in
  c ∈ active_exclusions (_update_internal_state_from_history s) ↔
  (∃ i, marked H i c "X") ∧ ∀ i, ¬ marked H i c "G" ∧ ¬ marked H i c "Y".
Proof.
  simpl. unfold _update_internal_state_from_history.
  destruct (derived_state_spec s (feedback_history s))
    as (_ & _ & _ & Hp & Hk & _ & _ & He).
  set (u := foldl update_guess (reset_solver_state s) (feedback_history s)) in *.
  unfold active_exclusions. rewrite !elem_of_difference. split.
  - intros [[Hex Hnp] _]. split; [by apply He|].
    intros i. rewrite Hp in Hnp. naive_solver.
  - intros [[i Hx] Hno].
    assert (∀ j, ¬ marked (feedback_history s) j c "G") as HnoG by (intros j; apply Hno).
    assert (∀ j, ¬ marked (feedback_history s) j c "Y") as HnoY by (intros j; apply Hno).
    split_and!.
    + apply marked_elem_of in Hx as ([g fb] & Hin & Hx).
      apply list_elem_of_split in Hin as (H1 & H2 & HH).
      subst u. rewrite HH, foldl_app. simpl.
      apply update_excluded_mono.
      destruct (derived_state_spec s H1) as (_ & _ & _ & Hp1 & Hk1 & _).
      assert (∀ j st, marked H1 j c st → marked (feedback_history s) j c st) as Hup1.
      { intros j st Hj. rewrite HH. apply marked_app. by left. }
      assert (∀ j st, marked [(g, fb)] j c st → marked (feedback_history s) j c st) as Hup.
      { intros j st Hj. rewrite HH. apply marked_app. right.
        change ((g, fb) :: H2) with ([(g, fb)] ++ H2). apply marked_app. by left. }
      apply update_guess_excludes.
      * rewrite Hp1. intros [j [Hj|Hj]]; apply Hup1 in Hj; naive_solver.
      * intros (j & Hj)%list_elem_of_lookup. apply Hk1, Hup1 in Hj. naive_solver.
      * intros j. split; intros Hj%Hup; naive_solver.
      * eauto.
    + rewrite Hp. intros [j ?]. specialize (Hno j). naive_solver.
    + unfold known_set. rewrite elem_of_list_to_set, list_elem_of_omap.
      intros ([k|] & (j & Hj)%list_elem_of_lookup & [= ->]).
      apply Hk in Hj. naive_solver.
Qed.

(** *** What every candidate owes to the evidence *)

Lemma update_nil s :
  feedback_history s = [] →
  derived (_update_internal_state_from_history s) = (replicate 5 None, replicate 5 ∅, ∅, ∅)
  ∧ letter_counts (_update_internal_state_from_history s) = (∅, ∅).
Proof.
  intros Hnil. unfold letter_counts. rewrite update_feedback_history.
  unfold _update_internal_state_from_history. by rewrite Hnil.
Qed.

Lemma filter_words_nil s :
  feedback_history s = [] → (filter_words s).2 = possible_answers s.
Proof.
  intros Hnil. apply set_eq. intros w. rewrite elem_of_filter_words. simpl.
  destruct (update_nil s Hnil) as [Hd ->].
  set (u := _update_internal_state_from_history s) in *.
  unfold active_exclusions. injection Hd as -> -> -> ->.
  split; [by intros [? _]|]. intros Hw. split_and!; try done.
  - intros i c Hi. do 6 (try destruct i as [|i]); simplify_eq/=.
  - intros i m c Hi. do 6 (try destruct i as [|i]); simplify_eq/=; set_solver.
Qed.

(** Before any feedback is given, the filter keeps the whole pool. *)
Theorem filter_words_without_feedback s :
  feedback_history s = [] → (filter_words s).2 = possible_answers s.
Proof. apply filter_words_nil. Qed.

Lemma filter_words_without_feedback_witness :
  feedback_history (init {["apple"; "ample"]} {["apple"]}) = []
  ∧ (filter_words (init {["apple"; "ample"]} {["apple"]})).2
    = possible_answers (init {["apple"; "ample"]} {["apple"]}).
Proof.
  assert (feedback_history (init {["apple"; "ample"]} {["apple"]}) = []) as H1
    by reflexivity.
  exact (conj H1 (filter_words_without_feedback _ H1)).
Defined.

(** Every candidate contains the letters the history marks CORRECT or
    PRESENT, has none of the letters marked PRESENT on the position of
    the mark, and, when no position is marked CORRECT with two letters,
    has the letters marked CORRECT on their positions. *)
Theorem candidates_respect_marks s w i c :
  w ∈ (filter_words s).2 →
  let H := feedback_history s in
  (marked H i c "G" ∨ marked H i c "Y" → c ∈ letters w)
  ∧ (marked H i c "Y" → i < 5 → word_at w i ≠ Some c)
  ∧ (marked H i c "G" → i < 5 → green_consistent H → word_at w i = Some c).
Proof.
  intros (_ & Hkw & Hpw & Hmw & _)%elem_of_filter_words. simpl.
  unfold _update_internal_state_from_history in *.
  destruct (derived_state_spec s (feedback_history s))
    as (_ & Hlk & Hlm & Hp & Hks & Hkc & Hm & _).
  simpl in *. set (u := foldl update_guess (reset_solver_state s) (feedback_history s)) in *.
  split_and!.
  - intros Hmk. apply Hpw, Hp. eauto.
  - intros Hmk Hi.
    destruct (lookup_lt_is_Some_2 (_misplaced_letters u) i) as [m Hmi]; [lia|].
    apply (Hmw i m c Hmi). by apply (Hm i m Hmi).
  - intros Hmk Hi Hgc. destruct (Hkc i c Hmk Hi) as [k Hk].
    rewrite (green_consistent_marked _ i c k Hgc Hmk (Hks i k Hk)). by apply Hkw.
Qed.

Lemma candidates_respect_marks_witness :
  let s := append_feedback "speed" "GXYXX"
             (init {["suite"; "shrew"; "seven"]} {["suite"; "shrew"; "seven"]}) in
  "suite" ∈ (filter_words s).2
  ∧ marked (feedback_history s) 2 "e" "Y"
  ∧ 2 < 5
  ∧ word_at "suite" 2 ≠ Some "e"%char.
Proof.
  cbv zeta.
  set (s := append_feedback "speed" "GXYXX"
              (init {["suite"; "shrew"; "seven"]} {["suite"; "shrew"; "seven"]})).
  assert ("suite" ∈ (filter_words s).2) as H1 by (by vm_compute).
  assert (marked (feedback_history s) 2 "e" "Y") as H2.
  { exists "speed", "GXYXX". split_and!; [|done..]. by_compute. }
  assert (2 < 5) as H3 by lia.
  exact (conj H1 (conj H2 (conj H3
           (proj1 (proj2 (candidates_respect_marks s "suite" 2 "e" H1)) H2 H3)))).
Defined.

(** The letters the filter bans from the whole word are the letters
    marked ABSENT somewhere and marked CORRECT or PRESENT nowhere in the
    history; no candidate contains one. *)
Theorem absent_letters_are_banned s c :
  let H := feedback_history s in
  let u := _update_internal_state_from_history s in
  (c ∈ active_exclusions u ↔
     (∃ i, marked H i c "X") ∧ ∀ i, ¬ marked H i c "G" ∧ ¬ marked H i c "Y")
  ∧ ∀ w, w ∈ (filter_words s).2 →
         (∃ i, marked H i c "X") → (∀ i, ¬ marked H i c "G" ∧ ¬ marked H i c "Y") →
         c ∉ letters w.
Proof.
  simpl. split; [apply active_exclusions_spec|].
  intros w (_ & _ & _ & _ & Hex & _)%elem_of_filter_words Hx Hno.
  apply Hex, active_exclusions_spec. done.
Qed.

Lemma absent_letters_are_banned_witness :
  let s := append_feedback "speed" "GXYXX"
             (init {["suite"; "spelt"; "seven"]} {["suite"; "spelt"; "seven"]}) in
  "p"%char ∈ active_exclusions (_update_internal_state_from_history s)
  ∧ ((∃ i, marked (feedback_history s) i "p" "X")
     ∧ ∀ i, ¬ marked (feedback_history s) i "p" "G" ∧ ¬ marked (feedback_history s) i "p" "Y").
Proof.
  cbv zeta.
  set (s := append_feedback "speed" "GXYXX"
              (init {["suite"; "spelt"; "seven"]} {["suite"; "spelt"; "seven"]})).
  assert ("p"%char ∈ active_exclusions (_update_internal_state_from_history s)) as H1
    by (by vm_compute).
  exact (conj H1 (proj1 (proj1 (absent_letters_are_banned s "p")) H1)).
Defined.

Lemma min_count_reached E acc H g fb c :
  (g, fb) ∈ H → c ∈ letters g →
  ∃ m, (foldl (count_guess E) acc H).1 !! c = Some m
       ∧ multiplicity c (non_gray_counts g fb) ≤ m.
Proof.
  intros Hin Hcg.
  apply list_elem_of_split in Hin as (H1 & H2 & ->).
  rewrite foldl_app. simpl. set (acc1 := foldl (count_guess E) acc H1).
  assert ((c, multiplicity c (Counter g)) ∈ items g) as Hit by (by apply elem_of_items).
  apply list_elem_of_split in Hit as (l1 & l2 & Hl).
  rewrite Hl, foldl_app. simpl.
  set (ng := non_gray_counts g fb) in *.
  set (acc2 := foldl (count_letter E ng) acc1 l1).
  assert (∃ m, (count_letter E ng acc2 (c, multiplicity c (Counter g))).1 !! c = Some m
               ∧ multiplicity c ng ≤ m) as (m0 & Hm0 & ?).
  { destruct acc2 as [mn mx]. unfold count_letter.
    case_decide; simpl; (eexists; rewrite lookup_insert_eq; split; [done|lia]). }
  destruct (count_letters_tighter E ng (count_letter E ng acc2 (c, multiplicity c (Counter g))) l2)
    as [Ht1 _].
  destruct (Ht1 _ _ Hm0) as (m1 & Hm1 & ?).
  destruct (count_guesses_tighter E
              (foldl (count_letter E ng) (count_letter E ng acc2 (c, multiplicity c (Counter g))) l2) H2)
    as [Ht2 _].
  destruct (Ht2 _ _ Hm1) as (m2 & Hm2 & ?).
  exists m2. split; [done|lia].
Qed.

(** A candidate holds every letter at least as often as any one entry
    of the history marks it CORRECT or PRESENT. *)
Theorem candidates_hold_confirmed_counts s w g fb c :
  w ∈ (filter_words s).2 →
  (g, fb) ∈ feedback_history s →
  multiplicity c (non_gray_counts g fb) ≤ multiplicity c (Counter w).
Proof.
  intros (_ & _ & _ & _ & _ & [Hmin _])%elem_of_filter_words Hin.
  destruct (decide (0 < multiplicity c (non_gray_counts g fb))) as [Hpos|]; [|lia].
  assert (c ∈ letters g) as Hcg.
  { apply non_gray_counts_pos in Hpos as [i [Hi|Hi]];
      apply marked_singleton, lookup_zip_letters in Hi as [Hi _];
      by apply list_elem_of_lookup_2 in Hi. }
  unfold letter_counts in Hmin. rewrite update_feedback_history in Hmin.
  destruct (min_count_reached
              (_excluded_letters (_update_internal_state_from_history s))
              (∅, ∅) _ g fb c Hin Hcg) as (m & Hm & Hle).
  specialize (Hmin c m Hm). simpl in Hmin. lia.
Qed.

Lemma candidates_hold_confirmed_counts_witness :
  let s := append_feedback "geese" "XYXXG" (init {["abbey"; "elite"]} {["abbey"; "elite"]}) in
  "elite" ∈ (filter_words s).2
  ∧ ("geese", "XYXXG") ∈ feedback_history s
  ∧ multiplicity "e"%char (non_gray_counts "geese" "XYXXG")
    ≤ multiplicity "e"%char (Counter "elite").
Proof.
  cbv zeta.
  set (s := append_feedback "geese" "XYXXG" (init {["abbey"; "elite"]} {["abbey"; "elite"]})).
  assert ("elite" ∈ (filter_words s).2) as H1 by (by vm_compute).
  assert (("geese", "XYXXG") ∈ feedback_history s) as H2 by (by_compute).
  exact (conj H1 (conj H2 (candidates_hold_confirmed_counts s _ _ _ "e" H1 H2))).
Defined.

(** *** The solved entry *)

Lemma mark_self rem l : Wordle.mark rem l l = replicate (length l) "G"%char.
Proof.
  induction l as [|a l IH]; [done|]. simpl. rewrite decide_True by done. by rewrite IH.
Qed.

Lemma compare_self g : String.length g = 5 → Wordle.compare g g = "GGGGG".
Proof.
  intros Hlen. unfold Wordle.compare. by rewrite mark_self, length_letters, Hlen.
Qed.

Lemma letters_inj a b : letters a = letters b → a = b.
Proof.
  unfold letters. intros Heq.
  by rewrite <- (string_of_list_ascii_of_string a), Heq, string_of_list_ascii_of_string.
Qed.

(** Once the last entry of the history is all CORRECT, no word but its
    guess is a candidate; the guess is the one candidate when it is in
    the pool and reproduces the entries before. *)
Theorem solved_entry_leaves_the_guess s H g :
  feedback_history s = H ++ [(g, "GGGGG")] →
  String.length g = 5 →
  Wordle.wf_pool (possible_answers s) →
  (filter_words s).2 ⊆ {[g]}
  ∧ (Wordle.wf_history H → g ∈ possible_answers s → Forall (Wordle.reproduces g) H →
     (filter_words s).2 = {[g]}).
Proof.
  intros HH Hg Hpool.
  assert ((filter_words s).2 ⊆ {[g]}) as Hsub.
  { intros w Hw. apply elem_of_singleton, letters_inj.
    assert (String.length w = 5) as Hlw.
    { apply Hpool. by apply filter_words_subseteq. }
    apply elem_of_filter_words in Hw as (_ & Hkw & _). simpl in Hkw.
    unfold _update_internal_state_from_history in Hkw.
    rewrite HH, foldl_app in Hkw. simpl in Hkw.
    destruct (derived_state_spec s H) as (_ & Hlk & _). simpl in Hlk.
    apply (list_eq_same_length _ _ 5); [by rewrite length_letters..|].
    intros i x y Hi Hx Hy.
    assert (word_at w i = Some y) as Hwy.
    { apply Hkw. apply update_guess_known_exact; [|by rewrite Hlk].
      apply marked_singleton, lookup_zip_letters. split; [done|].
      by do 5 (try destruct i as [|i]); try lia. }
    unfold word_at in Hwy. congruence. }
  split; [done|]. intros HwfH Hin Hrep.
  apply set_eq. intros w. split; [apply Hsub|].
  intros ->%elem_of_singleton.
  apply filter_words_keeps; try done.
  - rewrite HH. apply Forall_app. split; [done|]. by repeat constructor.
  - rewrite HH. apply Forall_app. split; [done|]. repeat constructor.
    by apply compare_self.
Qed.

Lemma solved_entry_leaves_the_guess_witness :
  let s := append_feedback "apple" "GGGGG"
             (append_feedback "ample" "GXGGG"
                (init {["apple"; "ample"; "amble"]} {["apple"; "ample"; "amble"]})) in
  feedback_history s = [("ample", "GXGGG")] ++ [("apple", "GGGGG")]
  ∧ String.length "apple" = 5
  ∧ Wordle.wf_pool (possible_answers s)
  ∧ (filter_words s).2 ⊆ {["apple"]}.
Proof.
  cbv zeta.
  set (s := append_feedback "apple" "GGGGG"
             (append_feedback "ample" "GXGGG"
                (init {["apple"; "ample"; "amble"]} {["apple"; "ample"; "amble"]}))).
  assert (feedback_history s = [("ample", "GXGGG")] ++ [("apple", "GGGGG")]) as H1
    by reflexivity.
  assert (String.length "apple" = 5) as H2 by reflexivity.
  assert (Wordle.wf_pool (possible_answers s)) as H3 by wf_pool_compute.
  exact (conj H1 (conj H2 (conj H3
           (proj1 (solved_entry_leaves_the_guess s _ "apple" H1 H2 H3))))).
Defined.

(** *** The three outcomes of a suggestion *)


(** [suggest_guess] answers that no word remains exactly when the filter
    leaves none, and that it could not determine a guess exactly when at
    least two candidates remain and every word it ranks was guessed
    before; any other answer is a candidate or, in elimination mode, a
    word of the word list. *)
Theorem suggest_guess_outcomes iter s (mode : bool) :
  iteration_order iter →
  Wordle.wf_pool (all_words s) →
  Wordle.wf_pool (possible_answers s) →
  let cp := (filter_words s).2 in
  let pool := if mode then all_words s else cp in
  let suggestion := (suggest_guess iter s mode).2 in
  (suggestion = "No valid words remaining." ↔ cp = ∅)
  ∧ (suggestion = "Could not determine best guess." ↔
       2 ≤ size cp ∧ ∀ v, v ∈ pool → v ∈ (feedback_history s).*1)
  ∧ (cp ≠ ∅ → suggestion ≠ "Could not determine best guess." →
     suggestion ∈ cp ∨ mode = true ∧ suggestion ∈ all_words s).
Proof.
  intros Hit Hall Hpa. simpl.
  assert (∀ v, v ∈ (filter_words s).2 → String.length v = 5) as Hcp.
  { intros v Hv. apply Hpa. by apply filter_words_subseteq. }
  assert (∀ v, v ∈ (if mode then all_words s else (filter_words s).2) →
               String.length v = 5) as Hpool.
  { intros v Hv. destruct mode; [by apply Hall|by apply Hcp]. }
  destruct (decide ((filter_words s).2 = ∅)) as [Hempty|Hne].
  { assert ((suggest_guess iter s mode).2 = "No valid words remaining.") as ->.
    { unfold suggest_guess. destruct (filter_words s) as [s1 cp]. simpl in *.
      by rewrite decide_True. }
    split_and!; try done. split; [done|]. intros [Hsz _].
    rewrite Hempty, size_empty in Hsz. lia. }
  destruct (decide (size (filter_words s).2 = 1)) as [Hone|Hsz].
  { assert ((filter_words s).2 = {[(suggest_guess iter s mode).2]}) as Hsg.
    { unfold suggest_guess. destruct (filter_words s) as [s1 cp]. simpl in *.
      destruct (iteration_singleton iter cp Hit Hone) as (w & -> & Hw).
      rewrite decide_False by set_solver. rewrite decide_True by done. by rewrite Hw. }
    assert ((suggest_guess iter s mode).2 ∈ (filter_words s).2) as Hin
      by (rewrite Hsg; set_solver).
    pose proof (Hcp _ Hin) as Hlen.
    split_and!.
    - split; [|done]. intros Heq. rewrite Heq in Hlen. by vm_compute in Hlen.
    - split; [|lia]. intros Heq. rewrite Heq in Hlen. by vm_compute in Hlen.
    - auto. }
  destruct (suggest_guess_ranked iter s mode Hne Hsz) as ([b x] & Hleads & ->).
  destruct (filter_words_frame s) as [Haw Hh]. simpl in *. rewrite Haw, Hh in Hleads.
  assert (2 ≤ size (filter_words s).2) as Htwo.
  { assert (size (filter_words s).2 ≠ 0); [|lia].
    intros ?%size_empty_iff. apply Hne. by apply leibniz_equiv. }
  destruct Hleads as [[[= -> ->] Hspent]|(_ & Hb & Hsp & _)]; simpl in *.
  - split_and!; try done. split; [|done]. intros _. split; [done|].
    intros v Hv. apply spent_true, Hspent. by apply elem_of_iter.
  - apply (elem_of_iter _ _ _ Hit) in Hb. pose proof (Hpool _ Hb) as Hlen.
    assert (b ≠ "") as Hbne by (intros ->; by vm_compute in Hlen).
    rewrite decide_False by done.
    split_and!.
    + split; [|done]. intros Heq. rewrite Heq in Hlen. by vm_compute in Hlen.
    + split.
      * intros Heq. rewrite Heq in Hlen. by vm_compute in Hlen.
      * intros [_ Hall']. apply Hall', spent_true in Hb. congruence.
    + intros _ _. destruct mode; auto.
Qed.

Lemma suggest_guess_outcomes_witness :
  let words : gset string := {["sassy"; "sissy"]} in
  let s := append_feedback "sissy" "GXGGG"
             (append_feedback "sassy" "GXGGG" (init words words)) in
  iteration_order elements
  ∧ Wordle.wf_pool (all_words s)
  ∧ Wordle.wf_pool (possible_answers s)
  ∧ ((suggest_guess elements s false).2 = "No valid words remaining."
     ↔ (filter_words s).2 = ∅).
Proof.
  cbv zeta.
  set (s := append_feedback "sissy" "GXGGG"
             (append_feedback "sassy" "GXGGG" (init {["sassy"; "sissy"]} {["sassy"; "sissy"]}))).
  assert (iteration_order elements) as H1 by (by intros X).
  assert (Wordle.wf_pool (all_words s)) as H2 by wf_pool_compute.
  assert (Wordle.wf_pool (possible_answers s)) as H3 by wf_pool_compute.
  exact (conj H1 (conj H2 (conj H3
           (proj1 (suggest_guess_outcomes elements s false H1 H2 H3))))).
Defined.

(** *** Loading the word lists *)

Lemma length_of_list l : String.length (string_of_list_ascii l) = length l.
Proof. by rewrite <- length_letters, letters_of_list. Qed.

Lemma lower_char_islower c :
  isupper c || islower c = true → islower (lower_char c) = true.
Proof.
  destruct c as [[] [] [] [] [] [] [] []]; vm_compute; done.
Qed.

Lemma length_lower w : String.length (lower w) = String.length w.
Proof. unfold lower. by rewrite length_of_list, length_fmap, length_letters. Qed.

Lemma lower_islower w :
  isalpha w = true → Forall (λ c, islower c = true) (letters (lower w)).
Proof.
  unfold isalpha, lower. intros [_ Hall]%andb_true_iff.
  rewrite letters_of_list. apply Forall_fmap, Forall_forall. intros c Hc. simpl.
  apply lower_char_islower. rewrite forallb_forall in Hall.
  apply Hall. by apply list_elem_of_In.
Qed.

Lemma elem_of_load_words f w :
  w ∈ load_words f ↔
  ∃ lines line, f = Some lines ∧ line ∈ lines
    ∧ String.length (strip line) = 5 ∧ isalpha (strip line) = true
    ∧ w = lower (strip line).
Proof.
  unfold load_words. destruct f as [lines|]; [|set_solver].
  case_decide as Hempty.
  - split; [set_solver|]. intros (? & line & [= <-] & Hin & Hlen & Hal & ->).
    rewrite <- Hempty. apply elem_of_list_to_set, list_elem_of_fmap.
    exists line. split; [done|]. by apply list_elem_of_filter.
  - rewrite elem_of_list_to_set, list_elem_of_fmap. split.
    + intros (line & -> & [(Hl & Ha) Hin]%list_elem_of_filter). eauto 8.
    + intros (? & line & [= <-] & Hin & Hlen & Hal & ->).
      exists line. split; [done|]. by apply list_elem_of_filter.
Qed.

(** A word file of ASCII lines loads as a set of words of five lower-case
    letters, each one a line of the file stripped of its blanks and put
    in lower case; an unreadable file loads as the empty set. *)
Theorem load_words_gives_five_lowercase_letters f w :
  from_option (Forall isascii) True f →
  w ∈ load_words f →
  String.length w = 5
  ∧ Forall (λ c, islower c = true) (letters w)
  ∧ ∃ lines line, f = Some lines ∧ line ∈ lines ∧ w = lower (strip line).
Proof.
  intros _ (lines & line & -> & Hin & Hlen & Hal & ->)%elem_of_load_words.
  split_and!.
  - by rewrite length_lower.
  - by apply lower_islower.
  - eauto.
Qed.

Lemma load_words_gives_five_lowercase_letters_witness :
  let f := Some ["Apple" +:+ String "010" ""; "  pear "; "x-ray"; "ample"] in
  from_option (Forall isascii) True f
  ∧ "apple" ∈ load_words f
  ∧ String.length "apple" = 5.
Proof.
  cbv zeta.
  set (f := Some ["Apple" +:+ String "010" ""; "  pear "; "x-ray"; "ample"]).
  assert (from_option (Forall isascii) True f) as H1.
  { simpl. repeat constructor; by_compute. }
  assert ("apple" ∈ load_words f) as H2 by (by vm_compute).
  exact (conj H1 (conj H2
           (proj1 (load_words_gives_five_lowercase_letters f "apple" H1 H2)))).
Defined.


(** *** The solver at the start of a game *)



Lemma run_all_words iter s calls : all_words (run iter s calls) = all_words s.
Proof.
  unfold run. revert s. induction calls as [|c calls IH]; intros s; [done|].
  simpl. rewrite IH. destruct c as [| |]; simpl.
  - by destruct (filter_words_frame s).
  - rewrite suggest_guess_solver. by destruct (filter_words_frame s).
  - done.
Qed.

Lemma run_shrinks iter s calls : possible_answers (run iter s calls) ⊆ possible_answers s.
Proof.
  unfold run. revert s. induction calls as [|c calls IH]; intros s; [done|].
  simpl. etrans; [apply IH|]. apply run_call_shrinks.
Qed.

(** Whatever the page calls during a game, the word list stays as it
    was loaded and the candidates stay words of the word list. *)
Theorem candidates_stay_within_word_list iter s calls :
  possible_answers s ⊆ all_words s →
  all_words (run iter s calls) = all_words s
  ∧ possible_answers (run iter s calls) ⊆ all_words (run iter s calls).
Proof.
  intros Hsub. rewrite run_all_words. split; [done|].
  etrans; [apply run_shrinks|done].
Qed.

Lemma candidates_stay_within_word_list_witness :
  let s := init {["apple"; "ample"; "amble"]} {["apple"; "ample"]} in
  let calls := [SuggestGuess true; AppendFeedback "amble" "GGXGG"; FilterWords] in
  possible_answers s ⊆ all_words s
  ∧ possible_answers (run elements s calls) ⊆ all_words (run elements s calls).
Proof.
  cbv zeta.
  set (s := init {["apple"; "ample"; "amble"]} {["apple"; "ample"]}).
  assert (possible_answers s ⊆ all_words s) as H1 by (by_compute).
  exact (conj H1 (proj2 (candidates_stay_within_word_list elements s _ H1))).
Defined.

(** New Game after any play puts the candidates back to what [__init__]
    made of the same answers file, empties the history and leaves the
    word list alone, so that the next filter returns the initial pool. *)
Theorem new_game_restores_the_pool iter wordlist answers calls :
  let s0 := __init__ wordlist (Some answers) in
  let s := new_game answers (run iter s0 calls) in
  possible_answers s = possible_answers s0
  ∧ all_words s = all_words s0
  ∧ feedback_history s = []
  ∧ (filter_words s).2 = possible_answers s0.
Proof.
  cbv zeta.
  set (s0 := __init__ wordlist (Some answers)).
  set (s := new_game answers (run iter s0 calls)).
  assert (possible_answers s = possible_answers s0) as Hpa.
  { unfold s, new_game. simpl. rewrite run_all_words. unfold s0, __init__. simpl.
    destruct (decide (load_words answers ≠ ∅)) as [Hne|He]; [done|].
    apply dec_stable in He. rewrite He.
    rewrite decide_True by set_solver. done. }
  split_and!; try done.
  - unfold s, new_game. simpl. apply run_all_words.
  - rewrite <- Hpa. by apply filter_words_nil.
Qed.

(** ** The experimental variant *)

(** *** Its rebuilt state *)

Lemma Experimental_yellow_gray_pass_spec s cnt (z : list (ascii * ascii)) :
  let s' := (foldl Experimental.yellow_gray_step (s, cnt) (enumerate z)).1 in
  frame s' = frame s
  ∧ _known_letters s' = _known_letters s
  ∧ length (_misplaced_letters s') = length (_misplaced_letters s)
  ∧ (∀ c, c ∈ _present_letters s' ↔
          c ∈ _present_letters s ∨ ∃ i, z !! i = Some (c, "Y"%char))
  ∧ (∀ i m', _misplaced_letters s' !! i = Some m' →
       ∃ m, _misplaced_letters s !! i = Some m
            ∧ ∀ c, c ∈ m' ↔ c ∈ m ∨ z !! i = Some (c, "Y"%char))
  ∧ _excluded_letters s ⊆ _excluded_letters s'
  ∧ (∀ c, c ∈ _excluded_letters s' →
          c ∈ _excluded_letters s ∨ ∃ i, z !! i = Some (c, "X"%char)).
Proof.
  simpl.
  apply (foldl_enumerate_ind Experimental.yellow_gray_step (λ l acc,
    frame acc.1 = frame s
    ∧ _known_letters acc.1 = _known_letters s
    ∧ length (_misplaced_letters acc.1) = length (_misplaced_letters s)
    ∧ (∀ c, c ∈ _present_letters acc.1 ↔
            c ∈ _present_letters s ∨ ∃ i, l !! i = Some (c, "Y"%char))
    ∧ (∀ i m', _misplaced_letters acc.1 !! i = Some m' →
         ∃ m, _misplaced_letters s !! i = Some m
              ∧ ∀ c, c ∈ m' ↔ c ∈ m ∨ l !! i = Some (c, "Y"%char))
    ∧ _excluded_letters s ⊆ _excluded_letters acc.1
    ∧ (∀ c, c ∈ _excluded_letters acc.1 →
            c ∈ _excluded_letters s ∨ ∃ i, l !! i = Some (c, "X"%char)))).
  - simpl. split_and!; intros; rewrite ?lookup_nil in *; naive_solver.
  - intros l [c st] [s1 cnt1] (Hf & Hk & Hlen & Hp & Hm & Hes & He). simpl in *.
    assert (Hkeep :
      frame s1 = frame s
      ∧ _known_letters s1 = _known_letters s
      ∧ length (_misplaced_letters s1) = length (_misplaced_letters s)
      ∧ (∀ c0, c0 ∈ _present_letters s1 ↔
            c0 ∈ _present_letters s ∨ ∃ i, (l ++ [(c, st)]) !! i = Some (c0, "Y"%char))
      ∧ (∀ i m', _misplaced_letters s1 !! i = Some m' →
           ∃ m, _misplaced_letters s !! i = Some m
                ∧ ∀ c0, c0 ∈ m' ↔ c0 ∈ m ∨ (l ++ [(c, st)]) !! i = Some (c0, "Y"%char))
      ∧ _excluded_letters s ⊆ _excluded_letters s1
      ∧ (∀ c0, c0 ∈ _excluded_letters s1 →
            c0 ∈ _excluded_letters s ∨ ∃ i, (l ++ [(c, st)]) !! i = Some (c0, "X"%char))
      ∨ st = "Y"%char).
    { destruct (decide (st = "Y"%char)) as [->|Hst]; [by right|left].
      split_and!; try done.
      - intros c0. rewrite Hp. setoid_rewrite lookup_snoc_Some. naive_solver.
      - intros i m' (m & ? & Hmm)%Hm. exists m. split; [done|].
        intros c0. rewrite Hmm, lookup_snoc_Some. naive_solver.
      - intros c0 [?|[i ?]]%He; [by left|right; exists i].
        apply lookup_snoc_Some. by left. }
    unfold Experimental.yellow_gray_step.
    destruct (decide (st = "Y"%char)) as [->|Hst]; simpl.
    + split_and!; try done.
      * by rewrite length_alter.
      * intros c0. rewrite elem_of_union, elem_of_singleton, Hp.
        setoid_rewrite lookup_snoc_Some. naive_solver.
      * intros i m'. rewrite list_lookup_alter.
        destruct (decide (length l = i)) as [<-|Hne].
        -- destruct (_misplaced_letters s1 !! length l) as [m1|] eqn:E; [|done].
           simpl. intros [= <-]. destruct (Hm _ _ E) as (m & ? & Hmm).
           exists m. split; [done|]. intros c0.
           rewrite elem_of_union, elem_of_singleton, Hmm, lookup_snoc_Some. naive_solver.
        -- intros (m & ? & Hmm)%Hm. exists m. split; [done|].
           intros c0. rewrite Hmm, lookup_snoc_Some. naive_solver.
      * intros c0 [?|[i ?]]%He; [by left|right; exists i].
        apply lookup_snoc_Some. by left.
    + destruct Hkeep as [Hkeep|?]; [|done].
      destruct (decide (st = "X"%char)) as [->|?]; [|done].
      destruct (decide _); [|done]. simpl.
      destruct Hkeep as (? & ? & ? & ? & ? & ? & ?).
      split_and!; try done.
      * set_solver.
      * intros c0. rewrite elem_of_union, elem_of_singleton.
        intros [->|?]; [right; exists (length l)|by auto].
        apply lookup_snoc_Some. by right.
Qed.

Lemma Experimental_update_guess_spec s g fb :
  let s' := Experimental.update_guess s (g, fb) in
  frame s' = frame s
  ∧ length (_known_letters s') = length (_known_letters s)
  ∧ length (_misplaced_letters s') = length (_misplaced_letters s)
  ∧ (∀ c, c ∈ _present_letters s' ↔
          c ∈ _present_letters s
          ∨ ∃ i, marked [(g, fb)] i c "G" ∨ marked [(g, fb)] i c "Y")
  ∧ (∀ i k, _known_letters s' !! i = Some (Some k) →
          _known_letters s !! i = Some (Some k) ∨ marked [(g, fb)] i k "G")
  ∧ (∀ i k, _known_letters s !! i = Some (Some k) →
          ∃ k', _known_letters s' !! i = Some (Some k'))
  ∧ (∀ i c, marked [(g, fb)] i c "G" → i < length (_known_letters s) →
          ∃ k', _known_letters s' !! i = Some (Some k'))
  ∧ (∀ i m', _misplaced_letters s' !! i = Some m' →
       ∃ m, _misplaced_letters s !! i = Some m
            ∧ ∀ c, c ∈ m' ↔ c ∈ m ∨ marked [(g, fb)] i c "Y")
  ∧ _excluded_letters s ⊆ _excluded_letters s'
  ∧ (∀ c, c ∈ _excluded_letters s' →
          c ∈ _excluded_letters s ∨ ∃ i, marked [(g, fb)] i c "X").
Proof.
  simpl. unfold Experimental.update_guess, enum_zip.
  set (z := zip (letters g) (letters fb)).
  destruct (foldl green_step (s, ∅) (enumerate z)) as [s1 cnt1] eqn:E1.
  pose proof (green_pass_spec s ∅ z) as HG. simpl in HG. rewrite E1 in HG. simpl in HG.
  destruct HG as (Hf1 & Hm1 & He1 & Hl1 & Hp1 & Hks1 & Hkk1 & Hkc1).
  pose proof (Experimental_yellow_gray_pass_spec s1 cnt1 z) as HY. simpl in HY.
  destruct HY as (Hf2 & Hk2 & Hl2 & Hp2 & Hm2 & Hes2 & He2).
  setoid_rewrite marked_singleton. fold z.
  rewrite Hf2, Hk2, Hl2, Hf1, Hl1, Hm1. rewrite <- He1.
  split_and!; try done.
  - intros c. rewrite Hp2, Hp1. naive_solver.
  - intros i m'. rewrite <- Hm1. apply Hm2.
Qed.

Lemma Experimental_derived_state_spec s H :
  let u := foldl Experimental.update_guess (reset_solver_state s) H in
  frame u = frame s
  ∧ length (_known_letters u) = 5
  ∧ length (_misplaced_letters u) = 5
  ∧ (∀ c, c ∈ _present_letters u ↔ ∃ i, marked H i c "G" ∨ marked H i c "Y")
  ∧ (∀ i k, _known_letters u !! i = Some (Some k) → marked H i k "G")
  ∧ (∀ i c, marked H i c "G" → i < 5 → ∃ k', _known_letters u !! i = Some (Some k'))
  ∧ (∀ i m, _misplaced_letters u !! i = Some m → ∀ c, c ∈ m ↔ marked H i c "Y")
  ∧ (∀ c, c ∈ _excluded_letters u → ∃ i, marked H i c "X").
Proof.
  simpl.
  apply (foldl_ind Experimental.update_guess (λ H u,
    frame u = frame s
    ∧ length (_known_letters u) = 5
    ∧ length (_misplaced_letters u) = 5
    ∧ (∀ c, c ∈ _present_letters u ↔ ∃ i, marked H i c "G" ∨ marked H i c "Y")
    ∧ (∀ i k, _known_letters u !! i = Some (Some k) → marked H i k "G")
    ∧ (∀ i c, marked H i c "G" → i < 5 → ∃ k', _known_letters u !! i = Some (Some k'))
    ∧ (∀ i m, _misplaced_letters u !! i = Some m → ∀ c, c ∈ m ↔ marked H i c "Y")
    ∧ (∀ c, c ∈ _excluded_letters u → ∃ i, marked H i c "X"))).
  - simpl. split_and!; try done.
    + intros c. split; [set_solver|]. intros [i [[]%marked_nil|[]%marked_nil]].
    + intros i k Hi. do 6 (try destruct i as [|i]); simplify_eq/=.
    + intros i c []%marked_nil.
    + intros i m Hi c. do 6 (try destruct i as [|i]); simplify_eq/=;
        (split; [set_solver|]; intros []%marked_nil).
  - intros H' [g fb] u (Hf & Hlk & Hlm & Hp & Hks & Hkc & Hm & He).
    destruct (Experimental_update_guess_spec u g fb)
      as (Hf' & Hlk' & Hlm' & Hp' & Hks' & Hkk' & Hkc' & Hm' & Hes' & He').
    simpl in *. setoid_rewrite marked_app.
    split_and!; try congruence.
    + intros c. rewrite Hp', Hp. naive_solver.
    + intros i k [?|?]%Hks'; [left; by apply Hks|by right].
    + intros i c [?|?] Hi.
      * destruct (Hkc i c) as [k' ?]; [done..|]. by eapply Hkk'.
      * eapply Hkc'; [done|]. by rewrite Hlk.
    + intros i m' (m & Hmi & Hmm)%Hm' c. rewrite Hmm, (Hm i m Hmi). done.
    + intros c [?|?]%He'; [|naive_solver]. destruct (He c) as [i ?]; [done|]. eauto.
Qed.

(** *** Its counts *)

Lemma non_gray_le (z : list (ascii * ascii)) c :
  multiplicity c (list_to_set_disj (non_gray z) : gmultiset ascii)
  ≤ multiplicity c (list_to_set_disj z.*1 : gmultiset ascii).
Proof.
  unfold non_gray. induction z as [|[x st] z IH]; [done|].
  rewrite filter_cons. destruct (decide _); rewrite ?fmap_cons; simpl;
    rewrite ?multiplicity_disj_union; lia.
Qed.

Lemma non_gray_lt (z : list (ascii * ascii)) c :
  Exists (λ p, p.2 = "X"%char ∧ p.1 = c) z →
  multiplicity c (list_to_set_disj (non_gray z) : gmultiset ascii)
  < multiplicity c (list_to_set_disj z.*1 : gmultiset ascii).
Proof.
  unfold non_gray. induction 1 as [[x st] z [Hst Hx]|[x st] z Hex IH]; simpl in *.
  - subst. rewrite filter_cons, decide_False by (by intros [|]).
    pose proof (non_gray_le z c) as Hle. unfold non_gray in Hle.
    rewrite multiplicity_disj_union, multiplicity_singleton, decide_True by done.
    change (list_fmap _ _ fst z) with (z.*1). lia.
  - rewrite filter_cons. destruct (decide _); rewrite ?fmap_cons; simpl;
      rewrite ?multiplicity_disj_union; change (list_fmap _ _ fst z) with (z.*1); lia.
Qed.

Lemma gray_count_lt g fb c :
  String.length g = String.length fb →
  Experimental.gray_present_in_feedback g fb c →
  multiplicity c (non_gray_counts g fb) < multiplicity c (Counter g).
Proof.
  intros Hlen Hgray. rewrite non_gray_counts_spec.
  apply non_gray_lt in Hgray. rewrite fst_zip in Hgray; [done|].
  rewrite !length_letters. lia.
Qed.

Section exact_sound.
Context (w : string).
Hypothesis Hw : String.length w = 5.

Lemma Experimental_count_letter_sound g fb acc c n :
  String.length g = 5 → String.length fb = 5 → Wordle.reproduces w (g, fb) →
  sound_exact w acc →
  sound_exact w (Experimental.count_letter g fb (non_gray_counts g fb) acc (c, n)).
Proof.
  intros Hg Hfb Hrep [Hmin Hex]. destruct acc as [mn ex].
  unfold Experimental.count_letter, sound_exact in *. simpl in *.
  pose proof (replay_non_gray w g fb ltac:(congruence) Hrep c) as Hng.
  assert (∀ c' m, <[c := default 0 (mn !! c) `max` multiplicity c (non_gray_counts g fb)]> mn
                    !! c' = Some m →
                  m ≤ multiplicity c' (Counter w)) as Hmin'.
  { intros c' m [[<- <-]|[_ ?]]%lookup_insert_Some; [|eauto].
    destruct (mn !! c) as [m0|] eqn:E; cbv beta iota delta [from_option id];
      [apply Hmin in E|]; lia. }
  destruct (decide _) as [[Hgray _]|_]; simpl; (split; [done|]); [|done].
  intros c' m [[<- <-]|[_ ?]]%lookup_insert_Some; [|eauto].
  apply gray_count_lt in Hgray; [|congruence]. lia.
Qed.

Lemma Experimental_count_guess_sound acc g fb :
  String.length g = 5 → String.length fb = 5 → Wordle.reproduces w (g, fb) →
  sound_exact w acc → sound_exact w (Experimental.count_guess acc (g, fb)).
Proof.
  intros Hg Hfb Hrep. unfold Experimental.count_guess.
  revert acc. induction (items g) as [|[c n] l IH]; intros acc Hacc; simpl; [done|].
  apply IH. by apply Experimental_count_letter_sound.
Qed.

Lemma Experimental_letter_counts_sound acc H :
  Wordle.wf_history H → Forall (Wordle.reproduces w) H →
  sound_exact w acc → sound_exact w (foldl Experimental.count_guess acc H).
Proof.
  intros Hwf Hrep. revert acc. induction H as [|[g fb] H IH]; intros acc Hacc; simpl; [done|].
  apply Forall_cons in Hwf as [[Hg Hfb] Hwf]. apply Forall_cons in Hrep as [Hrep1 Hrep].
  apply IH; [done..|]. by apply Experimental_count_guess_sound.
Qed.

Lemma sound_exact_valid acc : sound_exact w acc → Experimental.valid acc.1 acc.2 w.
Proof.
  intros [Hmin Hex]. split.
  - intros c m ?%Hmin. lia.
  - intros c m ?%Hex. lia.
Qed.

End exact_sound.

Lemma Experimental_filter_words_keeps s w :
  Wordle.wf_history (feedback_history s) →
  String.length w = 5 →
  w ∈ possible_answers s →
  Forall (Wordle.reproduces w) (feedback_history s) →
  w ∈ (Experimental.filter_words s).2.
Proof.
  intros Hwf Hw Hin Hrep. apply elem_of_Experimental_filter_words. simpl.
  set (H := feedback_history s) in *.
  unfold Experimental._update_internal_state_from_history. fold H.
  destruct (Experimental_derived_state_spec s H)
    as (Hf & Hlk & Hlm & Hp & Hks & Hkc & Hm & He).
  simpl in *. set (u := foldl Experimental.update_guess (reset_solver_state s) H) in *.
  assert (∀ e, e ∈ H → String.length w = String.length e.1 ∧ Wordle.reproduces w e) as Hent.
  { intros e He'. unfold Wordle.wf_history in Hwf. rewrite Forall_forall in Hwf, Hrep.
    destruct (Hwf e He') as [-> _]. split; [done|]. by apply Hrep. }
  assert (∀ c, c ∈ _present_letters u → c ∈ letters w) as Hpres.
  { intros c [i Hi]%Hp.
    assert (∃ e, e ∈ H ∧ 0 < multiplicity c (non_gray_counts e.1 e.2)) as ([g fb] & Hin' & Hpos).
    { destruct Hi as [([g fb] & ? & ?)%marked_elem_of|([g fb] & ? & ?)%marked_elem_of];
        exists (g, fb); (split; [done|]); apply non_gray_counts_pos; eauto. }
    destruct (Hent _ Hin') as [Hlen Hr]. simpl in *.
    rewrite (replay_non_gray w g fb) in Hpos by done.
    apply elem_of_Counter, elem_of_multiplicity. lia. }
  split; [done|]. split_and!.
  - intros i c ([g fb] & Hin' & Hmk)%Hks%marked_elem_of. split; [done|].
    destruct (Hent _ Hin') as [Hlen Hr]. by eapply replay_green.
  - done.
  - intros i m c Hmi Hc. split; [done|]. apply (Hm i m Hmi) in Hc.
    apply marked_elem_of in Hc as ([g fb] & Hin' & Hmk).
    destruct (Hent _ Hin') as [Hlen Hr]. by eapply replay_yellow.
  - intros c Hc. unfold active_exclusions in Hc.
    apply elem_of_difference in Hc as [[Hex Hnp]%elem_of_difference _].
    destruct (He c Hex) as [i ([g fb] & Hin' & Hmk)%marked_elem_of].
    destruct (Hent _ Hin') as [Hlen Hr]. simpl in *.
    assert (multiplicity c (non_gray_counts g fb) = 0) as Hz.
    { destruct (decide (0 < multiplicity c (non_gray_counts g fb))) as [Hpos|]; [|lia].
      apply non_gray_counts_pos in Hpos as [j Hj]. exfalso. apply Hnp, Hp.
      exists j. destruct Hj; [left|right]; apply marked_elem_of; eauto. }
    rewrite (replay_non_gray w g fb) in Hz by done.
    assert (0 < multiplicity c (Counter g)) as Hcg.
    { apply elem_of_multiplicity, elem_of_Counter.
      apply marked_singleton, lookup_zip_letters in Hmk as [? _]. by eapply list_elem_of_lookup_2. }
    intros Hcw. assert (0 < multiplicity c (Counter w))
      by (by apply elem_of_multiplicity, elem_of_Counter). lia.
  - apply sound_exact_valid; [done|]. unfold Experimental.letter_counts.
    assert (feedback_history u = H) as -> by (by injection Hf).
    apply Experimental_letter_counts_sound; [done..|]. by split.
Qed.

(** The filter of the experimental variant, with its exact letter
    counts, keeps every word of the pool that reproduces the whole
    history on replay. *)
Theorem Experimental_keeps_replay_consistent_words s w :
  Wordle.wf_history (feedback_history s) →
  Wordle.wf_pool (possible_answers s) →
  w ∈ possible_answers s →
  Forall (Wordle.reproduces w) (feedback_history s) →
  w ∈ (Experimental.filter_words s).2.
Proof.
  intros Hwf Hpool Hin Hrep. apply Experimental_filter_words_keeps; try done.
  by apply Hpool.
Qed.

Lemma Experimental_keeps_replay_consistent_words_witness :
  let s := append_feedback "speed" "GXYXX"
             (init {["suite"; "seven"; "spelt"]} {["suite"; "seven"; "spelt"]}) in
  Wordle.wf_history (feedback_history s)
  ∧ Wordle.wf_pool (possible_answers s)
  ∧ "suite" ∈ possible_answers s
  ∧ Forall (Wordle.reproduces "suite") (feedback_history s)
  ∧ "suite" ∈ (Experimental.filter_words s).2.
Proof.
  cbv zeta.
  set (s := append_feedback "speed" "GXYXX"
              (init {["suite"; "seven"; "spelt"]} {["suite"; "seven"; "spelt"]})).
  assert (Wordle.wf_history (feedback_history s)) as H1 by wf_history_compute.
  assert (Wordle.wf_pool (possible_answers s)) as H2 by wf_pool_compute.
  assert ("suite" ∈ possible_answers s) as H3 by (by_compute).
  assert (Forall (Wordle.reproduces "suite") (feedback_history s)) as H4
    by (repeat constructor).
  exact (conj H1 (conj H2 (conj H3 (conj H4
           (Experimental_keeps_replay_consistent_words s "suite" H1 H2 H3 H4))))).
Defined.

(** *** The exact count a gray mark gives *)

Lemma Experimental_count_letter_min_bound g fb acc x c B :
  multiplicity c (non_gray_counts g fb) ≤ B →
  (∀ m, acc.1 !! c = Some m → m ≤ B) →
  ∀ m, (Experimental.count_letter g fb (non_gray_counts g fb) acc x).1 !! c = Some m → m ≤ B.
Proof.
  intros HB Hacc m. destruct acc as [mn ex], x as [c' n].
  unfold Experimental.count_letter. simpl in *.
  assert (<[c' := default 0 (mn !! c') `max` multiplicity c' (non_gray_counts g fb)]> mn
            !! c = Some m → m ≤ B) as Hkey.
  { intros [[<- <-]|[_ ?]]%lookup_insert_Some; [|eauto].
    destruct (mn !! c') as [m0|] eqn:E; cbv beta iota delta [from_option id];
      [specialize (Hacc _ eq_refl)|]; lia. }
  by destruct (decide _).
Qed.

Lemma Experimental_count_letters_min_bound g fb acc l c B :
  multiplicity c (non_gray_counts g fb) ≤ B →
  (∀ m, acc.1 !! c = Some m → m ≤ B) →
  ∀ m, (foldl (Experimental.count_letter g fb (non_gray_counts g fb)) acc l).1 !! c = Some m →
       m ≤ B.
Proof.
  intros HB. revert acc. induction l as [|x l IH]; intros acc Hacc; simpl; [done|].
  apply IH. by apply Experimental_count_letter_min_bound.
Qed.

Lemma Experimental_count_guesses_min_bound H acc c B :
  (∀ e, e ∈ H → multiplicity c (non_gray_counts e.1 e.2) ≤ B) →
  (∀ m, acc.1 !! c = Some m → m ≤ B) →
  ∀ m, (foldl Experimental.count_guess acc H).1 !! c = Some m → m ≤ B.
Proof.
  revert acc. induction H as [|[g fb] H IH]; intros acc HB Hacc; simpl; [done|].
  apply IH.
  - intros e He. apply HB. by right.
  - unfold Experimental.count_guess. apply Experimental_count_letters_min_bound; [|done].
    apply (HB (g, fb)). by left.
Qed.

Lemma Experimental_count_letters_exact_ne g fb ng acc l c :
  c ∉ l.*1 →
  (foldl (Experimental.count_letter g fb ng) acc l).2 !! c = acc.2 !! c.
Proof.
  revert acc. induction l as [|[c' n] l IH]; intros acc Hc; simpl; [done|].
  apply not_elem_of_cons in Hc as [Hne Hc]. simpl in Hne. rewrite IH by done.
  destruct acc as [mn ex]. unfold Experimental.count_letter.
  destruct (decide _); simpl; [|done]. by rewrite lookup_insert_ne.
Qed.

Lemma gray_letter_of_guess g fb c :
  Experimental.gray_present_in_feedback g fb c → c ∈ letters g.
Proof.
  intros ([x st] & Hin & _ & <-)%Exists_exists. simpl.
  apply elem_of_zip_l in Hin. done.
Qed.

Lemma Experimental_count_guess_exact g fb acc c :
  Experimental.gray_present_in_feedback g fb c →
  (∀ m, acc.1 !! c = Some m → m ≤ multiplicity c (non_gray_counts g fb)) →
  (Experimental.count_guess acc (g, fb)).2 !! c
  = Some (multiplicity c (non_gray_counts g fb)).
Proof.
  intros Hgray Hacc. unfold Experimental.count_guess.
  set (ng := non_gray_counts g fb) in *.
  assert ((c, multiplicity c (Counter g)) ∈ items g) as Hit.
  { apply elem_of_items. split; [|done]. by eapply gray_letter_of_guess. }
  assert (NoDup (items g).*1) as Hnd.
  { unfold items. rewrite <- list_fmap_compose.
    assert (∀ l : list ascii,
              (fst ∘ (λ c0, (c0, multiplicity c0 (Counter g)))) <$> l = l) as ->.
    { intros l. induction l as [|a l IH]; [done|]. by rewrite fmap_cons, IH. }
    apply NoDup_remove_dups. }
  apply list_elem_of_split in Hit as (l1 & l2 & Hl). rewrite Hl in Hnd |- *.
  rewrite fmap_app, fmap_cons in Hnd. apply NoDup_app in Hnd as (_ & _ & Hnd).
  apply NoDup_cons in Hnd as [Hc2 _]. simpl in Hc2.
  rewrite foldl_app. simpl. rewrite Experimental_count_letters_exact_ne by done.
  pose proof (Experimental_count_letters_min_bound g fb acc l1 c (multiplicity c ng)
                ltac:(done) Hacc) as Hb.
  fold ng in Hb.
  destruct (foldl (Experimental.count_letter g fb ng) acc l1) as [mn ex].
  unfold Experimental.count_letter. simpl in *.
  assert (default 0 (mn !! c) `max` multiplicity c ng = multiplicity c ng) as Hmax.
  { destruct (mn !! c) as [m0|] eqn:E; cbv beta iota delta [from_option id];
      [specialize (Hb _ eq_refl)|]; lia. }
  rewrite decide_True.
  - simpl. by rewrite lookup_insert_eq.
  - split; [done|]. rewrite lookup_insert_eq. simpl. lia.
Qed.

(** When the latest entry marks a letter ABSENT on some position, and
    no earlier entry confirms more copies of the letter than the latest
    does, every candidate of the experimental variant holds exactly the
    copies the latest entry marks CORRECT or PRESENT. *)
Theorem Experimental_gray_fixes_the_count s H g fb c w :
  feedback_history s = H ++ [(g, fb)] →
  Experimental.gray_present_in_feedback g fb c →
  (∀ e, e ∈ H →
     multiplicity c (non_gray_counts e.1 e.2) ≤ multiplicity c (non_gray_counts g fb)) →
  w ∈ (Experimental.filter_words s).2 →
  multiplicity c (Counter w) = multiplicity c (non_gray_counts g fb).
Proof.
  intros HH Hgray Hle (_ & _ & _ & _ & _ & [_ Hex])%elem_of_Experimental_filter_words.
  unfold Experimental.letter_counts in Hex.
  pose proof (Experimental_update_frame s) as Hf. injection Hf as _ _ _ Hh.
  rewrite Hh, HH, foldl_app in Hex. simpl in Hex.
  assert ((Experimental.count_guess (foldl Experimental.count_guess (∅, ∅) H) (g, fb)).2 !! c
          = Some (multiplicity c (non_gray_counts g fb))) as Hc.
  { apply Experimental_count_guess_exact; [done|].
    apply Experimental_count_guesses_min_bound; [done|]. intros m. simpl. by rewrite lookup_empty. }
  specialize (Hex c _ Hc). simpl in Hex.
  destruct (decide (multiplicity c (Counter w) = multiplicity c (non_gray_counts g fb)));
    [done|]. by exfalso; apply Hex.
Qed.

Lemma Experimental_gray_fixes_the_count_witness :
  let s := append_feedback "speed" "GXYXX"
             (init {["suite"; "seven"; "spelt"]} {["suite"; "seven"; "spelt"]}) in
  feedback_history s = [] ++ [("speed", "GXYXX")]
  ∧ Experimental.gray_present_in_feedback "speed" "GXYXX" "e"
  ∧ "suite" ∈ (Experimental.filter_words s).2
  ∧ multiplicity "e"%char (Counter "suite")
    = multiplicity "e"%char (non_gray_counts "speed" "GXYXX").
Proof.
  cbv zeta.
  set (s := append_feedback "speed" "GXYXX"
              (init {["suite"; "seven"; "spelt"]} {["suite"; "seven"; "spelt"]})).
  assert (feedback_history s = [] ++ [("speed", "GXYXX")]) as H1 by reflexivity.
  assert (Experimental.gray_present_in_feedback "speed" "GXYXX" "e") as H2 by (by_compute).
  assert (∀ e : string * string, e ∈ [] →
            multiplicity "e"%char (non_gray_counts e.1 e.2)
            ≤ multiplicity "e"%char (non_gray_counts "speed" "GXYXX")) as H3
    by (intros e He; by apply elem_of_nil in He).
  assert ("suite" ∈ (Experimental.filter_words s).2) as H4 by (by vm_compute).
  exact (conj H1 (conj H2 (conj H4
           (Experimental_gray_fixes_the_count s [] "speed" "GXYXX" "e" "suite" H1 H2 H3 H4)))).
Defined.

(** *** What the experimental variant suggests *)

Lemma StronglySorted_impl_elem {A} (R R' : relation A) l :
  (∀ a b, a ∈ l → b ∈ l → R a b → R' a b) →
  StronglySorted R l → StronglySorted R' l.
Proof.
  induction l as [|x l IH]; intros Himpl; [constructor|].
  intros [Hx Hl]%StronglySorted_cons. apply StronglySorted_cons. split.
  - rewrite Forall_forall in Hx |- *. intros y Hy. apply Himpl; [set_solver..|by apply Hx].
  - apply IH; [|done]. intros a b ? ?. apply Himpl; set_solver.
Qed.

(** With two candidates or more, a word to rank and one suggestion or
    more asked for, the experimental variant suggests at least one word
    and at most the number asked for, every one a ranked word: a word of
    the pool that is no guess of the history and has a score above
    [-inf]; the list is in ascending order of the heap items. *)
Theorem Experimental_suggestions_are_ranked pow iter s (mode : bool) K :
  iteration_order iter →
  2 ≤ size (Experimental.filter_words s).2 →
  rankable pow s mode ≠ ∅ →
  1 ≤ K →
  let cp := (Experimental.filter_words s).2 in
  let suggestions := (Experimental.suggest_guess pow iter s mode K).2 in
  suggestions ≠ []
  ∧ length suggestions ≤ K
  ∧ (∀ w, w ∈ suggestions → w ∈ rankable pow s mode)
  ∧ StronglySorted
      (λ a b, item_ltb (heap_item (Experimental_score pow s mode) cp a)
                       (heap_item (Experimental_score pow s mode) cp b) = true)
      suggestions.
Proof.
  intros Hit Hsz Hne HK. cbv zeta.
  destruct (Experimental_suggest_guess_heap pow iter s mode K Hit Hsz)
    as (ws & -> & Hsorted & Hin & Hout & Hlen).
  assert (ws ≠ []) as Hws.
  { intros ->. apply set_choose_L in Hne as [v Hv].
    destruct (Hout v Hv) as [[]%elem_of_nil|[Hl _]].
    change (length (@nil string)) with 0 in Hl. lia. }
  destruct ws as [|w0 ws]; [done|]. split_and!; try done.
  eapply StronglySorted_impl_elem; [|exact Hsorted].
  intros a b Ha%Hin Hb%Hin Hab. unfold rankable in Ha, Hb.
  apply elem_of_filter in Ha as [Ha _]. apply elem_of_filter in Hb as [Hb _].
  by apply item_ltb_before.
Qed.

Lemma Experimental_suggestions_are_ranked_witness :
  let pow := λ (x : Q) (n : nat), match n with 0 => 1%Q | _ => x end in
  let words : gset string := {["sassy"; "sissy"; "daisy"; "shout"]} in
  let s := append_feedback "shout" "GXXXX" (init words words) in
  iteration_order elements
  ∧ 2 ≤ size (Experimental.filter_words s).2
  ∧ rankable pow s true ≠ ∅
  ∧ 1 ≤ 5
  ∧ (Experimental.suggest_guess pow elements s true 5).2 ≠ [].
Proof.
  cbv zeta.
  set (pow := λ (x : Q) (n : nat), match n with 0 => 1%Q | _ => x end).
  set (s := append_feedback "shout" "GXXXX"
              (init {["sassy"; "sissy"; "daisy"; "shout"]}
                    {["sassy"; "sissy"; "daisy"; "shout"]})).
  assert (iteration_order elements) as H1 by (by intros X).
  assert (2 ≤ size (Experimental.filter_words s).2) as H2 by (by vm_compute).
  assert (rankable pow s true ≠ ∅) as H3.
  { intros He. assert ("sassy" ∈ rankable pow s true) as Hin by (by vm_compute).
    rewrite He in Hin. by apply elem_of_empty in Hin. }
  assert (1 ≤ 5) as H4 by lia.
  exact (conj H1 (conj H2 (conj H3 (conj H4
           (proj1 (Experimental_suggestions_are_ranked pow elements s true 5 H1 H2 H3 H4)))))).
Defined.

(** When the experimental variant ranks more words than the number of
    suggestions asked for, the word whose heap item is the smallest, the
    one with the highest score, is not among its suggestions: the loop
    pops the smallest item off the full heap after every push. *)
Theorem Experimental_best_word_is_dropped pow iter s (mode : bool) K b :
  iteration_order iter →
  2 ≤ size (Experimental.filter_words s).2 →
  K < size (rankable pow s mode) →
  b ∈ rankable pow s mode →
  (∀ v, v ∈ rankable pow s mode → v ≠ b →
        item_ltb (heap_item (Experimental_score pow s mode) (Experimental.filter_words s).2 b)
                 (heap_item (Experimental_score pow s mode) (Experimental.filter_words s).2 v)
        = true) →
  b ∉ (Experimental.suggest_guess pow iter s mode K).2.
Proof.
  intros Hit Hsz HK Hb Hbest.
  destruct (Experimental_suggest_guess_heap pow iter s mode K Hit Hsz)
    as (ws & -> & Hsorted & Hin & Hout & Hlen).
  destruct ws as [|w0 ws].
  { destruct (Hout b Hb) as [[]%elem_of_nil|[Hl _]].
    change (length (@nil string)) with 0 in Hl. subst K.
    rewrite take_0. apply not_elem_of_nil. }
  intros Hbw.
  destruct (decide (Forall (λ x, x ∈ w0 :: ws) (elements (rankable pow s mode))))
    as [Hall|Hex].
  { assert (elements (rankable pow s mode) ⊆+ w0 :: ws) as Hsub.
    { apply NoDup_submseteq; [apply NoDup_elements|]. by apply Forall_forall. }
    apply submseteq_length in Hsub.
    change (length (elements (rankable pow s mode))) with (size (rankable pow s mode)) in Hsub.
    lia. }
  apply not_Forall_Exists in Hex; [|apply _].
  apply Exists_exists in Hex as (v & Hv%elem_of_elements & Hnv).
  destruct (Hout v Hv) as [?|[_ Hsmall]]; [done|].
  assert (v ≠ b) as Hne by (intros ->; done).
  specialize (Hbest v Hv Hne).
  unfold rankable in Hb, Hv.
  apply elem_of_filter in Hb as [Hb _]. apply elem_of_filter in Hv as [Hv _].
  apply item_ltb_before in Hbest; [|done..].
  eapply before_asym; [exact Hbest|]. by apply Hsmall.
Qed.

Lemma Experimental_best_word_is_dropped_witness :
  let pow := λ (x : Q) (n : nat), match n with 0 => 1%Q | _ => x end in
  let words : gset string := {["sassy"; "sissy"; "daisy"; "shout"]} in
  let s := append_feedback "shout" "GXXXX" (init words words) in
  iteration_order elements
  ∧ 2 ≤ size (Experimental.filter_words s).2
  ∧ 1 < size (rankable pow s false)
  ∧ "sassy" ∈ rankable pow s false
  ∧ "sassy" ∉ (Experimental.suggest_guess pow elements s false 1).2.
Proof.
  cbv zeta.
  set (pow := λ (x : Q) (n : nat), match n with 0 => 1%Q | _ => x end).
  set (s := append_feedback "shout" "GXXXX"
              (init {["sassy"; "sissy"; "daisy"; "shout"]}
                    {["sassy"; "sissy"; "daisy"; "shout"]})).
  assert (iteration_order elements) as H1 by (by intros X).
  assert (2 ≤ size (Experimental.filter_words s).2) as H2 by (by vm_compute).
  assert (1 < size (rankable pow s false)) as H3 by (by vm_compute).
  assert ("sassy" ∈ rankable pow s false) as H4 by (by vm_compute).
  assert (∀ v, v ∈ rankable pow s false → v ≠ "sassy" →
            item_ltb (heap_item (Experimental_score pow s false)
                        (Experimental.filter_words s).2 "sassy")
                     (heap_item (Experimental_score pow s false)
                        (Experimental.filter_words s).2 v)
            = true) as H5.
  { intros v Hv Hne. apply elem_of_elements in Hv. vm_compute in Hv.
    repeat (apply elem_of_cons in Hv as [->|Hv]); [..|inversion Hv];
      first [exfalso; apply Hne; reflexivity | vm_compute; reflexivity]. }
  exact (conj H1 (conj H2 (conj H3 (conj H4
           (Experimental_best_word_is_dropped pow elements s false 1 "sassy"
              H1 H2 H3 H4 H5))))).
Defined.

Lemma Experimental_suggestions_admissible_witness :
  let pow := λ (x : Q) (n : nat), match n with 0 => 1%Q | _ => x end in
  let words : gset string := {["sassy"; "sissy"; "daisy"; "shout"]} in
  let s := append_feedback "shout" "GXXXX" (init words words) in
  iteration_order elements
  ∧ "sissy" ∈ (Experimental.suggest_guess pow elements s true 5).2
  ∧ "sissy" ≠ "No valid words remaining."
  ∧ admissible (Experimental.filter_words s).1 "sissy".
Proof.
  cbv zeta.
  set (pow := λ (x : Q) (n : nat), match n with 0 => 1%Q | _ => x end).
  set (s := append_feedback "shout" "GXXXX"
              (init {["sassy"; "sissy"; "daisy"; "shout"]}
                    {["sassy"; "sissy"; "daisy"; "shout"]})).
  assert (iteration_order elements) as H1 by (by intros X).
  assert ("sissy" ∈ (Experimental.suggest_guess pow elements s true 5).2) as H2
    by (by_compute).
  assert ("sissy" ≠ "No valid words remaining.") as H3 by done.
  exact (conj H1 (conj H2 (conj H3
           (Experimental_suggestions_admissible pow elements s true 5 "sissy" H1 H2 H3)))).
Defined.

(** ** The terminal variant *)

(** *** Its scores *)

Lemma div_half_even_nonneg a b : (0 <= a)%Z → (0 < b)%Z → (0 <= div_half_even a b)%Z.
Proof.
  intros Ha Hb. unfold div_half_even.
  assert (0 <= a / b)%Z by (by apply Z.div_pos).
  destruct (_ ?= _)%Z; [destruct (Z.even _)|..]; lia.
Qed.

Lemma round_pos_nonneg n d : (0 <= round_pos n d)%Q.
Proof.
  unfold round_pos. destruct (0 <=? _)%Z eqn:E.
  - apply Z.leb_le in E.
    assert (0 <= div_half_even (Z.pos n) (Z.pos d * 2 ^ Z.max (ilog2 n d - 52) (-1074)))%Z
      by (apply div_half_even_nonneg; [lia|]; apply Z.mul_pos_pos; [lia|];
          apply Z.pow_pos_nonneg; lia).
    assert (0 <= 2 ^ Z.max (ilog2 n d - 52) (-1074))%Z by (apply Z.pow_nonneg; lia).
    unfold Qle. simpl. nia.
  - assert (0 <= div_half_even (Z.pos n * 2 ^ (- Z.max (ilog2 n d - 52) (-1074))) (Z.pos d))%Z
      by (apply div_half_even_nonneg; [|lia]; apply Z.mul_nonneg_nonneg; [lia|];
          apply Z.pow_nonneg; lia).
    unfold Qle. simpl. lia.
Qed.

Lemma float_round_nonneg q : (0 <= q)%Q → (0 <= float_round q)%Q.
Proof.
  destruct q as [[|n|n] d]; unfold float_round; simpl; intros Hq.
  - done.
  - apply round_pos_nonneg.
  - unfold Qle in Hq. simpl in Hq. lia.
Qed.

Lemma fadd_nonneg x y : (0 <= x)%Q → (0 <= y)%Q → (0 <= fadd x y)%Q.
Proof.
  intros Hx Hy. apply float_round_nonneg.
  replace 0%Q with (0 + 0)%Q by done. by apply Qplus_le_compat.
Qed.

Lemma of_int_nonneg n : (0 <= of_int n)%Q.
Proof. apply float_round_nonneg. unfold Qle. simpl. lia. Qed.

Lemma Terminal_score_nonneg word pf lf mode : (0 <= Terminal.score_word word pf lf mode)%Q.
Proof.
  unfold Terminal.score_word.
  generalize (enumerate (letters word)). intros l.
  assert (∀ acc : Q * gset ascii, (0 <= acc.1)%Q →
            (0 <= (foldl (λ '(score, used_letters) '(i, letter),
                     if decide (letter ∉ used_letters) then
                       let score :=
                         fadd score (of_int (multiplicity letter (default ∅ (pf !! i)))) in
                       let score :=
                         if mode then fadd score (of_int (multiplicity letter lf))
                         else score in
                       (score, ({[letter]} ∪ used_letters) : gset ascii)
                     else (score, used_letters)) acc l).1)%Q) as Hfold.
  { induction l as [|[i c] l IH]; intros [score used] Hacc; simpl in *; [done|].
    apply IH. destruct (decide _); simpl; [|done].
    destruct mode; repeat apply fadd_nonneg; try done; apply of_int_nonneg. }
  by apply (Hfold (0%Q, ∅)).
Qed.

(** The terminal variant suggests a word of the pool it ranks whose
    score no word of that pool exceeds. *)
Theorem Terminal_suggestion_has_best_score iter all_words words (mode : bool) :
  iteration_order iter →
  words ≠ ∅ →
  (if mode then all_words else words) ≠ ∅ →
  let pool := if mode then all_words else words in
  let sc := λ w, Terminal.score_word w (calculate_positional_frequencies words)
                   (calculate_letter_frequencies words) mode in
  let suggestion := Terminal.suggest_guess iter all_words words mode in
  suggestion ∈ pool ∧ ∀ v, v ∈ pool → (sc v <= sc suggestion)%Q.
Proof.
  intros Hit Hne Hpool. cbv zeta. unfold Terminal.suggest_guess.
  rewrite decide_False by done.
  set (pool := if mode then all_words else words) in *.
  set (sc := λ w, Terminal.score_word w (calculate_positional_frequencies words)
                    (calculate_letter_frequencies words) mode).
  set (step := λ '(best_word, best_score) word,
                 if negb (Qle_bool (sc word) best_score) then (word, sc word)
                 else (best_word, best_score) : string * Q).
  change (foldl _ ("", (-1)%Q) (iter pool)) with (foldl step ("", (-1)%Q) (iter pool)).
  assert (∀ l, (l = [] ∧ foldl step ("", (-1)%Q) l = ("", (-1)%Q))
               ∨ ((foldl step ("", (-1)%Q) l).1 ∈ l
                  ∧ (foldl step ("", (-1)%Q) l).2 = sc (foldl step ("", (-1)%Q) l).1
                  ∧ ∀ v, v ∈ l → (sc v <= (foldl step ("", (-1)%Q) l).2)%Q)) as Hinv.
  { intros l. induction l as [|w l IH] using rev_ind; [by left|right].
    rewrite foldl_app. simpl. destruct IH as [[-> ->]|(Hin & Hsc & Hbest)].
    - simpl. assert (Qle_bool (sc w) (-1) = false) as ->.
      { apply not_true_iff_false. rewrite Qle_bool_iff. intros Hle.
        pose proof (Terminal_score_nonneg w (calculate_positional_frequencies words)
                      (calculate_letter_frequencies words) mode) as Hpos.
        fold (sc w) in Hpos. assert (0 <= -1)%Q as H0 by (by eapply Qle_trans). done. }
      simpl. split_and!; [set_solver|done|].
      intros v ->%list_elem_of_singleton. apply Qle_refl.
    - destruct (foldl step ("", (-1)%Q) l) as [b x]. simpl in *.
      destruct (Qle_bool (sc w) x) eqn:E; simpl.
      + apply Qle_bool_iff in E. split_and!; [set_solver|done|].
        intros v [Hv| ->]%elem_of_snoc; [by apply Hbest|done].
      + split_and!; [set_solver|done|].
        assert (x < sc w)%Q as Hlt.
        { apply Qnot_le_lt. intros Hle. apply Qle_bool_iff in Hle. congruence. }
        intros v [Hv| ->]%elem_of_snoc; [|apply Qle_refl].
        eapply Qle_trans; [by apply Hbest|]. by apply Qlt_le_weak. }
  destruct (Hinv (iter pool)) as [[Hnil _]|(Hin & Hsc & Hbest)].
  - exfalso. apply Hpool. apply set_eq. intros v. split; [|set_solver].
    intros Hv%(elem_of_iter iter pool v Hit). rewrite Hnil in Hv. by apply elem_of_nil in Hv.
  - split; [by apply (elem_of_iter iter pool _ Hit)|].
    intros v Hv%(elem_of_iter iter pool v Hit).
    change (sc v <= sc (foldl step ("", (-1)%Q) (iter pool)).1)%Q.
    rewrite <- Hsc. by apply Hbest.
Qed.

Lemma Terminal_suggestion_has_best_score_witness :
  let words : gset string := {["crane"; "moist"; "coast"]} in
  iteration_order elements
  ∧ words ≠ ∅
  ∧ Terminal.suggest_guess elements words words false ∈ words.
Proof.
  cbv zeta.
  assert (iteration_order elements) as H1 by (by intros X).
  assert (({["crane"; "moist"; "coast"]} : gset string) ≠ ∅) as H2 by (by_compute).
  exact (conj H1 (conj H2
           (proj1 (Terminal_suggestion_has_best_score elements
                     {["crane"; "moist"; "coast"]} {["crane"; "moist"; "coast"]} false
                     H1 H2 H2)))).
Defined.

(** *** Its filter *)

(** What a mark of the feedback asks of a word in the terminal filter. *)
Lemma Terminal_filter_step_spec acc x w :
  w ∈ (Terminal.filter_step acc x).2 →
  w ∈ acc.2
  ∧ (x.2.2 = "G"%char → word_at w x.1 = Some x.2.1)
  ∧ (x.2.2 = "Y"%char → x.2.1 ∈ letters w ∧ word_at w x.1 ≠ Some x.2.1).
Proof.
  destruct acc as [s F], x as [i [c st]]. unfold Terminal.filter_step. simpl.
  repeat case_decide; simpl; rewrite ?elem_of_filter; subst; naive_solver.
Qed.

Lemma Terminal_filter_step_frame acc x :
  Terminal.all_words (Terminal.filter_step acc x).1 = Terminal.all_words acc.1
  ∧ Terminal.possible_answers (Terminal.filter_step acc x).1 = Terminal.possible_answers acc.1
  ∧ Terminal.feedback_history (Terminal.filter_step acc x).1 = Terminal.feedback_history acc.1.
Proof.
  destruct acc as [s F], x as [i [c st]]. unfold Terminal.filter_step.
  by repeat case_decide.
Qed.

Lemma Terminal_filter_steps_spec l acc w :
  w ∈ (foldl Terminal.filter_step acc l).2 →
  w ∈ acc.2
  ∧ ∀ x, x ∈ l →
      (x.2.2 = "G"%char → word_at w x.1 = Some x.2.1)
      ∧ (x.2.2 = "Y"%char → x.2.1 ∈ letters w ∧ word_at w x.1 ≠ Some x.2.1).
Proof.
  revert acc. induction l as [|x l IH]; intros acc Hw; simpl in *.
  - split; [done|]. by intros x []%elem_of_nil.
  - apply IH in Hw as [Hw Hl]. apply Terminal_filter_step_spec in Hw as (Hw & Hx).
    split; [done|]. intros y [->|Hy]%elem_of_cons; [done|by apply Hl].
Qed.

Lemma Terminal_filter_steps_frame l acc :
  Terminal.all_words (foldl Terminal.filter_step acc l).1 = Terminal.all_words acc.1
  ∧ Terminal.possible_answers (foldl Terminal.filter_step acc l).1
    = Terminal.possible_answers acc.1
  ∧ Terminal.feedback_history (foldl Terminal.filter_step acc l).1
    = Terminal.feedback_history acc.1.
Proof.
  revert acc. induction l as [|x l IH]; intros acc; simpl; [done|].
  destruct (IH (Terminal.filter_step acc x)) as (-> & -> & ->).
  apply Terminal_filter_step_frame.
Qed.

Lemma Terminal_filter_guesses_spec H acc w :
  w ∈ (foldl Terminal.filter_guess acc H).2 →
  w ∈ acc.2
  ∧ ∀ i c, (marked H i c "G" → word_at w i = Some c)
           ∧ (marked H i c "Y" → c ∈ letters w ∧ word_at w i ≠ Some c).
Proof.
  revert acc. induction H as [|[g fb] H IH]; intros acc Hw; simpl in *.
  - split; [done|]. intros i c. split; by intros []%marked_nil.
  - apply IH in Hw as [Hw HH]. unfold Terminal.filter_guess, enum_zip in Hw. simpl in Hw.
    apply Terminal_filter_steps_spec in Hw as [Hw Hx]. split; [done|].
    intros i c. change ((g, fb) :: H) with ([(g, fb)] ++ H).
    split; intros [Hm|Hm]%marked_app; try (by apply HH);
      apply marked_singleton, elem_of_enumerate in Hm;
      by apply (Hx _ Hm).
Qed.

Lemma Terminal_filter_guesses_frame H acc :
  Terminal.all_words (foldl Terminal.filter_guess acc H).1 = Terminal.all_words acc.1
  ∧ Terminal.possible_answers (foldl Terminal.filter_guess acc H).1
    = Terminal.possible_answers acc.1
  ∧ Terminal.feedback_history (foldl Terminal.filter_guess acc H).1
    = Terminal.feedback_history acc.1.
Proof.
  revert acc. induction H as [|e H IH]; intros acc; simpl; [done|].
  destruct (IH (Terminal.filter_guess acc e)) as (-> & -> & ->).
  apply Terminal_filter_steps_frame.
Qed.

(** The filter of the terminal variant returns words of
    [possible_answers] that have every letter marked CORRECT on its
    position and every letter marked PRESENT somewhere but not on the
    position of the mark; unlike the later variants it leaves
    [possible_answers] as it was. *)
Theorem Terminal_filter_words_respects_marks s :
  let r := Terminal.filter_words s in
  r.2 ⊆ Terminal.possible_answers s
  ∧ Terminal.possible_answers r.1 = Terminal.possible_answers s
  ∧ Terminal.all_words r.1 = Terminal.all_words s
  ∧ Terminal.feedback_history r.1 = Terminal.feedback_history s
  ∧ ∀ w i c, w ∈ r.2 →
      (marked (Terminal.feedback_history s) i c "G" → word_at w i = Some c)
      ∧ (marked (Terminal.feedback_history s) i c "Y" →
         c ∈ letters w ∧ word_at w i ≠ Some c).
Proof.
  cbv zeta. unfold Terminal.filter_words.
  destruct (Terminal_filter_guesses_frame (Terminal.feedback_history s)
              (s, Terminal.possible_answers s)) as (Ha & Hp & Hh). simpl in *.
  split_and!; try done.
  - intros w Hw. by apply Terminal_filter_guesses_spec in Hw as [Hw _].
  - intros w i c Hw. apply Terminal_filter_guesses_spec in Hw as [_ Hw]. apply Hw.
Qed.

Lemma Terminal_filter_words_respects_marks_witness :
  let s := Terminal.mkSolver {["suite"; "shrew"; "spelt"]} {["suite"; "shrew"; "spelt"]} 1
             [("speed", "GXYXX")] (replicate 5 None) (replicate 5 ∅) ∅ in
  "suite" ∈ (Terminal.filter_words s).2
  ∧ (marked (Terminal.feedback_history s) 2 "e" "Y" →
     "e"%char ∈ letters "suite" ∧ word_at "suite" 2 ≠ Some "e"%char).
Proof.
  cbv zeta.
  set (s := Terminal.mkSolver {["suite"; "shrew"; "spelt"]} {["suite"; "shrew"; "spelt"]} 1
              [("speed", "GXYXX")] (replicate 5 None) (replicate 5 ∅) ∅).
  assert ("suite" ∈ (Terminal.filter_words s).2) as H1 by (by vm_compute).
  exact (conj H1
           (proj2 (proj2 (proj2 (proj2 (proj2
              (Terminal_filter_words_respects_marks s)))) "suite" 2 "e"%char H1))).
Defined.

(** *** The state the terminal filter leaves behind *)

Lemma Terminal_filter_step_behind a b x :
  behind a b → behind (Terminal.filter_step a x) (Terminal.filter_step b x).
Proof.
  destruct a as [a F1], b as [b F2], x as [i [c st]].
  intros (HF & Hlk & Hk & Hlm & Hm). simpl in *. unfold Terminal.filter_step.
  destruct (decide (st = "G"%char)) as [->|?].
  { split_and!; simpl; try done.
    - intros w. rewrite !elem_of_filter. set_solver.
    - by rewrite !length_insert.
    - intros j k. destruct (decide (i = j)) as [<-|Hne].
      + intros Hj. assert (i < length (Terminal.known_letters a)) as Hlt.
        { apply lookup_lt_Some in Hj. by rewrite length_insert in Hj. }
        rewrite list_lookup_insert_eq in Hj by done.
        rewrite list_lookup_insert_eq by lia. done.
      + rewrite !list_lookup_insert_ne by done. apply Hk. }
  destruct (decide (st = "Y"%char)) as [->|?].
  { split_and!; simpl; try done.
    - intros w. rewrite !elem_of_filter. set_solver.
    - by rewrite !length_alter.
    - intros j m. rewrite !list_lookup_alter.
      destruct (decide (i = j)) as [<-|Hne].
      + destruct (Terminal.misplaced_letters a !! i) as [m0|] eqn:E; [|done].
        destruct (Hm i m0 E) as (m' & -> & Hsub). simpl. intros [= <-].
        eexists. split; [done|]. set_solver.
      + apply Hm. }
  destruct (decide (st = "X"%char)) as [->|?];
    [|by split_and!].
  assert ((Some c ∉ Terminal.known_letters b) ∧ (c ∉ ⋃ Terminal.misplaced_letters b) →
          (Some c ∉ Terminal.known_letters a) ∧ (c ∉ ⋃ Terminal.misplaced_letters a)) as Himp.
  { intros [Hkb Hmb]. split.
    - intros (j & Hj)%list_elem_of_lookup. apply Hkb.
      apply Hk in Hj. by eapply list_elem_of_lookup_2.
    - intros (m & (j & Hj)%list_elem_of_lookup & Hc)%elem_of_union_list. apply Hmb.
      destruct (Hm j m Hj) as (m' & Hj' & Hsub). apply elem_of_union_list.
      exists m'. split; [by eapply list_elem_of_lookup_2|set_solver]. }
  destruct (decide ((Some c ∉ Terminal.known_letters b) ∧ (c ∉ ⋃ Terminal.misplaced_letters b)))
    as [Hb|Hb].
  - rewrite decide_True by (by apply Himp). split_and!; simpl; try done.
    intros w. rewrite !elem_of_filter. set_solver.
  - destruct (decide _); split_and!; simpl; try done.
    intros w [_ ?]%elem_of_filter. by apply HF.
Qed.

Lemma Terminal_filter_guesses_behind H a b :
  behind a b → behind (foldl Terminal.filter_guess a H) (foldl Terminal.filter_guess b H).
Proof.
  revert a b. induction H as [|e H IH]; intros a b Hab; simpl; [done|].
  apply IH. unfold Terminal.filter_guess.
  generalize (enum_zip e.1 e.2). intros l. revert a b Hab.
  induction l as [|x l IHl]; intros a b Hab; simpl; [done|].
  apply IHl. by apply Terminal_filter_step_behind.
Qed.

Lemma Terminal_filter_guesses_lengths H acc :
  length (Terminal.known_letters (foldl Terminal.filter_guess acc H).1)
  = length (Terminal.known_letters acc.1)
  ∧ length (Terminal.misplaced_letters (foldl Terminal.filter_guess acc H).1)
    = length (Terminal.misplaced_letters acc.1).
Proof.
  revert acc. induction H as [|e H IH]; intros acc; simpl; [done|].
  destruct (IH (Terminal.filter_guess acc e)) as [-> ->].
  unfold Terminal.filter_guess. generalize (enum_zip e.1 e.2). intros l. revert acc.
  induction l as [|x l IHl]; intros acc; [done|]. cbn [foldl].
  destruct (IHl (Terminal.filter_step acc x)) as [-> ->].
  destruct acc as [a F], x as [i [c st]].
  unfold Terminal.filter_step. repeat case_decide; simpl;
    by rewrite ?length_insert, ?length_alter.
Qed.

(** On a solver as [__init__] leaves it, a second call of the filter of
    the terminal variant on the same history returns every word the
    first call returned: the marks learnt in the first call only make it
    skip tests on letters marked ABSENT. *)
Theorem Terminal_second_call_keeps_more s :
  Terminal.known_letters s = replicate 5 None →
  Terminal.misplaced_letters s = replicate 5 ∅ →
  (Terminal.filter_words s).2 ⊆ (Terminal.filter_words (Terminal.filter_words s).1).2.
Proof.
  intros Hk Hm. set (r := Terminal.filter_words s).
  assert (r = foldl Terminal.filter_guess (s, Terminal.possible_answers s)
                (Terminal.feedback_history s)) as Hr by reflexivity.
  destruct (Terminal_filter_guesses_frame (Terminal.feedback_history s)
              (s, Terminal.possible_answers s)) as (_ & Hp & Hh).
  rewrite <- Hr in Hp, Hh. simpl in Hp, Hh.
  assert (behind (s, Terminal.possible_answers s) (r.1, Terminal.possible_answers s)) as Hb.
  { destruct (Terminal_filter_guesses_lengths (Terminal.feedback_history s)
                (s, Terminal.possible_answers s)) as [Hlk Hlm].
    rewrite <- Hr in Hlk, Hlm. simpl in Hlk, Hlm.
    split_and!; simpl; try done.
    - rewrite Hk. intros i c Hi. apply lookup_replicate in Hi as [? _]. done.
    - rewrite Hm. intros i m [-> Hi]%lookup_replicate.
      destruct (lookup_lt_is_Some_2 (Terminal.misplaced_letters r.1) i) as [m' Hm'].
      { rewrite Hlm, Hm, length_replicate. done. }
      exists m'. split; [done|set_solver]. }
  apply (Terminal_filter_guesses_behind (Terminal.feedback_history s)) in Hb.
  rewrite <- Hr in Hb. destruct Hb as [Hsub _].
  unfold Terminal.filter_words at 1. by rewrite Hp, Hh.
Qed.

Lemma Terminal_second_call_keeps_more_witness :
  let s := Terminal.mkSolver {["abide"; "geese"]} {["abide"; "geese"]} 1
             [("geese", "XXXXG")] (replicate 5 None) (replicate 5 ∅) ∅ in
  Terminal.known_letters s = replicate 5 None
  ∧ Terminal.misplaced_letters s = replicate 5 ∅
  ∧ (Terminal.filter_words s).2 ⊆ (Terminal.filter_words (Terminal.filter_words s).1).2.
Proof.
  cbv zeta.
  set (s := Terminal.mkSolver {["abide"; "geese"]} {["abide"; "geese"]} 1
              [("geese", "XXXXG")] (replicate 5 None) (replicate 5 ∅) ∅).
  assert (Terminal.known_letters s = replicate 5 None) as H1 by reflexivity.
  assert (Terminal.misplaced_letters s = replicate 5 ∅) as H2 by reflexivity.
  exact (conj H1 (conj H2 (Terminal_second_call_keeps_more s H1 H2))).
Defined.

(** The first call can drop the answer: GEESE against ABIDE is marked
    XXXXG, the first e is tested before the last one is known, and the
    first call keeps no word; the second call keeps ABIDE. *)
Lemma Terminal_first_call_drops_the_answer :
  let s := Terminal.mkSolver {["abide"; "geese"]} {["abide"; "geese"]} 1
             [("geese", "XXXXG")] (replicate 5 None) (replicate 5 ∅) ∅ in
  Wordle.compare "abide" "geese" = "XXXXG"
  ∧ (Terminal.filter_words s).2 = ∅
  ∧ (Terminal.filter_words (Terminal.filter_words s).1).2 = {["abide"]}.
Proof. cbv zeta. split_and!; by vm_compute. Qed.
